(** * Bronze -> Silver supply-chain pipeline: a shallow embedding

    This development embeds the transformation pipeline of
    [pipelines/Project_Batch_Process.py] (and of its single-file twin
    [pipelines/Project_Single_File.py], which runs the same expression chain
    on one file) and states the properties of the specification over it.

    The pipeline is a chain of Polars expressions.  A data frame is modelled
    as the list of its rows, a row as a record of its cells, a cell as an
    [option] ([None] is the Polars null).  Every [with_columns] of the source
    is row-wise except the window expressions ([.over]), which read the whole
    frame.

    The schema is the one of the order files the scripts are written for:
    prices, rates and ratios are Float64, quantities, day counts and date
    parts are Int64, names are strings.

    Conventions for the library calls, fixed once here.  The source hands
    its labels to [then] and [otherwise] as plain strings, which only the
    older Polars releases read as literals; the calls are read as in those
    releases:
    - a string handed to [then] / [otherwise] is the label itself;
    - [count()] over a window is the number of rows of the group (current
      releases count the non-null cells only);
    - [unique] compares the cells of two rows for identity;
    - a comparison is null when an operand is null and false when an
      operand is NaN; a null predicate of [when] selects nothing;
    - [sum()] skips nulls; [str.replace] reads its pattern as a regular
      expression and rewrites the first match.
    - in a join two null key cells match each other (current releases
      match nothing on a null key cell unless asked to; the bound on the
      matches of a key is proved for both readings).
    Float64 cells are IEEE 754 binary64 numbers ([spec_float] with 53 bits
    of precision).  The chain is written over an interface [Arith] of the
    operations on Float64 cells, which binary64 implements. *)

From Stdlib Require Import ZArith List Bool String Ascii Lia.
From Stdlib Require Import QArith Qfield Qpower Lqa.
From Stdlib Require Import Permutation Sorted.
From Stdlib Require Import Floats.SpecFloat.
Import ListNotations.

Local Open Scope string_scope.
Local Open Scope Z_scope.

(** ** Decidable identity of cells *)

Class EqDec (A : Type) := eq_dec : forall x y : A, {x = y} + {x <> y}.

Definition eqb_of {A} `{EqDec A} (x y : A) : bool :=
  if eq_dec x y then true else false.

#[export] Instance bool_EqDec : EqDec bool := Bool.bool_dec.
#[export] Instance Z_EqDec : EqDec Z := Z.eq_dec.
#[export] Instance nat_EqDec : EqDec nat := Nat.eq_dec.
#[export] Instance positive_EqDec : EqDec positive := Pos.eq_dec.
#[export] Instance string_EqDec : EqDec string := string_dec.

#[export] Instance option_EqDec {A} `{EqDec A} : EqDec (option A).
Proof. intros x y. unfold EqDec in *. decide equality. Defined.

#[export] Instance list_EqDec {A} `{EqDec A} : EqDec (list A).
Proof. intros x y. unfold EqDec in *. decide equality. Defined.

#[export] Instance prod_EqDec {A B} `{EqDec A} `{EqDec B} : EqDec (A * B).
Proof. intros x y. unfold EqDec in *. decide equality. Defined.

(** ** Arithmetic of the Float64 columns *)

(** The operations the expression chain applies to Float64 cells.
    [of_int] is the cast of an Int64 cell (or of an integer literal) to
    Float64, [flt] and [fle] are the comparisons [<] and [<=], which are
    false as soon as an operand is NaN. *)
Class Arith (F : Type) := {
  fadd : F -> F -> F;
  fsub : F -> F -> F;
  fmul : F -> F -> F;
  fdiv : F -> F -> F;
  of_int : Z -> F;
  flt : F -> F -> bool;
  fle : F -> F -> bool;
  is_nan : F -> bool;
  F_EqDec :: EqDec F
}.

(** *** IEEE 754 binary64 *)

Module B64.

Definition prec : Z := 53.
Definition emax : Z := 1024.

Definition t := spec_float.

Definition add : t -> t -> t := SFadd prec emax.
Definition sub : t -> t -> t := SFsub prec emax.
Definition mul : t -> t -> t := SFmul prec emax.
Definition div : t -> t -> t := SFdiv prec emax.
Definition of_Z (z : Z) : t := binary_normalize prec emax z 0 false.
Definition ltb : t -> t -> bool := SFltb.
Definition leb : t -> t -> bool := SFleb.
Definition abs : t -> t := SFabs.

Definition nan (x : t) : bool :=
  match x with S754_nan => true | _ => false end.

Definition is_zero (x : t) : bool :=
  match x with S754_zero _ => true | _ => false end.

Definition dec : forall x y : t, {x = y} + {x <> y}.
Proof.
  decide equality; first [apply Bool.bool_dec | apply Z.eq_dec | apply Pos.eq_dec].
Defined.

End B64.

#[export] Instance B64_Arith : Arith B64.t := {
  fadd := B64.add;
  fsub := B64.sub;
  fmul := B64.mul;
  fdiv := B64.div;
  of_int := B64.of_Z;
  flt := B64.ltb;
  fle := B64.leb;
  is_nan := B64.nan;
  F_EqDec := B64.dec
}.

(** ** Cells *)

(** An arithmetic or comparison expression is null as soon as one of its
    operands is. *)
Definition lift2 {A B C} (f : A -> B -> C) (x : option A) (y : option B)
  : option C :=
  match x, y with
  | Some a, Some b => Some (f a b)
  | _, _ => None
  end.

(** Int64 arithmetic wraps around. *)
Definition wrap64 (z : Z) : Z := (z + 2 ^ 63) mod 2 ^ 64 - 2 ^ 63.

(** [pl.when(c).then(a) ... .otherwise(b)]: the branch is taken only where
    the predicate is true; a null predicate falls through like a false one. *)
Definition when_then {A} (c : option bool) (a rest : A) : A :=
  match c with
  | Some true => a
  | _ => rest
  end.

(** String concatenation [+] of two Utf8 expressions. *)
Definition sconcat : option string -> option string -> option string :=
  lift2 String.append.

(** [expr.is_in(values)] on a string expression. *)
Definition is_in (x : option string) (vs : list string) : option bool :=
  option_map (fun s => existsb (String.eqb s) vs) x.

(** ** [str.replace]: replacement of the first match of a pattern *)

(** [str.replace(pattern, value)] takes its pattern as a regular expression
    and rewrites the leftmost match only.  The one pattern of the pipeline,
    ["EE. UU."], is made of ordinary characters and of the dot, which stands
    for any character but the line feed.  The files are read in the
    encoding cp1252, in which a character is one of 256 code points: a
    character is an [ascii], a string the list of its characters. *)
Module Regex.

Inductive atom : Type :=
| Lit (c : ascii)
| AnyChar.

Definition t := list atom.

Definition atom_of (c : ascii) : atom :=
  if Ascii.eqb c "." then AnyChar else Lit c.

Definition compile (pattern : string) : t :=
  map atom_of (list_ascii_of_string pattern).

Definition atom_matches (a : atom) (c : ascii) : bool :=
  match a with
  | Lit x => Ascii.eqb x c
  | AnyChar => negb (Ascii.eqb c "010")
  end.

(** The text left after a match of [re] at the head of [s]. *)
Fixpoint match_prefix (re : t) (s : string) : option string :=
  match re with
  | [] => Some s
  | a :: re' =>
      match s with
      | EmptyString => None
      | String c s' => if atom_matches a c then match_prefix re' s' else None
      end
  end.

Fixpoint replace_first (re : t) (value s : string) : string :=
  match match_prefix re s with
  | Some rest => value ++ rest
  | None =>
      match s with
      | EmptyString => EmptyString
      | String c s' => String c (replace_first re value s')
      end
  end.

(** Some suffix of [s] starts with a match of [re]. *)
Fixpoint occurs (re : t) (s : string) : bool :=
  match match_prefix re s with
  | Some _ => true
  | None =>
      match s with
      | EmptyString => false
      | String _ s' => occurs re s'
      end
  end.

End Regex.

Definition str_replace (pattern value : string) (x : option string)
  : option string :=
  option_map (Regex.replace_first (Regex.compile pattern) value) x.

(** ** Calendar *)

(** [pl.format("{}-{}-{}", y, m, d).str.to_date("%Y-%m-%d", strict=False)]
    prints three integers and reads them back as a date: the result is the
    date when the triple is a day of the proleptic Gregorian calendar that
    the format can read, and null otherwise (also when a part is null).
    [%m] and [%d] read one or two digits without a sign.  [%Y] reads up to
    four digits when there is no sign, so that a year above 9999 is not
    read, and any number of digits after a minus sign, so that the years
    before year 0 are read, down to the first year of the date library,
    [min_year].  A date is its number of days since 1970-01-01. *)
Module Calendar.

Definition min_year : Z := -262144.

Definition is_leap (y : Z) : bool :=
  (y mod 4 =? 0) && (negb (y mod 100 =? 0) || (y mod 400 =? 0)).

Definition days_in_month (y m : Z) : Z :=
  if m =? 2 then (if is_leap y then 29 else 28)
  else if (m =? 4) || (m =? 6) || (m =? 9) || (m =? 11) then 30
  else 31.

Definition valid (y m d : Z) : bool :=
  (min_year <=? y) && (y <=? 9999) && (1 <=? m) && (m <=? 12)
  && (1 <=? d) && (d <=? days_in_month y m).

Definition days_from_civil (y m d : Z) : Z :=
  let y' := if m <=? 2 then y - 1 else y in
  let era := y' / 400 in
  let yoe := y' - era * 400 in
  let mp := if m <=? 2 then m + 9 else m - 3 in
  let doy := (153 * mp + 2) / 5 + d - 1 in
  let doe := yoe * 365 + yoe / 4 - yoe / 100 + doy in
  era * 146097 + doe - 719468.

Definition to_date (y m d : option Z) : option Z :=
  match y, m, d with
  | Some y, Some m, Some d =>
      if valid y m d then Some (days_from_civil y m d) else None
  | _, _, _ => None
  end.

(** [dt.strftime("%A")] *)
Definition day_name (date : Z) : string :=
  nth (Z.to_nat ((date + 4) mod 7))
    ["Sunday"; "Monday"; "Tuesday"; "Wednesday"; "Thursday"; "Friday";
     "Saturday"] "".

End Calendar.

(** ** Data model *)

Set Implicit Arguments.

(** Natural keys, consumed by the three dimension joins. *)
Record GeoKeys : Type := {
  order_state : option string;
  order_country : option string;
  order_region : option string;
  market : option string
}.

Record CustomerKeys : Type := {
  customer_state : option string;
  customer_country : option string
}.

Record ProductKeys : Type := {
  product_name : option string;
  category_name : option string;
  department_name : option string
}.

(** Source columns that reach the output unchanged. *)
Record Core (F : Type) : Type := {
  order_year : option Z;
  order_month : option Z;
  order_day : option Z;
  order_item_product_price : option F;
  order_item_quantity : option Z;
  order_item_discount_rate : option F;
  order_item_profit_ratio : option F;
  days_for_shipping_real : option Z;
  days_for_shipment_scheduled : option Z;
  type_ : option string;
  order_status : option string;
  customer_segment : option string
}.

(** The frame once the helper columns are dropped. *)
Record Clean (F : Type) : Type := {
  core : Core F;
  geo_keys : GeoKeys;
  customer_keys : CustomerKeys;
  product_keys : ProductKeys
}.

(** Raw Record: one line of a Bronze file. *)
Record RawRow (F : Type) : Type := {
  kept : Clean F;
  order_dayofweek : option Z;
  shipping_mode : option string
}.

Record Financials (F : Type) : Type := {
  gross_sales : option F;
  discount_amount : option F;
  net_revenue : option F;
  order_profit_amount : option F;
  total_cost : option F
}.

Record Operational (F : Type) : Type := {
  actual_unit_cost : option F;
  is_profit_bleeder : option bool;
  shipping_delta : option Z;
  markup_pct : option F;
  margin_leakage_pct : option F
}.

Record Segments : Type := {
  delivery_class : string;
  shipping_mode_clean : string;
  day_name_str : option string;
  order_day_type : string;
  price_segment : string;
  trade_route : option string
}.

Record WindowMetrics (F : Type) : Type := {
  category_share_pct : option F;
  state_order_count : Z;
  market_share_pct : option F;
  state_density_class : string
}.

(** The frame after the row-wise derivations. *)
Record Derived (F : Type) : Type := {
  clean : Clean F;
  fin : Financials F;
  ops : Operational F;
  seg : Segments
}.

(** The fact set that enters the dimension joins. *)
Record Fact (F : Type) : Type := {
  derived : Derived F;
  win : WindowMetrics F
}.

(** A dimension table maps a natural key (the cells of its join columns, in
    the order of [on=]) to a surrogate key and descriptive attributes. *)
Definition Key : Type := list (option string).

Record Payload : Type := {
  surrogate : option Z;
  attributes : list (option string)
}.

Definition Dim : Type := list (Key * Payload).

Record Dims : Type := {
  dim_geo : Dim;
  dim_cust : Dim;
  dim_prod : Dim
}.

(** Columns of the output other than the joined ones. *)
Record Body (F : Type) : Type := {
  b_core : Core F;
  b_fin : Financials F;
  b_ops : Operational F;
  b_seg : Segments;
  b_win : WindowMetrics F
}.

(** The frame after the first join and drop, and after the second. *)
Record Joined1 (F : Type) : Type := {
  j1_body : Body F;
  j1_customer : CustomerKeys;
  j1_product : ProductKeys;
  j1_geo : option Payload
}.

Record Joined2 (F : Type) : Type := {
  j2_body : Body F;
  j2_product : ProductKeys;
  j2_geo : option Payload;
  j2_customer_geo : option Payload
}.

(** Fact Row of the Silver artifact.  A joined side that is [None] is a row
    without a match: all the columns of that dimension are null. *)
Record Silver (F : Type) : Type := {
  body : Body F;
  geo : option Payload;
  customer_geo : option Payload;
  product : option Payload
}.

Definition surrogate_of (p : option Payload) : option Z :=
  match p with
  | Some x => surrogate x
  | None => None
  end.

Definition geo_id {F} (r : Silver F) : option Z := surrogate_of (geo r).
Definition customer_geo_id {F} (r : Silver F) : option Z :=
  surrogate_of (customer_geo r).
Definition product_key {F} (r : Silver F) : option Z :=
  surrogate_of (product r).

Unset Implicit Arguments.

#[export] Instance GeoKeys_EqDec : EqDec GeoKeys.
Proof. intros x y. decide equality; apply eq_dec. Defined.

#[export] Instance CustomerKeys_EqDec : EqDec CustomerKeys.
Proof. intros x y. decide equality; apply eq_dec. Defined.

#[export] Instance ProductKeys_EqDec : EqDec ProductKeys.
Proof. intros x y. decide equality; apply eq_dec. Defined.

#[export] Instance Core_EqDec {F} `{EqDec F} : EqDec (Core F).
Proof. intros x y. decide equality; apply eq_dec. Defined.

#[export] Instance Clean_EqDec {F} `{EqDec F} : EqDec (Clean F).
Proof. intros x y. decide equality; apply eq_dec. Defined.

#[export] Instance RawRow_EqDec {F} `{EqDec F} : EqDec (RawRow F).
Proof. intros x y. decide equality; apply eq_dec. Defined.

(** ** Frame operations *)

(** [df.unique(maintain_order=True)]: a row is kept when no row identical to
    it has been kept before; the kept rows stay in the order of the frame. *)
Section Unique.
Context {A : Type} `{EqDec A}.

Fixpoint unique_from (seen : list A) (df : list A) : list A :=
  match df with
  | [] => []
  | r :: rest =>
      if existsb (eqb_of r) seen then unique_from seen rest
      else r :: unique_from (r :: seen) rest
  end.

Definition unique_maintain_order (df : list A) : list A :=
  unique_from [] df.

End Unique.

(** [agg.over(key)]: the frame is grouped by [key] (a null key is a group of
    its own), the aggregate is folded over the rows of each group in the
    order of the frame, and every row receives the value of its group. *)
Section Over.
Context {K V R : Type} `{EqDec K}.
Variable key : R -> K.
Variable init : V.
Variable step : V -> R -> V.

Fixpoint upsert (k : K) (r : R) (groups : list (K * V)) : list (K * V) :=
  match groups with
  | [] => [(k, step init r)]
  | (k', v) :: rest =>
      if eqb_of k k' then (k', step v r) :: rest
      else (k', v) :: upsert k r rest
  end.

Definition group_by_agg (df : list R) : list (K * V) :=
  fold_left (fun groups r => upsert (key r) r groups) df [].

Fixpoint lookup (k : K) (groups : list (K * V)) : option V :=
  match groups with
  | [] => None
  | (k', v) :: rest => if eqb_of k k' then Some v else lookup k rest
  end.

Definition group_value (groups : list (K * V)) (k : K) : V :=
  match lookup k groups with
  | Some v => v
  | None => init
  end.

Definition over (df : list R) (r : R) : V :=
  group_value (group_by_agg df) (key r).

(** The rows of the frame that fall in the group of key [k]. *)
Definition partition (k : K) (df : list R) : list R :=
  filter (fun r => eqb_of (key r) k) df.

End Over.

(** [left.join(right, on=..., how="left")]: every left row is paired with
    each right row of equal key, in the order of the right frame, and with
    nulls when there is none.  Two keys are equal when they have the same
    cells, a null cell being equal to a null cell. *)
Definition keys_match (k1 k2 : Key) : bool := eqb_of k1 k2.

Definition matches (k : Key) (right : Dim) : list (Key * Payload) :=
  filter (fun d => keys_match k (fst d)) right.

Definition left_join {L : Type} (on : L -> Key) (left : list L) (right : Dim)
  : list (L * option Payload) :=
  flat_map
    (fun l =>
       match matches (on l) right with
       | [] => [(l, None)]
       | ms => map (fun d => (l, Some (snd d))) ms
       end)
    left.

(** [df.sort(by)]: ascending, written as an insertion sort that keeps the
    order of rows of equal key.  (The source does not ask for a stable
    sort; no statement below depends on the order of such rows.) *)
Section Sort.
Context {R : Type}.
Variable leb : R -> R -> bool.

Fixpoint insert_sorted (r : R) (df : list R) : list R :=
  match df with
  | [] => [r]
  | x :: rest =>
      if leb r x then r :: df else x :: insert_sorted r rest
  end.

Definition sort (df : list R) : list R :=
  fold_right insert_sorted [] df.

End Sort.

(** Order of two Int64 cells, nulls first. *)
Definition cell_compare (a b : option Z) : comparison :=
  match a, b with
  | None, None => Eq
  | None, Some _ => Lt
  | Some _, None => Gt
  | Some x, Some y => x ?= y
  end.

Fixpoint lex_leb (a b : list (option Z)) : bool :=
  match a, b with
  | x :: a', y :: b' =>
      match cell_compare x y with
      | Lt => true
      | Gt => false
      | Eq => lex_leb a' b'
      end
  | _, _ => true
  end.

(** ** The transformation chain *)

Section Pipeline.
Context {F : Type} `{Arith F}.

Definition to_f64 (x : option Z) : option F := option_map of_int x.

Definition is_not_null {A} (x : option A) : bool :=
  match x with Some _ => true | None => false end.

(** [expr.fill_nan(v)]: a NaN cell becomes [v]; any other cell, null
    included, is left as it is. *)
Definition fill_nan (v : F) (x : option F) : option F :=
  option_map (fun a => if is_nan a then v else a) x.

(** *** Step 2: validation and cleanup *)

Definition valid_date_check (r : RawRow F) : option Z :=
  let c := core (kept r) in
  Calendar.to_date (order_year c) (order_month c) (order_day c).

Definition validate (df : list (RawRow F)) : list (RawRow F * option Z) :=
  filter (fun p => is_not_null (snd p))
    (map (fun r => (r, valid_date_check r)) df).

Definition deduplicate (df : list (RawRow F)) : list (RawRow F * option Z) :=
  unique_maintain_order (validate df).

(** Drop of [order_dayofweek], [valid_date_check] and [shipping_mode]. *)
Definition drop_helpers (p : RawRow F * option Z) : Clean F := kept (fst p).

Definition cleanup (df : list (RawRow F)) : list (Clean F) :=
  map drop_helpers (deduplicate df).

(** *** Step 3: financial metrics *)

Definition financials (c : Core F) : Financials F :=
  let gross_sales :=
    lift2 fmul (order_item_product_price c) (to_f64 (order_item_quantity c)) in
  let discount_amount :=
    lift2 fmul
      (lift2 fmul (order_item_product_price c)
         (to_f64 (order_item_quantity c)))
      (order_item_discount_rate c) in
  let net_revenue := lift2 fsub gross_sales discount_amount in
  let order_profit_amount :=
    lift2 fmul net_revenue (order_item_profit_ratio c) in
  let total_cost := lift2 fsub net_revenue order_profit_amount in
  {| gross_sales := gross_sales;
     discount_amount := discount_amount;
     net_revenue := net_revenue;
     order_profit_amount := order_profit_amount;
     total_cost := total_cost |}.

(** *** Step 4: operational and strategic features *)

Definition operational (c : Core F) (f : Financials F) : Operational F :=
  let actual_unit_cost :=
    lift2 fdiv (total_cost f) (to_f64 (order_item_quantity c)) in
  let is_profit_bleeder :=
    lift2 flt (order_profit_amount f) (Some (of_int 0)) in
  let shipping_delta :=
    lift2 (fun a b => wrap64 (a - b))
      (days_for_shipping_real c) (days_for_shipment_scheduled c) in
  let markup_pct :=
    lift2 fdiv
      (lift2 fsub (order_item_product_price c) actual_unit_cost)
      actual_unit_cost in
  let margin_leakage_pct :=
    fill_nan (of_int 0)
      (lift2 fdiv (discount_amount f)
         (lift2 fadd (order_profit_amount f) (discount_amount f))) in
  {| actual_unit_cost := actual_unit_cost;
     is_profit_bleeder := is_profit_bleeder;
     shipping_delta := shipping_delta;
     markup_pct := markup_pct;
     margin_leakage_pct := margin_leakage_pct |}.

Definition delivery_class_of (shipping_delta : option Z) : string :=
  when_then (lift2 Z.ltb shipping_delta (Some 0)) "Early"
    (when_then (lift2 Z.eqb shipping_delta (Some 0)) "On Time"
       "Late").

Definition shipping_mode_clean_of (scheduled : option Z) : string :=
  when_then (lift2 Z.eqb scheduled (Some 0)) "Same Day"
    (when_then (lift2 Z.leb scheduled (Some 2)) "First Class"
       (when_then (lift2 Z.eqb scheduled (Some 3)) "Second Class"
          "Standard Class")).

Definition day_name_str_of (c : Core F) : option string :=
  option_map Calendar.day_name
    (Calendar.to_date (order_year c) (order_month c) (order_day c)).

Definition order_day_type_of (c : Core F) : string :=
  when_then (is_in (day_name_str_of c) ["Saturday"; "Sunday"]) "Weekend"
    "Weekday".

Definition price_segment_of (price : option F) : string :=
  when_then (lift2 flt price (Some (of_int 60))) "Budget"
    (when_then (lift2 fle price (Some (of_int 250))) "Mainstream"
       "Premium").

Definition trade_route_of (ck : CustomerKeys) (gk : GeoKeys) : option string :=
  sconcat
    (sconcat
       (sconcat
          (sconcat (str_replace "EE. UU." "USA" (customer_country ck))
             (Some "_"))
          (customer_state ck))
       (Some " -> "))
    (order_country gk).

Definition segments (c : Clean F) (o : Operational F) : Segments :=
  {| delivery_class := delivery_class_of (shipping_delta o);
     shipping_mode_clean :=
       shipping_mode_clean_of (days_for_shipment_scheduled (core c));
     day_name_str := day_name_str_of (core c);
     order_day_type := order_day_type_of (core c);
     price_segment := price_segment_of (order_item_product_price (core c));
     trade_route := trade_route_of (customer_keys c) (geo_keys c) |}.

Definition derive (c : Clean F) : Derived F :=
  let f := financials (core c) in
  let o := operational (core c) f in
  {| clean := c; fin := f; ops := o; seg := segments c o |}.

(** *** Step 5: window metrics *)

(** [sum()] skips null cells and starts from zero. *)
Definition sum_step (acc : F) (x : option F) : F :=
  match x with
  | Some a => fadd acc a
  | None => acc
  end.

Definition fsum (xs : list (option F)) : F :=
  fold_left sum_step xs (of_int 0).

Definition d_gross_sales (d : Derived F) : option F := gross_sales (fin d).
Definition d_category_name (d : Derived F) : option string :=
  category_name (product_keys (clean d)).
Definition d_market (d : Derived F) : option string :=
  market (geo_keys (clean d)).
Definition d_order_state (d : Derived F) : option string :=
  order_state (geo_keys (clean d)).

Definition sum_gross_sales_over (by_ : Derived F -> option string)
  (df : list (Derived F)) : Derived F -> F :=
  over by_ (of_int 0) (fun acc d => sum_step acc (d_gross_sales d)) df.

Definition count_over (by_ : Derived F -> option string)
  (df : list (Derived F)) : Derived F -> Z :=
  over by_ 0 (fun acc _ => acc + 1) df.

Definition state_density_class_of (state_order_count : Z) : string :=
  when_then (Some (100 <? state_order_count)) "Strategic Hub"
    (when_then (Some (state_order_count <? 10)) "Expansion Zone"
       "Standard Zone").

Definition window_metrics (df : list (Derived F)) (d : Derived F)
  : WindowMetrics F :=
  let category_share_pct :=
    lift2 fdiv (d_gross_sales d)
      (Some (sum_gross_sales_over d_category_name df d)) in
  let state_order_count := count_over d_order_state df d in
  let market_share_pct :=
    lift2 fdiv (d_gross_sales d)
      (Some (sum_gross_sales_over d_market df d)) in
  {| category_share_pct := category_share_pct;
     state_order_count := state_order_count;
     market_share_pct := market_share_pct;
     state_density_class := state_density_class_of state_order_count |}.

Definition with_window_metrics (df : list (Derived F)) : list (Fact F) :=
  map (fun d => {| derived := d; win := window_metrics df d |}) df.

(** The fact set before enrichment. *)
Definition fact_set (df : list (RawRow F)) : list (Fact F) :=
  with_window_metrics (map derive (cleanup df)).

(** *** Step 6: star schema enrichment *)

Definition f_clean (r : Fact F) : Clean F := clean (derived r).

Definition geo_on (r : Fact F) : Key :=
  let k := geo_keys (f_clean r) in
  [order_state k; order_country k; order_region k; market k].

Definition drop_geo_keys (p : Fact F * option Payload) : Joined1 F :=
  let r := fst p in
  {| j1_body :=
       {| b_core := core (f_clean r);
          b_fin := fin (derived r);
          b_ops := ops (derived r);
          b_seg := seg (derived r);
          b_win := win r |};
     j1_customer := customer_keys (f_clean r);
     j1_product := product_keys (f_clean r);
     j1_geo := snd p |}.

Definition customer_on (r : Joined1 F) : Key :=
  [customer_state (j1_customer r); customer_country (j1_customer r)].

Definition drop_customer_keys (p : Joined1 F * option Payload) : Joined2 F :=
  let r := fst p in
  {| j2_body := j1_body r;
     j2_product := j1_product r;
     j2_geo := j1_geo r;
     j2_customer_geo := snd p |}.

Definition product_on (r : Joined2 F) : Key :=
  [product_name (j2_product r); category_name (j2_product r);
   department_name (j2_product r)].

Definition drop_product_keys (p : Joined2 F * option Payload) : Silver F :=
  let r := fst p in
  {| body := j2_body r;
     geo := j2_geo r;
     customer_geo := j2_customer_geo r;
     product := snd p |}.

Definition enrich (dims : Dims) (df : list (Fact F)) : list (Silver F) :=
  let df1 := map drop_geo_keys (left_join geo_on df (dim_geo dims)) in
  let df2 :=
    map drop_customer_keys (left_join customer_on df1 (dim_cust dims)) in
  map drop_product_keys (left_join product_on df2 (dim_prod dims)).

(** *** Step 7: final sort *)

Definition sort_key (r : Silver F) : list (option Z) :=
  let c := b_core (body r) in
  [order_year c; order_month c; order_day c; order_item_quantity c].

(** The column names of the model are already in lower case: the final
    [rename] changes nothing. *)
Definition finalize (df : list (Silver F)) : list (Silver F) :=
  sort (fun a b => lex_leb (sort_key a) (sort_key b)) df.

(** Steps 2 to 7 on one frame. *)
Definition transform (dims : Dims) (df : list (RawRow F)) : list (Silver F) :=
  finalize (enrich dims (fact_set df)).

End Pipeline.

(** ** The batch coordinator *)

(** [os.path.splitext] on a base name: the name is cut at its last dot,
    unless only dots come before it. *)
Module Path.

Fixpoint all_dots (l : list ascii) : bool :=
  match l with
  | [] => true
  | c :: l' => Ascii.eqb c "." && all_dots l'
  end.

(** [split_last_dot l] is [Some (root, ext)] when [l = root ++ ext] and
    [ext] starts with the last dot of [l]. *)
Fixpoint split_last_dot (l : list ascii) : option (list ascii * list ascii) :=
  match l with
  | [] => None
  | c :: l' =>
      match split_last_dot l' with
      | Some (root, ext) => Some (c :: root, ext)
      | None => if Ascii.eqb c "." then Some ([], l) else None
      end
  end.

Definition splitext (name : string) : string * string :=
  match split_last_dot (list_ascii_of_string name) with
  | Some (root, ext) =>
      if all_dots root then (name, "")
      else (string_of_list_ascii root, string_of_list_ascii ext)
  | None => (name, "")
  end.

End Path.

Section Batch.
Context {F : Type} `{Arith F}.

(** The three zones of the data lake: the names of the CSV files waiting
    in Bronze, the artifacts of Silver and the names in Archive. *)
Record Lake : Type := {
  bronze : list string;
  silver : list (string * list (Silver F));
  archive : list string
}.

(** What the outside world answers to the calls made for one file: the
    frame read from it (or a failure: unreadable, or not of the expected
    schema), the dimension tables, whether the artifact can be written,
    whether the file can be moved, and the clock.  A failure is an
    exception.  The handlers of the scripts catch the class [Exception];
    a failure of [shutil.move] is of that class, but a failure inside the
    data frame library (reading, transforming, writing) may be a panic of
    the library, which reaches Python as an exception outside that class.
    [panics] tells, for each file, whether the failure of the library on it
    is of that kind. *)
Record World : Type := {
  read_csv : string -> option (list (RawRow F));
  read_dims : string -> option Dims;
  write_parquet : string -> bool;
  move : string -> bool;
  now : string -> string;
  panics : string -> bool
}.

(** How the turn of the loop for one file ends: the file is archived; the
    handler reports a failure and the loop goes on; or the failure goes
    past the handler and ends the run. *)
Inductive Outcome : Type :=
| Archived
| Skipped
| Aborted.

Definition output_name (file_name : string) : string :=
  "Fact_" ++ fst (Path.splitext file_name) ++ ".parquet".

Definition archive_name (file_name timestamp : string) : string :=
  fst (Path.splitext file_name) ++ "_" ++ timestamp ++ ".csv".

(** Writing an artifact replaces one of the same name. *)
Definition write_file {A} (name : string) (content : A)
  (dir : list (string * A)) : list (string * A) :=
  (name, content) :: filter (fun e => negb (String.eqb (fst e) name)) dir.

Definition remove_file (name : string) (dir : list string) : list string :=
  filter (fun n => negb (String.eqb n name)) dir.

(** A failure of the library inside the [try] block: [except Exception]
    catches it, reports and lets the loop go on, unless it is a panic. *)
Definition library_failure (w : World) (lake : Lake) (file_name : string)
  : Lake * Outcome :=
  (lake, if panics w file_name then Aborted else Skipped).

(** The body of the loop: the [try] block, where every failure raises, and
    its handler. *)
Definition process_file (w : World) (lake : Lake) (file_name : string)
  : Lake * Outcome :=
  match read_csv w file_name with
  | None => library_failure w lake file_name
  | Some df =>
      let facts := fact_set df in
      match read_dims w file_name with
      | None => library_failure w lake file_name
      | Some dims =>
          let out := finalize (enrich dims facts) in
          if write_parquet w file_name then
            let written :=
              {| bronze := bronze lake;
                 silver := write_file (output_name file_name) out (silver lake);
                 archive := archive lake |} in
            if move w file_name then
              ({| bronze := remove_file file_name (bronze written);
                  silver := silver written;
                  archive :=
                    archive_name file_name (now w file_name)
                    :: archive written |},
               Archived)
            else (written, Skipped)
          else library_failure w lake file_name
      end
  end.

(** The loop: an exception that the handler does not catch ends it, and
    the files after that one are not looked at. *)
Fixpoint process_files (w : World) (lake : Lake) (csv_files : list string)
  : Lake * list (string * Outcome) :=
  match csv_files with
  | [] => (lake, [])
  | file_name :: rest =>
      let (lake1, o) := process_file w lake file_name in
      match o with
      | Aborted => (lake1, [(file_name, o)])
      | _ =>
          let (lake2, log) := process_files w lake1 rest in
          (lake2, (file_name, o) :: log)
      end
  end.

(** Discovery, then the loop over the files found. *)
Definition run_batch (w : World) (lake : Lake) : Lake * list (string * Outcome) :=
  process_files w lake (bronze lake).

End Batch.

Arguments Lake F : clear implicits.
Arguments World F : clear implicits.

(** ** Reference definitions for the statements *)

(** A dimension table is unique-keyed when no two of its rows have the same
    cells in the join columns. *)
Definition unique_keyed (d : Dim) : Prop := NoDup (map fst d).

Definition first_match (k : Key) (d : Dim) : option Payload :=
  match matches k d with
  | [] => None
  | m :: _ => Some (snd m)
  end.

(** The matches of a key under the other reading of the join, in which a
    null key cell matches nothing. *)
Fixpoint keys_match_without_nulls (k1 k2 : Key) : bool :=
  match k1, k2 with
  | [], [] => true
  | Some a :: k1', Some b :: k2' =>
      String.eqb a b && keys_match_without_nulls k1' k2'
  | _, _ => false
  end.

Definition matches_without_nulls (k : Key) (right : Dim)
  : list (Key * Payload) :=
  filter (fun d => keys_match_without_nulls k (fst d)) right.

(** Sums over the groups of the fact set, and the row that enrichment gives
    when every key has at most one match. *)
Section Shares.
Context {F : Type} `{Arith F}.

Definition f_category_name (r : Fact F) : option string :=
  d_category_name (derived r).
Definition f_market (r : Fact F) : option string := d_market (derived r).
Definition f_order_state (r : Fact F) : option string :=
  d_order_state (derived r).

Definition category_share_sum (facts : list (Fact F)) (k : option string) : F :=
  fsum (map (fun r => category_share_pct (win r))
          (partition f_category_name k facts)).

Definition market_share_sum (facts : list (Fact F)) (k : option string) : F :=
  fsum (map (fun r => market_share_pct (win r))
          (partition f_market k facts)).

(** Number of rows of the fact set that share the [order_state] of [r]. *)
Definition rows_sharing_state (facts : list (Fact F)) (r : Fact F) : Z :=
  Z.of_nat (List.length (partition f_order_state (f_order_state r) facts)).

(** The output row of a fact row when every key has at most one match. *)
Definition body_of (r : Fact F) : Body F :=
  {| b_core := core (f_clean r);
     b_fin := fin (derived r);
     b_ops := ops (derived r);
     b_seg := seg (derived r);
     b_win := win r |}.

Definition enrich_row (dims : Dims) (r : Fact F) : Silver F :=
  let ck := customer_keys (f_clean r) in
  let pk := product_keys (f_clean r) in
  {| body := body_of r;
     geo := first_match (geo_on r) (dim_geo dims);
     customer_geo :=
       first_match [customer_state ck; customer_country ck] (dim_cust dims);
     product :=
       first_match [product_name pk; category_name pk; department_name pk]
         (dim_prod dims) |}.

End Shares.

(** [|x - 1| <= 1e-6] in binary64. *)
Definition tolerance : B64.t := B64.div (B64.of_Z 1) (B64.of_Z 1000000).

Definition close_to_one (x : B64.t) : bool :=
  B64.leb (B64.abs (B64.sub x (B64.of_Z 1))) tolerance.

(** Normalisation of a country name as the specification words it: the one
    value ["EE. UU."] becomes ["USA"], any other value is returned as is. *)
Definition normalize_whole_value (s : string) : string :=
  if String.eqb s "EE. UU." then "USA" else s.

Definition trade_route_whole_value (ck : CustomerKeys) (gk : GeoKeys)
  : option string :=
  sconcat
    (sconcat
       (sconcat
          (sconcat (option_map normalize_whole_value (customer_country ck))
             (Some "_"))
          (customer_state ck))
       (Some " -> "))
    (order_country gk).

(** The code's normalisation on a non-null cell. *)
Definition normalize (s : string) : string :=
  Regex.replace_first (Regex.compile "EE. UU.") "USA" s.

(** A stretch of seven characters of the shape E, E, any character, space,
    U, U, any character, where any character is any but the line feed. *)
Definition line_feed : ascii := "010"%char.

Definition shape (m : string) : Prop :=
  exists x y,
    x <> line_feed /\ y <> line_feed
    /\ m = String "E"%char (String "E"%char (String x (String " "%char
              (String "U"%char (String "U"%char (String y ""))))))%string.

(** The stretch that reads ["EE. UU."]. *)
Definition literal (m : string) : Prop := m = "EE. UU.".

(** [first_replaced P s n]: [n] is [s] with its leftmost stretch that
    satisfies [P] replaced by ["USA"], or [s] itself when no stretch of
    [s] satisfies [P]. *)
Definition first_replaced (P : string -> Prop) (s n : string) : Prop :=
  (~ (exists p m q, s = p ++ m ++ q /\ P m) /\ n = s)
  \/ (exists p m q,
        s = p ++ m ++ q /\ P m
        /\ (forall p1 p2 m' q',
              p = p1 ++ p2 -> p2 <> "" -> p2 ++ m ++ q = m' ++ q' -> ~ P m')
        /\ n = p ++ "USA" ++ q).

(** Rows kept by a deduplication that compares each row with all the rows
    before it in the frame. *)
Section FirstOccurrences.
Context {A : Type} `{EqDec A}.

Fixpoint first_occurrences_from (before : list A) (df : list A) : list A :=
  match df with
  | [] => []
  | r :: rest =>
      if existsb (eqb_of r) before
      then first_occurrences_from (r :: before) rest
      else r :: first_occurrences_from (r :: before) rest
  end.

Definition first_occurrences (df : list A) : list A :=
  first_occurrences_from [] df.

End FirstOccurrences.

(** What the world lets the coordinator do with one file. *)
Section Fate.
Context {F : Type} `{Arith F}.

Definition written_ok (w : World F) (file_name : string) : bool :=
  is_not_null (read_csv w file_name)
  && is_not_null (read_dims w file_name)
  && write_parquet w file_name.

Definition archived_ok (w : World F) (file_name : string) : bool :=
  written_ok w file_name && move w file_name.

(** The failure on the file, if there is one, is not caught. *)
Definition aborts (w : World F) (file_name : string) : bool :=
  negb (written_ok w file_name) && panics w file_name.

Definition outcome_of (w : World F) (file_name : string) : Outcome :=
  if archived_ok w file_name then Archived
  else if aborts w file_name then Aborted
  else Skipped.

(** The files the loop gets to: all of them up to the first one whose
    failure is not caught, that one included. *)
Fixpoint reached (w : World F) (csv_files : list string) : list string :=
  match csv_files with
  | [] => []
  | file_name :: rest =>
      if aborts w file_name then [file_name]
      else file_name :: reached w rest
  end.

Definition has_artifact (lake : Lake F) (file_name : string) : Prop :=
  In (output_name file_name) (map fst (silver lake)).

(** The loop without its early exit: the loop of the script is this one on
    the files it reaches. *)
Fixpoint process_each (w : World F) (lake : Lake F) (csv_files : list string)
  : Lake F * list (string * Outcome) :=
  match csv_files with
  | [] => (lake, [])
  | file_name :: rest =>
      let (lake1, o) := process_file w lake file_name in
      let (lake2, log) := process_each w lake1 rest in
      (lake2, (file_name, o) :: log)
  end.

End Fate.

(** ** Sample frames *)

Module Fixture.

Definition half : B64.t := B64.div (B64.of_Z 1) (B64.of_Z 2).

(** An order line of 2017-01-05, sold from Puerto Rico to Indonesia. *)
Definition order_line (price : option B64.t) (quantity : Z)
  (rate ratio : B64.t) (country mode : string) : RawRow B64.t :=
  {| kept :=
       {| core :=
            {| order_year := Some 2017;
               order_month := Some 1;
               order_day := Some 5;
               order_item_product_price := price;
               order_item_quantity := Some quantity;
               order_item_discount_rate := Some rate;
               order_item_profit_ratio := Some ratio;
               days_for_shipping_real := Some 3;
               days_for_shipment_scheduled := Some 4;
               type_ := Some "DEBIT";
               order_status := Some "COMPLETE";
               customer_segment := Some "Consumer" |};
          geo_keys :=
            {| order_state := Some "Java Occidental";
               order_country := Some "Indonesia";
               order_region := Some "Southeast Asia";
               market := Some "Pacific Asia" |};
          customer_keys :=
            {| customer_state := Some "PR";
               customer_country := Some country |};
          product_keys :=
            {| product_name := Some "Smart watch";
               category_name := Some "Sporting Goods";
               department_name := Some "Fitness" |} |};
     order_dayofweek := Some 4;
     shipping_mode := Some mode |}.

(** Price 10, one unit, half of it discounted, profit ratio -1: the
    profit is the opposite of the discount. *)
Definition loss_line : RawRow B64.t :=
  order_line (Some (B64.of_Z 10)) 1 half (B64.of_Z (-1)) "Puerto Rico"
    "Standard Class".

(** A line given away: price 0. *)
Definition free_line : RawRow B64.t :=
  order_line (Some (B64.of_Z 0)) 1 half half "Puerto Rico" "Standard Class".

(** Two lines that differ in [shipping_mode] only. *)
Definition standard_line : RawRow B64.t :=
  order_line (Some (B64.of_Z 10)) 1 half half "Puerto Rico" "Standard Class".
Definition second_line : RawRow B64.t :=
  order_line (Some (B64.of_Z 10)) 1 half half "Puerto Rico" "Second Class".

(** A line whose price is missing and one of another customer country. *)
Definition unpriced_line : RawRow B64.t :=
  order_line None 1 half half "Puerto Rico" "Standard Class".
Definition wildcard_line : RawRow B64.t :=
  order_line (Some (B64.of_Z 10)) 1 half half "EEx UUy" "Standard Class".
(** A line whose customer country contains the text ["EE. UU."]. *)
Definition embedded_line : RawRow B64.t :=
  order_line (Some (B64.of_Z 10)) 1 half half "xxEE. UU.yy" "Standard Class".

(** A line whose order state is missing, and dimension tables in which the
    geography of that line is filed under a null state. *)
Definition stateless_line : RawRow B64.t :=
  {| kept :=
       {| core := core (kept standard_line);
          geo_keys :=
            {| order_state := None;
               order_country := Some "Indonesia";
               order_region := Some "Southeast Asia";
               market := Some "Pacific Asia" |};
          customer_keys := customer_keys (kept standard_line);
          product_keys := product_keys (kept standard_line) |};
     order_dayofweek := Some 4;
     shipping_mode := Some "Standard Class" |}.

Definition null_key_dims : Dims :=
  {| dim_geo :=
       [([None; Some "Indonesia"; Some "Southeast Asia"; Some "Pacific Asia"],
         {| surrogate := Some 99; attributes := [] |})];
     dim_cust := [];
     dim_prod := [] |}.

Definition dims : Dims :=
  {| dim_geo :=
       [([Some "Java Occidental"; Some "Indonesia"; Some "Southeast Asia";
          Some "Pacific Asia"],
         {| surrogate := Some 17; attributes := [Some "APAC"] |})];
     dim_cust :=
       [([Some "CA"; Some "EE. UU."],
         {| surrogate := Some 1; attributes := [] |})];
     dim_prod :=
       [([Some "Smart watch"; Some "Sporting Goods"; Some "Fitness"],
         {| surrogate := Some 403; attributes := [] |})] |}.

(** A world in which everything works but the move to the archive. *)
Definition stuck_world : World B64.t :=
  {| read_csv := fun _ => Some [standard_line];
     read_dims := fun _ => Some dims;
     write_parquet := fun _ => true;
     move := fun _ => false;
     now := fun _ => "20170105_120000";
     panics := fun _ => false |}.

(** A world in which the second file cannot be read. *)
Definition world : World B64.t :=
  {| read_csv :=
       fun f => if String.eqb f "b.csv" then None else Some [standard_line];
     read_dims := fun _ => Some dims;
     write_parquet := fun _ => true;
     move := fun _ => true;
     now := fun _ => "20170105_120000";
     panics := fun _ => false |}.

(** The same world, in which the failure on the second file is a panic. *)
Definition panic_world : World B64.t :=
  {| read_csv :=
       fun f => if String.eqb f "b.csv" then None else Some [standard_line];
     read_dims := fun _ => Some dims;
     write_parquet := fun _ => true;
     move := fun _ => true;
     now := fun _ => "20170105_120000";
     panics := fun _ => true |}.

(** A world in which nothing can be read. *)
Definition unreadable_world : World B64.t :=
  {| read_csv := fun _ => None;
     read_dims := fun _ => Some dims;
     write_parquet := fun _ => true;
     move := fun _ => true;
     now := fun _ => "20170105_120000";
     panics := fun f => String.eqb f "b.csv" |}.

Definition lake (files : list string) : Lake B64.t :=
  {| bronze := files; silver := []; archive := [] |}.

(** Lines of one category at a price and a quantity. *)
Definition priced_line (price quantity : Z) : RawRow B64.t :=
  order_line (Some (B64.of_Z price)) quantity half half "Puerto Rico"
    "Standard Class".

(** Gross sales 10, 20 and 21. *)
Definition mixed_lines : list (RawRow B64.t) :=
  [priced_line 10 1; priced_line 10 2; priced_line 7 3].

(** Gross sales 2^53, 1, -2^53 and 3. *)
Definition cancelling_lines : list (RawRow B64.t) :=
  [priced_line 9007199254740992 1; priced_line 1 1;
   priced_line (-9007199254740992) 1; priced_line 3 1].

End Fixture.

(** ** The single-file pipeline *)

(** [pipelines/Project_Single_File.py] runs the same steps on one fixed
    source and writes one fixed target.  Its archival creates the archive
    folder first and keeps the extension of the source. *)
Section SingleFile.
Context {F : Type} `{Arith F}.

Definition SOURCE_FILE_NAME : string := "DataCo_Final_2M.csv".
Definition TARGET_FILE_NAME : string := "DataCo_Silver.parquet".

(** [name, ext = os.path.splitext(file_name)], then
    [f"{name}_{timestamp}{ext}"]. *)
Definition single_archive_name (file_name timestamp : string) : string :=
  fst (Path.splitext file_name) ++ "_" ++ timestamp
  ++ snd (Path.splitext file_name).

Definition present (name : string) (dir : list string) : bool :=
  existsb (String.eqb name) dir.

(** The [try] block and its handler.  Reading a source that is not in Bronze
    raises like any other failure of the read.  A failure that the handler
    does not catch ends the script where the handler would have ended it,
    with the lake in the same state: both are [Skipped] here. *)
Definition run_single_file (w : World F) (makedirs_ok : bool)
  (source target : string) (lake : Lake F) : Lake F * Outcome :=
  match (if present source (bronze lake) then read_csv w source else None) with
  | None => (lake, Skipped)
  | Some df =>
      let facts := fact_set df in
      match read_dims w source with
      | None => (lake, Skipped)
      | Some dims =>
          let out := finalize (enrich dims facts) in
          if write_parquet w source then
            let written :=
              {| bronze := bronze lake;
                 silver := write_file target out (silver lake);
                 archive := archive lake |} in
            if makedirs_ok then
              if move w source then
                ({| bronze := remove_file source (bronze written);
                    silver := silver written;
                    archive :=
                      single_archive_name source (now w source)
                      :: archive written |},
                 Archived)
              else (written, Skipped)
            else (written, Skipped)
          else (lake, Skipped)
      end
  end.

(** Whether a run gets as far as the move and the move succeeds. *)
Definition single_ok_test (w : World F) (makedirs_ok : bool)
  (source : string) (lake : Lake F) : bool :=
  present source (bronze lake) && written_ok w source && makedirs_ok
  && move w source.

Definition single_file_pipeline (w : World F) (makedirs_ok : bool)
  (lake : Lake F) : Lake F * Outcome :=
  run_single_file w makedirs_ok SOURCE_FILE_NAME TARGET_FILE_NAME lake.

End SingleFile.

(** ** The warehouse loaders *)

Set Implicit Arguments.

(** A row of the SQL table [Fact_Sales]: the columns of [STRICT_COLUMNS].
    Of the output of the pipeline the contract leaves out the two share
    columns and the attributes of the dimensions. *)
Record StrictRow (F : Type) : Type := {
  st_geo_id : option Z;
  st_customer_geo_id : option Z;
  st_product_key : option Z;
  st_core : Core F;
  st_fin : Financials F;
  st_ops : Operational F;
  st_seg : Segments;
  st_state_order_count : Z;
  st_state_density_class : string
}.

(** The Silver folder as the fact loader sees it (the files
    [Fact_*.parquet] with their frames), the table [Fact_Sales] and the
    folder [archive_silver]. *)
Record Warehouse (F : Type) : Type := {
  pending : list (string * list (Silver F));
  fact_sales : list (StrictRow F);
  archive_silver : list string
}.

(** What the outside world answers to the fact loader. *)
Record LoadWorld : Type := {
  lw_connect : bool;
  lw_read_parquet : string -> bool;
  lw_to_sql : string -> bool;
  lw_makedirs : string -> bool;
  lw_move : string -> bool;
  lw_now : string -> string
}.

(** The three dimension tables in SQL Server, and what the world answers to
    the dimension loader: the frame of each Parquet file (or a failure) and
    whether the append goes through. *)
Record DimWorld : Type := {
  dw_connect : bool;
  dw_read_parquet : string -> option Dim;
  dw_to_sql : string -> bool
}.

Unset Implicit Arguments.

Section FactLoader.
Context {F : Type}.

(** [df.select(STRICT_COLUMNS)] *)
Definition select_strict (r : Silver F) : StrictRow F :=
  {| st_geo_id := geo_id r;
     st_customer_geo_id := customer_geo_id r;
     st_product_key := product_key r;
     st_core := b_core (body r);
     st_fin := b_fin (body r);
     st_ops := b_ops (body r);
     st_seg := b_seg (body r);
     st_state_order_count := state_order_count (b_win (body r));
     st_state_density_class := state_density_class (b_win (body r)) |}.

(** [f"LOADED_{file_name}_{timestamp}.parquet"]: the whole file name,
    extension included, goes into the archive name. *)
Definition loaded_name (file_name timestamp : string) : string :=
  "LOADED_" ++ file_name ++ "_" ++ timestamp ++ ".parquet".

Definition remove_entry {A : Type} (name : string) (dir : list (string * A))
  : list (string * A) :=
  filter (fun e => negb (String.eqb (fst e) name)) dir.

(** One turn of the load loop of [Project_Silver_To_SQL.py]: read, project,
    append, then archive; any failure skips the file.  The append of pandas
    runs in one transaction: it adds all the rows or none. *)
Definition load_file (w : LoadWorld) (wh : Warehouse F)
  (file : string * list (Silver F)) : Warehouse F * Outcome :=
  let file_name := fst file in
  if lw_read_parquet w file_name then
    let df_clean := map select_strict (snd file) in
    if lw_to_sql w file_name then
      let loaded :=
        {| pending := pending wh;
           fact_sales := (fact_sales wh ++ df_clean)%list;
           archive_silver := archive_silver wh |} in
      if lw_makedirs w file_name then
        if lw_move w file_name then
          ({| pending := remove_entry file_name (pending loaded);
              fact_sales := fact_sales loaded;
              archive_silver :=
                loaded_name file_name (lw_now w file_name)
                :: archive_silver loaded |},
           Archived)
        else (loaded, Skipped)
      else (loaded, Skipped)
    else (wh, Skipped)
  else (wh, Skipped).

Fixpoint load_files (w : LoadWorld) (wh : Warehouse F)
  (files : list (string * list (Silver F)))
  : Warehouse F * list (string * Outcome) :=
  match files with
  | [] => (wh, [])
  | file :: rest =>
      let (wh1, o) := load_file w wh file in
      let (wh2, log) := load_files w wh1 rest in
      (wh2, (fst file, o) :: log)
  end.

(** [main]: nothing is done without a connection. *)
Definition load_facts (w : LoadWorld) (wh : Warehouse F)
  : Warehouse F * list (string * Outcome) :=
  if lw_connect w then load_files w wh (pending wh) else (wh, []).

(** Whether a file of that name is among the files of the loop. *)
Definition named_in (files : list (string * list (Silver F))) (name : string)
  : bool :=
  existsb (fun f => String.eqb name (fst f)) files.

(** The rows a file adds to the table, if it adds any. *)
Definition appended_rows (w : LoadWorld) (file : string * list (Silver F))
  : list (StrictRow F) :=
  if lw_read_parquet w (fst file) && lw_to_sql w (fst file)
  then map select_strict (snd file)
  else [].

Definition load_archived (w : LoadWorld) (file_name : string) : bool :=
  lw_read_parquet w file_name && lw_to_sql w file_name
  && lw_makedirs w file_name && lw_move w file_name.

End FactLoader.

(** [Project_Dimension_Table_To_SQL.py]: the three tables are appended in
    the order of [DIM_PATHS]; a failure skips one table.  No file is moved
    or marked. *)
Definition load_dimension (w : DimWorld) (table_name : string) (table : Dim)
  : Dim :=
  match dw_read_parquet w table_name with
  | Some df =>
      if dw_to_sql w table_name then (table ++ df)%list else table
  | None => table
  end.

Definition load_dimensions (w : DimWorld) (db : Dims) : Dims :=
  if dw_connect w then
    {| dim_geo := load_dimension w "Dim_Geo" (dim_geo db);
       dim_cust := load_dimension w "Dim_Customer_Geo" (dim_cust db);
       dim_prod := load_dimension w "Dim_Product" (dim_prod db) |}
  else db.

(** ** More reference definitions *)

(** A binary64 number that is neither NaN nor infinite. *)
Definition is_finite (x : B64.t) : bool :=
  match x with
  | S754_zero _ | S754_finite _ _ _ => true
  | _ => false
  end.

Definition is_infinite (x : B64.t) : bool :=
  match x with
  | S754_infinity _ => true
  | _ => false
  end.

(** *** The value of a binary64 number

    What the statement on the shares of a group is measured with: the
    rational number a binary64 cell stands for, and the quantities of the
    rounding analysis. *)

(** Least exponent of the format (-1074) and the exponent a number of
    magnitude [2^e] is rounded at. *)
Definition emin : Z := SpecFloat.emin B64.prec B64.emax.
Definition fexp (e : Z) : Z := SpecFloat.fexp B64.prec B64.emax e.

Definition pow2 (e : Z) : Q := (2 ^ e)%Q.

(** Value of a binary64 number: [m * 2^e], negated under the sign bit;
    zeros, infinities and NaN count for 0. *)
Definition B2Q (x : B64.t) : Q :=
  match x with
  | S754_finite s m e => inject_Z (cond_Zopp s (Zpos m)) * pow2 e
  | _ => 0
  end.

(** [|x - 1| <= 1e-6] on the value of a finite number. *)
Definition within_a_millionth_of_one (x : B64.t) : Prop :=
  is_finite x = true
  /\ (1 - (1 # 1000000) <= B2Q x /\ B2Q x <= 1 + (1 # 1000000))%Q.

(** A number that is a zero or finite and positive; a cell that is null or
    holds such a number. *)
Definition is_nonneg (x : B64.t) : bool :=
  match x with
  | S754_zero _ | S754_finite false _ _ => true
  | _ => false
  end.

Definition nonneg_cell (x : option B64.t) : bool :=
  match x with
  | Some a => is_nonneg a
  | None => true
  end.

(** The largest group the bound on the shares is stated for: 2^24 rows. *)
Definition max_rows : Z := 16777216.

(** The share of a cell in a total, as [window_metrics] computes it. *)
Definition share (total : B64.t) (x : option B64.t) : option B64.t :=
  lift2 fdiv x (Some total).

(** Location of a scaled value [y] with respect to the integer [m], as the
    rounding functions track it. *)
Definition loc_inv (m : Z) (l : location) (y : Q) : Prop :=
  match l with
  | loc_Exact => (y == inject_Z m)%Q
  | loc_Inexact Lt => (inject_Z m < y /\ y < inject_Z m + (1 # 2))%Q
  | loc_Inexact Eq => (y == inject_Z m + (1 # 2))%Q
  | loc_Inexact Gt => (inject_Z m + (1 # 2) < y /\ y < inject_Z m + 1)%Q
  end.

Definition rec_inv (mrs : shr_record) (y : Q) : Prop :=
  loc_inv (shr_m mrs) (loc_of_shr_record mrs) y.

(** Unit roundoff [2^-53] and half of the least positive number. *)
Definition ulp_half : Q := pow2 (- B64.prec).
Definition eta : Q := pow2 (emin - 1).

(** A number that is a zero or positive, with an exponent of the format. *)
Definition good (x : B64.t) : Prop :=
  match x with
  | S754_zero _ => True
  | S754_finite false _ e => emin <= e
  | _ => False
  end.

Definition all_good (xs : list (option B64.t)) : Prop :=
  forall x, In (Some x) xs -> good x.

(** Sum of the values of the non-null cells, and powers of a rational. *)
Fixpoint qsum (xs : list (option B64.t)) : Q :=
  match xs with
  | [] => 0
  | Some x :: rest => B2Q x + qsum rest
  | None :: rest => qsum rest
  end.

Fixpoint qpow (a : Q) (n : nat) : Q :=
  match n with
  | O => 1
  | S n' => a * qpow a n'
  end.

(** A key without a null cell. *)
Definition complete_key (k : Key) : bool := forallb is_not_null k.

(** The order of the final sort on two rows. *)
Definition sort_leb {F : Type} (a b : Silver F) : bool :=
  lex_leb (sort_key a) (sort_key b).

Definition day_names : list string :=
  ["Sunday"; "Monday"; "Tuesday"; "Wednesday"; "Thursday"; "Friday";
   "Saturday"].

(** A file name as discovery finds it in Bronze: a stem that is not empty
    and does not begin with a dot, then [".csv"]. *)
Definition csv_name (stem : string) : string := stem ++ ".csv".

Definition plain_stem (stem : string) : Prop :=
  match stem with
  | EmptyString => False
  | String c _ => c <> "."%char
  end.

(** More sample data. *)
Module Sample.

Definition all_fine : World B64.t :=
  {| read_csv := fun _ => Some [Fixture.standard_line; Fixture.loss_line];
     read_dims := fun _ => Some Fixture.dims;
     write_parquet := fun _ => true;
     move := fun _ => true;
     now := fun _ => "20170105_120000";
     panics := fun _ => false |}.

Definition artifact : list (Silver B64.t) :=
  transform Fixture.dims [Fixture.standard_line; Fixture.loss_line].

Definition warehouse : Warehouse B64.t :=
  {| pending := [("Fact_a.parquet", artifact); ("Fact_b.parquet", artifact)];
     fact_sales := [];
     archive_silver := [] |}.

(** The second file cannot be moved after its rows are loaded. *)
Definition load_world : LoadWorld :=
  {| lw_connect := true;
     lw_read_parquet := fun _ => true;
     lw_to_sql := fun _ => true;
     lw_makedirs := fun _ => true;
     lw_move := fun f => negb (String.eqb f "Fact_b.parquet");
     lw_now := fun _ => "20170106_080000" |}.

Definition dim_world : DimWorld :=
  {| dw_connect := true;
     dw_read_parquet :=
       fun t => if String.eqb t "Dim_Geo" then Some (dim_geo Fixture.dims)
                else None;
     dw_to_sql := fun _ => true |}.

Definition empty_db : Dims :=
  {| dim_geo := []; dim_cust := []; dim_prod := [] |}.

End Sample.

(** * Properties *)

(** ** Identity tests *)

Lemma eqb_of_true {A} `{EqDec A} (x y : A) : eqb_of x y = true <-> x = y.
Proof. unfold eqb_of. destruct (eq_dec x y); split; congruence. Qed.

Lemma eqb_of_false {A} `{EqDec A} (x y : A) : eqb_of x y = false <-> x <> y.
Proof. unfold eqb_of. destruct (eq_dec x y); split; congruence. Qed.

Lemma eqb_of_refl {A} `{EqDec A} (x : A) : eqb_of x x = true.
Proof. now apply eqb_of_true. Qed.

Ltac eqb_cases :=
  repeat match goal with
    | |- context [eqb_of ?a ?b] =>
        let E := fresh "E" in
        destruct (eqb_of a b) eqn:E;
        [apply (proj1 (eqb_of_true _ _)) in E
        |apply (proj1 (eqb_of_false _ _)) in E]
    end.

Lemma existsb_eqb_of {A} `{EqDec A} (x : A) (l : list A) :
  existsb (eqb_of x) l = true <-> In x l.
Proof.
  rewrite existsb_exists. split.
  - intros [y [Hy E]]. apply (proj1 (eqb_of_true x y)) in E. subst y. exact Hy.
  - intros Hx. exists x. split; [assumption | apply eqb_of_refl].
Qed.

Lemma existsb_eqb_of_false {A} `{EqDec A} (x : A) (l : list A) :
  existsb (eqb_of x) l = false <-> ~ In x l.
Proof.
  rewrite <- existsb_eqb_of. destruct (existsb (eqb_of x) l); split; congruence.
Qed.

(** ** Margin leakage (step 4) *)

Lemma fill_nan_not_nan (v x y : B64.t) :
  B64.nan v = false -> fill_nan v (Some x) = Some y -> B64.nan y = false.
Proof.
  intros Hv. unfold fill_nan. simpl.
  destruct (B64.nan x) eqn:E; intros K; injection K as <-; assumption.
Qed.

Lemma div_zero_by_zero (d s : B64.t) :
  B64.is_zero d = true -> B64.is_zero s = true -> B64.div d s = S754_nan.
Proof.
  destruct d; try discriminate. destruct s; try discriminate. reflexivity.
Qed.

Lemma div_nonzero_by_zero (d s : B64.t) :
  B64.is_zero d = false -> B64.nan d = false -> B64.is_zero s = true ->
  is_infinite (B64.div d s) = true.
Proof.
  destruct s; try discriminate. now destruct d.
Qed.

(** C1, as the code has it: [fill_nan] replaces a NaN quotient, and only a
    NaN quotient, by 0.0.  The margin leakage of a row is never NaN; it is
    0.0 when the quotient is NaN, in particular when the discount and the
    sum [order_profit_amount + discount_amount] are both zero; any other
    quotient is stored as it is, a null quotient stays null, and whenever
    the sum is zero and the discount is not, the margin leakage is
    infinite. *)
Theorem margin_leakage_nan_guard (c : Core B64.t) (f : Financials B64.t) :
  let quotient :=
    lift2 fdiv (discount_amount f)
      (lift2 fadd (order_profit_amount f) (discount_amount f)) in
  let m := margin_leakage_pct (operational c f) in
  (forall x, m = Some x -> B64.nan x = false)
  /\ (forall x, quotient = Some x -> B64.nan x = true -> m = Some (B64.of_Z 0))
  /\ (forall x, quotient = Some x -> B64.nan x = false -> m = Some x)
  /\ (quotient = None -> m = None)
  /\ (forall d p,
        discount_amount f = Some d -> order_profit_amount f = Some p ->
        B64.is_zero d = true -> B64.is_zero (B64.add p d) = true ->
        m = Some (B64.of_Z 0))
  /\ (forall d p,
        discount_amount f = Some d -> order_profit_amount f = Some p ->
        B64.is_zero d = false -> B64.is_zero (B64.add p d) = true ->
        exists x, m = Some x /\ is_infinite x = true).
Proof.
  cbv zeta. unfold operational. cbn [margin_leakage_pct].
  set (q := lift2 fdiv _ _).
  split; [|split; [|split; [|split; [|split]]]].
  - intros x Hx. destruct q as [y|]; [|discriminate].
    now apply (fill_nan_not_nan (of_int 0) y x).
  - intros x -> Hx. unfold fill_nan. simpl. now rewrite Hx.
  - intros x -> Hx. unfold fill_nan. simpl. now rewrite Hx.
  - intros ->. reflexivity.
  - intros d p Hd Hp Zd Zs. subst q. rewrite Hd, Hp. simpl.
    rewrite (div_zero_by_zero d (B64.add p d) Zd Zs). reflexivity.
  - intros d p Hd Hp Zd Zs. subst q. rewrite Hd, Hp. simpl.
    assert (Nd : B64.nan d = false).
    { destruct d; try reflexivity. now destruct p. }
    pose proof (div_nonzero_by_zero d (B64.add p d) Zd Nd Zs) as I.
    exists (B64.div d (B64.add p d)). split; [|exact I].
    unfold fill_nan. simpl.
    now destruct (B64.div d (B64.add p d)).
Qed.

Lemma margin_leakage_nan_guard_witness :
  margin_leakage_pct
    (operational (core (kept Fixture.free_line))
       (financials (core (kept Fixture.free_line))))
  = Some (B64.of_Z 0).
Proof.
  refine (proj1 (proj2 (proj2 (proj2 (proj2
    (margin_leakage_nan_guard (core (kept Fixture.free_line))
       (financials (core (kept Fixture.free_line))))))))
    (S754_zero false) (S754_zero false) _ _ _ _);
  reflexivity.
Defined.

(** C1 fails as stated: on a line whose profit is the opposite of its
    discount the sum is zero, the quotient is +infinity, and it is stored. *)
Lemma margin_leakage_infinite :
  let c := core (kept Fixture.loss_line) in
  let f := financials c in
  lift2 fadd (order_profit_amount f) (discount_amount f) = Some (S754_zero false)
  /\ margin_leakage_pct (operational c f) = Some (S754_infinity false)
  /\ margin_leakage_pct (operational c f) <> Some (B64.of_Z 0).
Proof.
  vm_compute. repeat split. discriminate.
Qed.

(** ** Frame operations: rows in, rows out *)

Section SortFacts.
Context {R : Type}.
Variable leb : R -> R -> bool.

Lemma insert_sorted_perm (r : R) (df : list R) :
  Permutation (insert_sorted leb r df) (r :: df).
Proof.
  induction df as [|x rest IH]; simpl.
  - apply Permutation_refl.
  - destruct (leb r x).
    + apply Permutation_refl.
    + apply Permutation_trans with (x :: r :: rest).
      * now apply perm_skip.
      * apply perm_swap.
Qed.

Lemma sort_perm (df : list R) : Permutation (sort leb df) df.
Proof.
  induction df as [|r rest IH]; simpl.
  - apply Permutation_refl.
  - apply Permutation_trans with (r :: sort leb rest).
    + apply insert_sorted_perm.
    + now apply perm_skip.
Qed.

End SortFacts.

Lemma left_join_In {L : Type} (on : L -> Key) (left : list L) (right : Dim)
  (p : L * option Payload) :
  In p (left_join on left right) -> In (fst p) left.
Proof.
  unfold left_join. rewrite in_flat_map.
  intros [l [Hl Hp]]. destruct (matches (on l) right) as [|m ms].
  - destruct Hp as [<-|[]]. exact Hl.
  - apply in_map_iff in Hp. destruct Hp as [d [<- _]]. exact Hl.
Qed.

Section RowFacts.
Context {F : Type} `{Arith F}.

Lemma enrich_In (dims : Dims) (df : list (Fact F)) (r : Silver F) :
  In r (enrich dims df) -> exists f, In f df /\ body r = body_of f.
Proof.
  unfold enrich. intros H3.
  apply in_map_iff in H3. destruct H3 as [p3 [<- H3]].
  apply left_join_In in H3.
  apply in_map_iff in H3. destruct H3 as [p2 [E2 H2]].
  apply left_join_In in H2.
  apply in_map_iff in H2. destruct H2 as [p1 [E1 H1]].
  apply left_join_In in H1.
  exists (fst p1). split; [exact H1|].
  simpl. rewrite <- E2. simpl. rewrite <- E1. reflexivity.
Qed.

Lemma with_window_metrics_In (df : list (Derived F)) (f : Fact F) :
  In f (with_window_metrics df) ->
  In (derived f) df /\ win f = window_metrics df (derived f).
Proof.
  unfold with_window_metrics. rewrite in_map_iff.
  intros [d [<- Hd]]. split; [exact Hd | reflexivity].
Qed.

Lemma fact_set_In (df : list (RawRow F)) (f : Fact F) :
  In f (fact_set df) -> exists c, derived f = derive c.
Proof.
  unfold fact_set. intros Hf. apply with_window_metrics_In in Hf.
  destruct Hf as [Hd _]. apply in_map_iff in Hd.
  destruct Hd as [c [E _]]. now exists c.
Qed.

Lemma transform_In (dims : Dims) (df : list (RawRow F)) (r : Silver F) :
  In r (transform dims df) ->
  exists f, In f (fact_set df) /\ body r = body_of f.
Proof.
  unfold transform, finalize. intros Hr.
  apply (Permutation_in _ (sort_perm _ _)) in Hr.
  now apply enrich_In in Hr.
Qed.

(** ** Financial equations (step 3) *)

Lemma transform_financials (dims : Dims) (df : list (RawRow F))
  (r : Silver F) :
  In r (transform dims df) -> exists c, b_fin (body r) = financials c.
Proof.
  intros Hr. apply transform_In in Hr. destruct Hr as [x [Hx E]].
  apply fact_set_In in Hx. destruct Hx as [c Hc].
  exists (core c). rewrite E. unfold body_of. cbn [b_fin]. now rewrite Hc.
Qed.

(** C2: in every row of the output, [net_revenue] is
    [gross_sales - discount_amount] and [total_cost] is
    [net_revenue - order_profit_amount], as values of the arithmetic of the
    columns (null when an operand is null). *)
Theorem financial_equations (dims : Dims) (df : list (RawRow F))
  (r : Silver F) :
  In r (transform dims df) ->
  let f := b_fin (body r) in
  net_revenue f = lift2 fsub (gross_sales f) (discount_amount f)
  /\ total_cost f = lift2 fsub (net_revenue f) (order_profit_amount f).
Proof.
  intros Hr. apply transform_financials in Hr. destruct Hr as [c Hc].
  cbv zeta. rewrite Hc. split; reflexivity.
Qed.

(** ** Classifiers on null cells (step 4) *)

(** C10: a null cell makes every predicate on it null, no [when] branch is
    taken and the label is the one of [otherwise]. *)
Theorem null_takes_otherwise (c : Clean F) :
  (order_item_product_price (core c) = None ->
   price_segment (seg (derive c)) = "Premium")
  /\ (shipping_delta (ops (derive c)) = None ->
      delivery_class (seg (derive c)) = "Late")
  /\ (days_for_shipment_scheduled (core c) = None ->
      shipping_mode_clean (seg (derive c)) = "Standard Class")
  /\ (days_for_shipping_real (core c) = None
      \/ days_for_shipment_scheduled (core c) = None ->
      shipping_delta (ops (derive c)) = None).
Proof.
  unfold derive, segments, operational.
  cbn [seg ops price_segment delivery_class shipping_mode_clean
       shipping_delta].
  split; [|split; [|split]].
  - intros ->. reflexivity.
  - intros ->. reflexivity.
  - intros ->. reflexivity.
  - intros [-> | ->]; [reflexivity|].
    now destruct (days_for_shipping_real (core c)).
Qed.

End RowFacts.

Lemma financial_equations_witness :
  exists r,
    In r (transform Fixture.dims [Fixture.standard_line])
    /\ net_revenue (b_fin (body r))
       = lift2 fsub (gross_sales (b_fin (body r)))
           (discount_amount (b_fin (body r))).
Proof.
  assert (E : exists r, In r (transform Fixture.dims [Fixture.standard_line])).
  { eexists. vm_compute. left. reflexivity. }
  destruct E as [r Hr]. exists r. split.
  - exact Hr.
  - exact (proj1 (financial_equations Fixture.dims _ r Hr)).
Defined.

Lemma null_takes_otherwise_witness :
  price_segment (seg (derive (kept Fixture.unpriced_line))) = "Premium".
Proof.
  apply (proj1 (null_takes_otherwise (kept Fixture.unpriced_line))).
  reflexivity.
Defined.

(** ** Windows (step 5) *)

Section OverFacts.
Context {K V R : Type} `{EqDec K}.
Variable key : R -> K.
Variable init : V.
Variable step : V -> R -> V.

Lemma group_value_upsert (k k' : K) (r : R) (groups : list (K * V)) :
  group_value init (upsert init step k' r groups) k
  = if eqb_of k' k then step (group_value init groups k) r
    else group_value init groups k.
Proof.
  unfold group_value.
  induction groups as [|[k0 v0] rest IH]; simpl.
  - eqb_cases; subst; simpl; congruence.
  - destruct (eqb_of k' k0) eqn:E0; simpl.
    + apply (proj1 (eqb_of_true _ _)) in E0. subst k0.
      eqb_cases; subst; simpl; congruence.
    + destruct (eqb_of k k0) eqn:E1.
      * apply (proj1 (eqb_of_true _ _)) in E1. subst k0.
        now rewrite E0.
      * exact IH.
Qed.

Lemma group_value_fold (k : K) (df : list R) (groups : list (K * V)) :
  group_value init
    (fold_left (fun g r => upsert init step (key r) r g) df groups) k
  = fold_left step (partition key k df) (group_value init groups k).
Proof.
  revert groups. induction df as [|r rest IH]; intros groups; simpl.
  - reflexivity.
  - rewrite IH, group_value_upsert.
    destruct (eqb_of (key r) k); reflexivity.
Qed.

(** The value a row receives is the aggregate folded over its group. *)
Lemma over_partition (df : list R) (r : R) :
  over key init step df r = fold_left step (partition key (key r) df) init.
Proof.
  unfold over, group_by_agg. now rewrite group_value_fold.
Qed.

End OverFacts.

Lemma partition_map {K A B : Type} `{EqDec K} (kb : B -> K) (g : A -> B)
  (k : K) (l : list A) :
  partition kb k (map g l) = map g (partition (fun a => kb (g a)) k l).
Proof.
  unfold partition. induction l as [|a l IH]; simpl.
  - reflexivity.
  - destruct (eqb_of (kb (g a)) k); simpl; now rewrite IH.
Qed.

Lemma partition_In {K R : Type} `{EqDec K} (key : R -> K) (k : K)
  (df : list R) (r : R) :
  In r (partition key k df) <-> In r df /\ key r = k.
Proof.
  unfold partition. rewrite filter_In. now rewrite eqb_of_true.
Qed.

Lemma fold_count {R : Type} (l : list R) (n : Z) :
  fold_left (fun acc (_ : R) => acc + 1) l n = n + Z.of_nat (List.length l).
Proof.
  revert n. induction l as [|x l IH]; intros n.
  - simpl. lia.
  - cbn [fold_left List.length]. rewrite IH. lia.
Qed.

Section WindowFacts.
Context {F : Type} `{Arith F}.

Lemma count_over_partition (by_ : Derived F -> option string)
  (df : list (Derived F)) (d : Derived F) :
  count_over by_ df d = Z.of_nat (List.length (partition by_ (by_ d) df)).
Proof.
  unfold count_over. rewrite over_partition. now rewrite fold_count.
Qed.

Lemma sum_over_partition (by_ : Derived F -> option string)
  (df : list (Derived F)) (d : Derived F) :
  sum_gross_sales_over by_ df d
  = fsum (map d_gross_sales (partition by_ (by_ d) df)).
Proof.
  unfold sum_gross_sales_over, fsum. rewrite over_partition.
  generalize (of_int 0). induction (partition by_ (by_ d) df) as [|x l IH].
  - reflexivity.
  - intros acc. simpl. apply IH.
Qed.

(** C9: [state_order_count] is the size of the group of the row in the fact
    set, and [state_density_class] reads it against 100 and 10. *)
Theorem state_count_and_density (df : list (Derived F)) (r : Fact F) :
  In r (with_window_metrics df) ->
  let n := rows_sharing_state (with_window_metrics df) r in
  state_order_count (win r) = n
  /\ (100 < n -> state_density_class (win r) = "Strategic Hub")
  /\ (n < 10 -> state_density_class (win r) = "Expansion Zone")
  /\ (10 <= n <= 100 -> state_density_class (win r) = "Standard Zone").
Proof.
  intros Hr. apply with_window_metrics_In in Hr. destruct Hr as [_ Hw].
  cbv zeta.
  assert (E : state_order_count (win r)
              = rows_sharing_state (with_window_metrics df) r).
  { rewrite Hw. unfold window_metrics. cbn [state_order_count].
    rewrite count_over_partition.
    unfold rows_sharing_state, with_window_metrics.
    rewrite (partition_map f_order_state). rewrite length_map.
    reflexivity. }
  split; [exact E|].
  rewrite <- E. rewrite Hw.
  unfold window_metrics. cbn [state_density_class state_order_count].
  unfold state_density_class_of, when_then.
  set (n := count_over d_order_state df (derived r)).
  repeat split; intros Hn.
  - apply Z.ltb_lt in Hn. now rewrite Hn.
  - destruct (100 <? n) eqn:E1; [apply Z.ltb_lt in E1; lia|].
    apply Z.ltb_lt in Hn. now rewrite Hn.
  - destruct (100 <? n) eqn:E1; [apply Z.ltb_lt in E1; lia|].
    destruct (n <? 10) eqn:E2; [apply Z.ltb_lt in E2; lia|].
    reflexivity.
Qed.

End WindowFacts.

Lemma state_count_and_density_witness :
  exists r,
    In r (fact_set [Fixture.standard_line; Fixture.second_line])
    /\ state_order_count (win r) = 2
    /\ state_density_class (win r) = "Expansion Zone".
Proof.
  pose (df := map derive
                (cleanup [Fixture.standard_line; Fixture.second_line])).
  assert (E : exists r, In r (with_window_metrics df)).
  { eexists. vm_compute. left. reflexivity. }
  destruct E as [r Hr]. exists r.
  destruct (state_count_and_density df r Hr) as [Hn [_ [Hlow _]]].
  split; [exact Hr|].
  assert (N : rows_sharing_state (with_window_metrics df) r = 2).
  { vm_compute in Hr. destruct Hr as [<-|[<-|[]]]; vm_compute; reflexivity. }
  split.
  - rewrite Hn. exact N.
  - apply Hlow. rewrite N. reflexivity.
Defined.

(** ** Shares of a group (step 5)

    The sum of the shares of a group is a binary64 number.  The sections
    below bound the error of the roundings that lead to it: the value of
    a rounded number, of a sum and of a quotient of numbers that are
    zero or positive, then of the running sums. *)

(** *** Powers of two *)

Lemma pow2_pos e : (0 < pow2 e)%Q.
Proof. unfold pow2. apply Qpower_0_lt. reflexivity. Qed.

Lemma pow2_add a b : (pow2 (a + b) == pow2 a * pow2 b)%Q.
Proof. unfold pow2. apply Qpower_plus. intros E. discriminate E. Qed.

Lemma pow2_Z n : 0 <= n -> (pow2 n == inject_Z (2 ^ n))%Q.
Proof. intros Hn. unfold pow2. now rewrite Zpower_Qpower. Qed.

Lemma pow2_le a b : a <= b -> (pow2 a <= pow2 b)%Q.
Proof. intros H. unfold pow2. apply Qpower_le_compat_l; [exact H|]. discriminate. Qed.

Lemma pow2_0 : (pow2 0 == 1)%Q.
Proof. reflexivity. Qed.

Lemma pow2_opp1 : (pow2 (-1) == 1 # 2)%Q.
Proof. reflexivity. Qed.

Lemma pow2_1 : (pow2 1 == 2)%Q.
Proof. reflexivity. Qed.

(** *** Shifts keep the location

    [shr_1] halves the mantissa and the located value with it. *)

Lemma loc_inv_ext m l y y' : (y == y')%Q -> loc_inv m l y -> loc_inv m l y'.
Proof.
  intros E. destruct l as [|[]]; simpl; rewrite E; tauto.
Qed.

Lemma loc_inv_bounds m l y :
  loc_inv m l y -> (inject_Z m <= y /\ y < inject_Z m + 1)%Q.
Proof.
  destruct l as [|[]]; simpl; intros K; lra.
Qed.

Lemma rec_inv_of_loc m l y :
  rec_inv (shr_record_of_loc m l) y <-> loc_inv m l y.
Proof. destruct l as [|[]]; reflexivity. Qed.

Lemma inject_Z_xO p : (inject_Z (Zpos p~0) == 2 * inject_Z (Zpos p))%Q.
Proof. rewrite Pos2Z.inj_xO, inject_Z_mult. reflexivity. Qed.

Lemma inject_Z_xI p : (inject_Z (Zpos p~1) == 2 * inject_Z (Zpos p) + 1)%Q.
Proof. rewrite Pos2Z.inj_xI, inject_Z_plus, inject_Z_mult. reflexivity. Qed.

Lemma shr_1_inv mrs y :
  0 <= shr_m mrs -> rec_inv mrs y ->
  rec_inv (shr_1 mrs) (y * (1 # 2)) /\ 0 <= shr_m (shr_1 mrs).
Proof.
  destruct mrs as [m r s]. unfold rec_inv. simpl. intros Hm.
  destruct m as [|p|p]; [| |lia].
  - destruct r, s; simpl; intros K; split; try lia;
      change (inject_Z 0) with 0%Q in *; lra.
  - destruct p as [p|p|]; destruct r, s; simpl; intros K; split; try lia;
      rewrite ?inject_Z_xO, ?inject_Z_xI in K;
      change (inject_Z 0) with 0%Q in *; change (inject_Z 1) with 1%Q in *;
      lra.
Qed.

Lemma rec_inv_ext mrs y y' : (y == y')%Q -> rec_inv mrs y -> rec_inv mrs y'.
Proof. apply loc_inv_ext. Qed.

(** [p] shifts divide the located value by [2^p]. *)
Lemma iter_shr_inv p :
  forall mrs y,
    0 <= shr_m mrs -> rec_inv mrs y ->
    rec_inv (iter_pos shr_1 p mrs) (y * pow2 (- Zpos p))
    /\ 0 <= shr_m (iter_pos shr_1 p mrs).
Proof.
  induction p as [p IH|p IH|]; intros mrs y Hm Hy; cbn [iter_pos].
  - destruct (shr_1_inv mrs y Hm Hy) as [H1 M1].
    destruct (IH _ _ M1 H1) as [H2 M2].
    destruct (IH _ _ M2 H2) as [H3 M3].
    split; [|exact M3].
    refine (rec_inv_ext _ _ _ _ H3).
    replace (- Zpos p~1) with (-1 + (- Zpos p + - Zpos p)) by lia.
    rewrite !pow2_add. setoid_rewrite pow2_opp1. ring.
  - destruct (IH _ _ Hm Hy) as [H2 M2].
    destruct (IH _ _ M2 H2) as [H3 M3].
    split; [|exact M3].
    refine (rec_inv_ext _ _ _ _ H3).
    replace (- Zpos p~0) with (- Zpos p + - Zpos p) by lia.
    rewrite !pow2_add. ring.
  - destruct (shr_1_inv mrs y Hm Hy) as [H1 M1].
    split; [|exact M1].
    refine (rec_inv_ext _ _ _ _ H1). setoid_rewrite pow2_opp1. reflexivity.
Qed.

(** The first shift of [binary_round_aux]. *)
Lemma shr_inv mrs e n y :
  0 <= shr_m mrs -> rec_inv mrs y -> 0 <= n ->
  rec_inv (fst (shr mrs e n)) (y * pow2 (- n))
  /\ 0 <= shr_m (fst (shr mrs e n))
  /\ snd (shr mrs e n) = e + n.
Proof.
  intros Hm Hy Hn. destruct n as [|p|p]; [| |lia]; cbn [shr fst snd].
  - split; [|split; [exact Hm | lia]].
    refine (rec_inv_ext _ _ _ _ Hy). rewrite pow2_0. ring.
  - destruct (iter_shr_inv p mrs y Hm Hy) as [H1 M1]. now repeat split.
Qed.

Lemma shr_noop mrs e n : n <= 0 -> shr mrs e n = (mrs, e).
Proof. destruct n; try reflexivity. lia. Qed.

(** *** Digits and exponents

    [Zdigits2 m] is the number of binary digits of [m]. *)
Lemma digits2_pos_bounds p :
  2 ^ (Zpos (digits2_pos p) - 1) <= Zpos p < 2 ^ Zpos (digits2_pos p).
Proof.
  induction p as [p IH|p IH|]; cbn [digits2_pos].
  - rewrite Pos2Z.inj_succ. replace (Z.succ (Zpos (digits2_pos p)) - 1)
      with (Z.succ (Zpos (digits2_pos p) - 1)) by lia.
    rewrite !Z.pow_succ_r by lia. lia.
  - rewrite Pos2Z.inj_succ. replace (Z.succ (Zpos (digits2_pos p)) - 1)
      with (Z.succ (Zpos (digits2_pos p) - 1)) by lia.
    rewrite !Z.pow_succ_r by lia. lia.
  - simpl. lia.
Qed.

Lemma Zdigits2_bounds m :
  0 < m -> 2 ^ (Zdigits2 m - 1) <= m < 2 ^ Zdigits2 m.
Proof.
  destruct m as [|p|p]; try lia. intros _. apply digits2_pos_bounds.
Qed.

Lemma Zdigits2_pos m : 0 < m -> 0 < Zdigits2 m.
Proof. destruct m; simpl; lia. Qed.

Lemma Zdigits2_unique m k :
  0 < m -> 2 ^ (k - 1) <= m < 2 ^ k -> Zdigits2 m = k.
Proof.
  intros Hm [L U]. pose proof (Zdigits2_bounds m Hm) as [L' U'].
  pose proof (Zdigits2_pos m Hm) as D.
  assert (K : 0 < k).
  { destruct (Z_lt_le_dec 0 k) as [|N]; [assumption|].
    destruct (Z.eq_dec k 0) as [->|]; [simpl in U; lia|].
    rewrite (Z.pow_neg_r 2 k) in U by lia. lia. }
  destruct (Z.lt_trichotomy (Zdigits2 m) k) as [C|[C|C]]; [|exact C|].
  - assert (2 ^ Zdigits2 m <= 2 ^ (k - 1)) by (apply Z.pow_le_mono_r; lia). lia.
  - assert (2 ^ k <= 2 ^ (Zdigits2 m - 1)) by (apply Z.pow_le_mono_r; lia). lia.
Qed.

Lemma emin_val : emin = -1074.
Proof. reflexivity. Qed.

(** [fexp] takes [prec] from the magnitude and stops at [emin]. *)
Lemma fexp_cases e :
  (fexp e = e - B64.prec /\ emin <= e - B64.prec) \/ (fexp e = emin /\ e - B64.prec <= emin).
Proof.
  unfold fexp, SpecFloat.fexp. fold emin. lia.
Qed.

Lemma fexp_ge_emin e : emin <= fexp e.
Proof. destruct (fexp_cases e); lia. Qed.

(** *** Rounding to nearest, ties to even

    The rounded mantissa is within one half of the located value. *)

Lemma rne_inv m l y :
  loc_inv m l y ->
  m <= round_nearest_even m l <= m + 1
  /\ (inject_Z (round_nearest_even m l) - (1 # 2) <= y
      <= inject_Z (round_nearest_even m l) + (1 # 2))%Q
  /\ (l = loc_Exact -> round_nearest_even m l = m).
Proof.
  destruct l as [|[]]; simpl; intros K.
  - split; [lia|]. split; [lra | reflexivity].
  - destruct (Z.even m).
    + split; [lia|]. split; [lra | discriminate].
    + split; [lia|]. split; [|discriminate].
      rewrite inject_Z_plus. change (inject_Z 1) with 1%Q. lra.
  - split; [lia|]. split; [lra | discriminate].
  - split; [lia|]. split; [|discriminate].
    rewrite inject_Z_plus. change (inject_Z 1) with 1%Q. lra.
Qed.

Lemma inject_Z_pow2 k : 0 <= k -> (inject_Z (2 ^ k) == pow2 k)%Q.
Proof. intros Hk. symmetry. now apply pow2_Z. Qed.

Lemma Z_lt_pow2 (m k : Z) : 0 <= k -> (inject_Z m < pow2 k)%Q -> m < 2 ^ k.
Proof.
  intros Hk H. rewrite <- (inject_Z_pow2 k Hk) in H. now rewrite Zlt_Qlt.
Qed.

Lemma Z_le_pow2 (m k : Z) : 0 <= k -> (pow2 k <= inject_Z m)%Q -> 2 ^ k <= m.
Proof.
  intros Hk H. rewrite <- (inject_Z_pow2 k Hk) in H. now rewrite Zle_Qle.
Qed.

Lemma pow2_lt_1 k : k < 0 -> (pow2 k < 1)%Q.
Proof.
  intros Hk. assert (E : (pow2 k * pow2 (- k) == 1)%Q).
  { rewrite <- pow2_add. replace (k + - k) with 0 by lia. reflexivity. }
  assert (L : (2 <= pow2 (- k))%Q).
  { rewrite <- pow2_1. apply pow2_le. lia. }
  pose proof (pow2_pos k). nra.
Qed.

Lemma pow2_le_1 k : k <= 0 -> (pow2 k <= 1)%Q.
Proof. intros Hk. rewrite <- pow2_0. now apply pow2_le. Qed.

(** The digits of a mantissa after [n] shifts. *)
Lemma shifted_range mx y n m1 :
  0 <= mx -> (inject_Z mx <= y /\ y < inject_Z mx + 1)%Q -> 0 <= n ->
  0 <= m1 ->
  (inject_Z m1 <= y * pow2 (- n) /\ y * pow2 (- n) < inject_Z m1 + 1)%Q ->
  (Zdigits2 mx - n <= 0 -> m1 = 0)
  /\ (1 <= Zdigits2 mx - n -> 2 ^ (Zdigits2 mx - n - 1) <= m1 < 2 ^ (Zdigits2 mx - n)).
Proof.
  intros Hmx [Ly Uy] Hn Hm1 [L1 U1].
  set (d := Zdigits2 mx) in *.
  assert (Hd : 0 <= d) by (unfold d; destruct mx; simpl; lia).
  pose proof (pow2_pos (- n)) as Pn.
  assert (Up : (y * pow2 (- n) < pow2 (d - n))%Q).
  { assert (K : (y < pow2 d)%Q).
    { assert (Z1 : mx + 1 <= 2 ^ d).
      { destruct (Z.eq_dec mx 0) as [->|N]; [reflexivity|].
        pose proof (Zdigits2_bounds mx ltac:(lia)). unfold d. lia. }
      rewrite Zle_Qle, inject_Z_plus, (inject_Z_pow2 d Hd) in Z1.
      change (inject_Z 1) with 1%Q in Z1. lra. }
    replace (d - n) with (d + - n) by lia. rewrite pow2_add. nra. }
  split.
  - intros Hk. pose proof (pow2_le_1 (d - n) Hk) as P1.
    assert (K : (inject_Z m1 < inject_Z 1)%Q)
      by (change (inject_Z 1) with 1%Q; lra).
    rewrite <- Zlt_Qlt in K. lia.
  - intros Hk. split.
    + assert (Hpos : 0 < mx).
      { destruct (Z.eq_dec mx 0) as [E|N]; [|lia].
        unfold d in Hk. rewrite E in Hk. simpl in Hk. lia. }
      pose proof (Zdigits2_bounds mx Hpos) as [Lb _]. fold d in Lb.
      rewrite Zle_Qle, (inject_Z_pow2 (d - 1)) in Lb by lia.
      assert (K : (pow2 (d - n - 1) <= y * pow2 (- n))%Q).
      { replace (d - n - 1) with ((d - 1) + - n) by lia. rewrite pow2_add.
        nra. }
      assert (K2 : (pow2 (d - n - 1) < inject_Z (m1 + 1))%Q).
      { rewrite inject_Z_plus. change (inject_Z 1) with 1%Q. lra. }
      rewrite <- (inject_Z_pow2 (d - n - 1)) in K2 by lia.
      rewrite <- Zlt_Qlt in K2. lia.
    + apply Z_lt_pow2; [lia | lra].
Qed.

Lemma shr_m_of_loc m l : shr_m (shr_record_of_loc m l) = m.
Proof. destruct l as [|[]]; reflexivity. Qed.

Lemma loc_of_loc m l : loc_of_shr_record (shr_record_of_loc m l) = l.
Proof. destruct l as [|[]]; reflexivity. Qed.

(** The second shift of [binary_round_aux] acts only when the rounding
    carried into a 54th digit. *)
Lemma second_shift N E :
  0 < N ->
  fexp (Zdigits2 N + E) <= E
  \/ (N = 2 ^ B64.prec /\ fexp (Zdigits2 N + E) = E + 1) ->
  exists m,
    shr_m (fst (shr_fexp B64.prec B64.emax N E loc_Exact)) = Zpos m
    /\ ((snd (shr_fexp B64.prec B64.emax N E loc_Exact) = E /\ Zpos m = N)
        \/ (snd (shr_fexp B64.prec B64.emax N E loc_Exact) = E + 1
            /\ N = 2 ^ B64.prec /\ Zpos m = 2 ^ (B64.prec - 1))).
Proof.
  intros HN C. unfold shr_fexp.
  change (SpecFloat.fexp B64.prec B64.emax (Zdigits2 N + E))
    with (fexp (Zdigits2 N + E)).
  destruct C as [C|[EN C]].
  - rewrite shr_noop by lia. cbn [fst snd shr_record_of_loc shr_m].
    destruct N as [|p|p]; try lia. exists p. split; [reflexivity|]. now left.
  - rewrite C. replace (E + 1 - E) with 1 by lia. subst N.
    cbn [shr fst snd]. eexists. split; [reflexivity|]. right.
    repeat split.
Qed.

Lemma inject_Z_ge_pow2 N a E :
  0 <= a -> 2 ^ a <= N -> (pow2 (a + E) <= inject_Z N * pow2 E)%Q.
Proof.
  intros Ha H. rewrite Zle_Qle, (inject_Z_pow2 a Ha) in H.
  rewrite pow2_add. pose proof (pow2_pos E). nra.
Qed.

(** The rounding of [binary_round_aux]: the value [y * 2^ex], located by
    [mx] and [lx], is rounded to an integer multiple [N] of [2^E]. *)
Lemma binary_round_aux_correct s mx ex lx y :
  0 <= mx -> loc_inv mx lx y ->
  ex <= fexp (Zdigits2 mx + ex) ->
  exists N : Z,
    0 <= N
    /\ (inject_Z N - (1 # 2) <= y * pow2 (ex - fexp (Zdigits2 mx + ex))
        /\ y * pow2 (ex - fexp (Zdigits2 mx + ex)) <= inject_Z N + (1 # 2))%Q
    /\ (lx = loc_Exact -> ex = fexp (Zdigits2 mx + ex) -> N = mx)
    /\ ((N = 0 /\ binary_round_aux B64.prec B64.emax s mx ex lx = S754_zero s)
        \/ (0 < N
            /\ exists m e,
                 binary_round_aux B64.prec B64.emax s mx ex lx = S754_finite s m e
                 /\ emin <= e /\ e <= B64.emax - B64.prec
                 /\ e <= fexp (Zdigits2 mx + ex) + 1
                 /\ (inject_Z (Zpos m) * pow2 e
                     == inject_Z N * pow2 (fexp (Zdigits2 mx + ex)))%Q)
        \/ (0 < N
            /\ binary_round_aux B64.prec B64.emax s mx ex lx = S754_infinity s
            /\ B64.emax - B64.prec < fexp (Zdigits2 mx + ex) + 1
            /\ (pow2 B64.emax
                <= inject_Z N * pow2 (fexp (Zdigits2 mx + ex)))%Q)).
Proof.
  intros Hmx Hy HE.
  set (E := fexp (Zdigits2 mx + ex)) in *.
  set (n := E - ex).
  assert (Hn : 0 <= n) by (unfold n; lia).
  pose proof (fexp_ge_emin (Zdigits2 mx + ex)) as HEmin. fold E in HEmin.
  assert (Hmx' : 0 <= shr_m (shr_record_of_loc mx lx))
    by now rewrite shr_m_of_loc.
  destruct (shr_inv (shr_record_of_loc mx lx) ex n y Hmx'
              (proj2 (rec_inv_of_loc mx lx y) Hy) Hn) as [H1 [M1 E1]].
  replace (ex + n) with E in E1 by (unfold n; lia).
  set (sh := shr (shr_record_of_loc mx lx) ex n) in *.
  set (m1 := shr_m (fst sh)) in *.
  set (l1 := loc_of_shr_record (fst sh)) in *.
  unfold rec_inv in H1. fold m1 l1 in H1.
  assert (BR : binary_round_aux B64.prec B64.emax s mx ex lx
               = match
                   shr_m (fst (shr_fexp B64.prec B64.emax
                                 (round_nearest_even m1 l1) E loc_Exact))
                 with
                 | 0 => S754_zero s
                 | Zpos m =>
                     if snd (shr_fexp B64.prec B64.emax
                               (round_nearest_even m1 l1) E loc_Exact)
                        <=? B64.emax - B64.prec
                     then S754_finite s m
                            (snd (shr_fexp B64.prec B64.emax
                                    (round_nearest_even m1 l1) E loc_Exact))
                     else S754_infinity s
                 | Zneg _ => S754_nan
                 end).
  { unfold binary_round_aux, shr_fexp at 1.
    change (SpecFloat.fexp B64.prec B64.emax (Zdigits2 mx + ex)) with E. fold n.
    fold sh. unfold m1, l1. destruct sh as [a b]. cbn [fst snd] in *.
    subst b. now destruct (shr_fexp B64.prec B64.emax _ E loc_Exact). }
  rewrite BR. clear BR.
  destruct (rne_inv m1 l1 _ H1) as [R1 [R2 R3]].
  set (N := round_nearest_even m1 l1) in *.
  pose proof (loc_inv_bounds _ _ _ Hy) as By.
  pose proof (loc_inv_bounds _ _ _ H1) as B1.
  destruct (shifted_range mx y n m1 Hmx By Hn M1 B1) as [K0 K1].
  set (k := Zdigits2 mx - n) in *.
  assert (Hk : k <= B64.prec).
  { unfold k, n. destruct (fexp_cases (Zdigits2 mx + ex)) as [[F _]|[F G]];
      fold E in F; lia. }
  assert (Normal : emin < E -> k = B64.prec).
  { intros G. unfold k, n. destruct (fexp_cases (Zdigits2 mx + ex)) as [[F _]|[F _]];
      fold E in F; lia. }
  exists N. split; [lia|]. split.
  { replace (ex - E) with (- n) by (unfold n; lia). tauto. }
  split.
  { intros -> Eex. assert (Z0 : n = 0) by (unfold n; lia).
    unfold N, m1, l1, sh. rewrite Z0. reflexivity. }
  destruct (Z.eq_dec N 0) as [N0|N0].
  - left. split; [exact N0|]. rewrite N0. unfold shr_fexp.
    rewrite shr_noop.
    + reflexivity.
    + change (SpecFloat.fexp B64.prec B64.emax (Zdigits2 0 + E)) with (fexp (0 + E)).
      destruct (fexp_cases (0 + E)) as [[F _]|[F _]]; rewrite F;
        unfold B64.prec; lia.
  - assert (HN : 0 < N) by lia.
    assert (Cases : (fexp (Zdigits2 N + E) <= E
                     \/ (N = 2 ^ B64.prec /\ fexp (Zdigits2 N + E) = E + 1))
                    /\ (emin < E -> 2 ^ (B64.prec - 1) <= N)).
    { destruct (Z_le_gt_dec k 0) as [Kle|Kgt].
      - assert (N = 1) by (specialize (K0 Kle); lia). split.
        + left. replace N with 1 by lia. simpl Zdigits2.
          destruct (fexp_cases (1 + E)) as [[F _]|[F _]]; rewrite F;
            unfold B64.prec; lia.
        + intros G. specialize (Normal G). unfold B64.prec in *. lia.
      - destruct (K1 ltac:(lia)) as [Lm Um]. split.
        + destruct (Z.eq_dec N (2 ^ k)) as [EN|NN].
          * assert (DN : Zdigits2 N = k + 1).
            { apply Zdigits2_unique; [exact HN|].
              replace (k + 1 - 1) with k by lia. split; [lia|].
              rewrite EN, (Z.pow_add_r 2 k 1) by lia. lia. }
            rewrite DN.
            destruct (Z.eq_dec k B64.prec) as [Kp|Kp].
            -- right. split; [now rewrite EN, Kp|].
               destruct (fexp_cases (k + 1 + E)) as [[F _]|[F G]]; rewrite F.
               ++ lia.
               ++ exfalso. unfold k, n in Kp.
                  destruct (fexp_cases (Zdigits2 mx + ex)) as [[F2 G2]|[F2 G2]];
                    fold E in F2; unfold B64.prec in *; lia.
            -- left.
               destruct (fexp_cases (k + 1 + E)) as [[F _]|[F _]]; rewrite F; lia.
          * left. assert (DN : Zdigits2 N = k).
            { apply Zdigits2_unique; [exact HN|]. lia. }
            rewrite DN. unfold k, n, E.
            replace (Zdigits2 mx - (fexp (Zdigits2 mx + ex) - ex)
                     + fexp (Zdigits2 mx + ex))
              with (Zdigits2 mx + ex) by lia. lia.
        + intros G. rewrite <- (Normal G). lia. }
    destruct Cases as [C Big].
    destruct (second_shift N E HN C) as [m [Em Cm]].
    destruct (shr_fexp B64.prec B64.emax N E loc_Exact) as [mrs'' e''] eqn:Sh2.
    cbn [fst snd] in *. rewrite Em.
    assert (Val : (inject_Z (Zpos m) * pow2 e'' == inject_Z N * pow2 E)%Q).
    { destruct Cm as [[-> ->]|[-> [EN Pm]]]; [reflexivity|].
      rewrite Pm, EN, pow2_add, pow2_1.
      rewrite !inject_Z_pow2 by (unfold B64.prec; lia).
      replace B64.prec with ((B64.prec - 1) + 1) at 2 by lia.
      rewrite pow2_add, pow2_1. ring. }
    assert (Ee : E <= e'' <= E + 1) by (destruct Cm as [[-> _]|[-> _]]; lia).
    destruct (Z.leb_spec e'' (B64.emax - B64.prec)) as [Fin|Ovf].
    + right. left. split; [exact HN|]. exists m, e''.
      split; [reflexivity|]. split; [lia|]. split; [lia|]. split; [lia|].
      exact Val.
    + right. right. split; [exact HN|]. split; [reflexivity|].
      split; [lia|].
      destruct Cm as [[-> Pm]|[-> [EN Pm]]].
      * assert (G : emin < E) by (unfold emin, SpecFloat.emin, B64.emax, B64.prec in *; lia).
        specialize (Big G).
        pose proof (inject_Z_ge_pow2 N (B64.prec - 1) E ltac:(unfold B64.prec; lia) Big).
        assert (pow2 B64.emax <= pow2 (B64.prec - 1 + E))%Q by (apply pow2_le; lia).
        lra.
      * assert (Big2 : 2 ^ B64.prec <= N) by lia.
        pose proof (inject_Z_ge_pow2 N B64.prec E ltac:(unfold B64.prec; lia) Big2).
        assert (pow2 B64.emax <= pow2 (B64.prec + E))%Q by (apply pow2_le; lia).
        lra.
Qed.

(** The rounding of a non-negative value: absolute error at most half a
    unit of the exponent the result is rounded at. *)
Lemma round_value s mx ex lx y :
  0 <= mx -> loc_inv mx lx y ->
  ex <= fexp (Zdigits2 mx + ex) ->
  exists V : Q,
    (0 <= V)%Q
    /\ (V - pow2 (fexp (Zdigits2 mx + ex) - 1) <= y * pow2 ex
        /\ y * pow2 ex <= V + pow2 (fexp (Zdigits2 mx + ex) - 1))%Q
    /\ (lx = loc_Exact -> ex = fexp (Zdigits2 mx + ex) -> V == y * pow2 ex)%Q
    /\ ((binary_round_aux B64.prec B64.emax s mx ex lx = S754_zero s /\ V == 0)%Q
        \/ (exists m e,
              binary_round_aux B64.prec B64.emax s mx ex lx = S754_finite s m e
              /\ emin <= e /\ e <= B64.emax - B64.prec
              /\ (inject_Z (Zpos m) * pow2 e == V)%Q /\ (0 < V)%Q)
        \/ (binary_round_aux B64.prec B64.emax s mx ex lx = S754_infinity s
            /\ (pow2 B64.emax <= V)%Q)).
Proof.
  intros Hmx Hy HE.
  destruct (binary_round_aux_correct s mx ex lx y Hmx Hy HE)
    as [N [HN [[B1 B2] [Ex Cl]]]].
  set (E := fexp (Zdigits2 mx + ex)) in *.
  exists (inject_Z N * pow2 E)%Q.
  pose proof (pow2_pos E) as PE.
  assert (NQ : (0 <= inject_Z N)%Q).
  { change 0%Q with (inject_Z 0). now rewrite <- Zle_Qle. }
  assert (S1 : (pow2 ex == pow2 (ex - E) * pow2 E)%Q).
  { rewrite <- pow2_add. replace (ex - E + E) with ex by lia. reflexivity. }
  assert (S2 : (pow2 (E - 1) == (1 # 2) * pow2 E)%Q).
  { replace (E - 1) with (-1 + E) by lia. rewrite pow2_add.
    setoid_rewrite pow2_opp1. reflexivity. }
  split; [nra|]. split.
  { rewrite S1, S2. split; nra. }
  split.
  { intros L Eex. rewrite (Ex L Eex).
    pose proof (loc_inv_bounds _ _ _ Hy).
    rewrite L in Hy. simpl in Hy. rewrite Hy.
    replace E with ex by exact Eex. reflexivity. }
  destruct Cl as [[N0 R]|[[Np [m [e [R [E1 [E2 [_ V]]]]]]]|[Np [R [_ V]]]]].
  - left. split; [exact R|]. rewrite N0. reflexivity.
  - right. left. exists m, e. repeat split; try assumption.
    assert (K : (inject_Z 1 <= inject_Z N)%Q) by (rewrite <- Zle_Qle; lia).
    change (inject_Z 1) with 1%Q in K. nra.
  - right. right. now split.
Qed.

(** In the normal range the absolute error is a relative one. *)
Lemma normal_error mx ex y :
  0 < mx -> (inject_Z mx <= y)%Q ->
  fexp (Zdigits2 mx + ex) = Zdigits2 mx + ex - B64.prec ->
  (pow2 (fexp (Zdigits2 mx + ex) - 1) <= ulp_half * (y * pow2 ex))%Q.
Proof.
  intros Hmx Hy F. rewrite F. unfold ulp_half.
  pose proof (Zdigits2_bounds mx Hmx) as [Lb _].
  pose proof (Zdigits2_pos mx Hmx) as Dp.
  rewrite Zle_Qle, (inject_Z_pow2 (Zdigits2 mx - 1)) in Lb by lia.
  replace (Zdigits2 mx + ex - B64.prec - 1)
    with (- B64.prec + ((Zdigits2 mx - 1) + ex)) by lia.
  rewrite (pow2_add (- B64.prec)), (pow2_add (Zdigits2 mx - 1)).
  pose proof (pow2_pos (- B64.prec)). pose proof (pow2_pos ex).
  pose proof (pow2_pos (Zdigits2 mx - 1)).
  apply Qmult_le_l; [assumption|].
  apply Qmult_le_r; [assumption|]. lra.
Qed.

(** *** Alignment and the rounding of an exact value *)

Lemma iter_xO_value m d : Zpos (Pos.iter xO m d) = Zpos m * 2 ^ Zpos d.
Proof.
  induction d as [|d IH] using Pos.peano_ind.
  - simpl. lia.
  - rewrite Pos.iter_succ, Pos2Z.inj_xO, IH, Pos2Z.inj_succ.
    rewrite Z.pow_succ_r by lia. lia.
Qed.

Lemma iter_xO_digits m d :
  Zpos (digits2_pos (Pos.iter xO m d)) = Zpos (digits2_pos m) + Zpos d.
Proof.
  induction d as [|d IH] using Pos.peano_ind.
  - simpl. lia.
  - rewrite Pos.iter_succ. cbn [digits2_pos].
    rewrite Pos2Z.inj_succ, IH, Pos2Z.inj_succ. lia.
Qed.

Lemma shl_align_spec mx ex e' :
  (e' < ex ->
   snd (shl_align mx ex e') = e'
   /\ Zpos (fst (shl_align mx ex e')) = Zpos mx * 2 ^ (ex - e')
   /\ Zpos (digits2_pos (fst (shl_align mx ex e'))) + e'
      = Zpos (digits2_pos mx) + ex)
  /\ (ex <= e' -> shl_align mx ex e' = (mx, ex)).
Proof.
  unfold shl_align. split.
  - intros H. destruct (e' - ex) as [|d|d] eqn:D; try lia.
    cbn [fst snd]. rewrite iter_xO_value, iter_xO_digits.
    replace (ex - e') with (Zpos d) by lia. repeat split; lia.
  - intros H. destruct (e' - ex) as [|d|d] eqn:D; try lia; reflexivity.
Qed.

Lemma shl_align_value mx ex e' :
  (inject_Z (Zpos (fst (shl_align mx ex e'))) * pow2 (snd (shl_align mx ex e'))
   == inject_Z (Zpos mx) * pow2 ex)%Q.
Proof.
  destruct (shl_align_spec mx ex e') as [A B].
  destruct (Z_lt_le_dec e' ex) as [L|L].
  - destruct (A L) as [E1 [E2 _]]. rewrite E1, E2, inject_Z_mult.
    rewrite (inject_Z_pow2 (ex - e')) by lia.
    replace ex with ((ex - e') + e') at 2 by lia. rewrite pow2_add. ring.
  - rewrite (B L). reflexivity.
Qed.

(** The rounding of an exact positive value [m * 2^e], as done by
    [binary_round]: the relative error is at most [u] as soon as the
    exponent is not below [emin]. *)
Lemma binary_round_pos m e :
  emin <= e ->
  let v := (inject_Z (Zpos m) * pow2 e)%Q in
  let r := binary_round B64.prec B64.emax false m e in
  (exists m' e',
     r = S754_finite false m' e' /\ emin <= e'
     /\ ((1 - ulp_half) * v <= B2Q r /\ B2Q r <= (1 + ulp_half) * v)%Q)
  \/ (r = S754_infinity false /\ (pow2 B64.emax <= (1 + ulp_half) * v)%Q).
Proof.
  intros He v r. unfold r, binary_round.
  change (SpecFloat.fexp B64.prec B64.emax (Zpos (digits2_pos m) + e))
    with (fexp (Zpos (digits2_pos m) + e)).
  set (F := fexp (Zpos (digits2_pos m) + e)).
  pose proof (shl_align_value m e F) as Val.
  destruct (shl_align_spec m e F) as [A B].
  destruct (shl_align m e F) as [mz ez] eqn:Sh. cbn [fst snd] in *.
  fold v in Val.
  assert (Vpos : (0 < v)%Q).
  { unfold v. pose proof (pow2_pos e).
    assert (K : (inject_Z 1 <= inject_Z (Zpos m))%Q) by (rewrite <- Zle_Qle; lia).
    change (inject_Z 1) with 1%Q in K. nra. }
  assert (Upos : (0 < ulp_half)%Q) by apply pow2_pos.
  assert (Dg : Zdigits2 (Zpos mz) + ez = Zpos (digits2_pos m) + e).
  { destruct (Z_lt_le_dec F e) as [L|L].
    - destruct (A L) as [-> [_ D]]. exact D.
    - specialize (B L). injection B as -> ->. reflexivity. }
  assert (HE : ez <= fexp (Zdigits2 (Zpos mz) + ez)).
  { rewrite Dg. fold F. destruct (Z_lt_le_dec F e) as [L|L].
    - destruct (A L) as [-> _]. lia.
    - specialize (B L). injection B as _ ->. exact L. }
  destruct (round_value false (Zpos mz) ez loc_Exact (inject_Z (Zpos mz))
              ltac:(lia) ltac:(simpl; reflexivity) HE)
    as [V [V0 [[B1 B2] [Ex Cl]]]].
  rewrite Val in B1, B2, Ex.
  assert (Err : (pow2 (fexp (Zdigits2 (Zpos mz) + ez) - 1) <= ulp_half * v
                 \/ V == v)%Q).
  { destruct (Z.eq_dec ez (fexp (Zdigits2 (Zpos mz) + ez))) as [Eq|Ne].
    - right. now apply Ex.
    - left. rewrite <- Val. apply normal_error; [lia | lra |].
      assert (G : emin < fexp (Zdigits2 (Zpos mz) + ez)).
      { assert (emin <= ez).
        { destruct (Z_lt_le_dec F e) as [L|L].
          - destruct (A L) as [-> _]. apply fexp_ge_emin.
          - specialize (B L). injection B as _ ->. exact He. }
        lia. }
      destruct (fexp_cases (Zdigits2 (Zpos mz) + ez)) as [[K _]|[K _]]; lia. }
  assert (Bounds : ((1 - ulp_half) * v <= V /\ V <= (1 + ulp_half) * v)%Q).
  { destruct Err as [K|K]; [|rewrite K; nra]. split; lra. }
  destruct Cl as [[R V00]|[[m' [e' [R [E1 [E2 [Vm Vp]]]]]]|[R Vo]]].
  - exfalso. rewrite V00 in Bounds.
    assert (ulp_half < 1)%Q by (apply pow2_lt_1; reflexivity). nra.
  - left. exists m', e'. rewrite R. cbn [B2Q cond_Zopp]. rewrite Vm.
    repeat split; try assumption; tauto.
  - right. split; [exact R|]. lra.
Qed.

(** A number of few digits is rounded at a low exponent, whatever its
    sign, and the rounding does not overflow. *)
Lemma binary_round_small s m e k :
  emin <= e -> k + 1 <= B64.emax - B64.prec ->
  fexp (Zpos (digits2_pos m) + e) <= k ->
  match binary_round B64.prec B64.emax s m e with
  | S754_zero _ => True
  | S754_finite _ _ e' => e' <= k + 1
  | _ => False
  end.
Proof.
  intros He Hk HF. unfold binary_round.
  change (SpecFloat.fexp B64.prec B64.emax (Zpos (digits2_pos m) + e))
    with (fexp (Zpos (digits2_pos m) + e)).
  set (F := fexp (Zpos (digits2_pos m) + e)) in *.
  destruct (shl_align_spec m e F) as [A B].
  destruct (shl_align m e F) as [mz ez] eqn:Sh. cbn [fst snd] in *.
  assert (Dg : Zdigits2 (Zpos mz) + ez = Zpos (digits2_pos m) + e).
  { destruct (Z_lt_le_dec F e) as [L|L].
    - destruct (A L) as [-> [_ D]]. exact D.
    - specialize (B L). injection B as -> ->. reflexivity. }
  assert (HE : ez <= fexp (Zdigits2 (Zpos mz) + ez)).
  { rewrite Dg. fold F. destruct (Z_lt_le_dec F e) as [L|L].
    - destruct (A L) as [-> _]. lia.
    - specialize (B L). injection B as _ ->. exact L. }
  destruct (binary_round_aux_correct s (Zpos mz) ez loc_Exact
              (inject_Z (Zpos mz)) ltac:(lia) ltac:(simpl; reflexivity) HE)
    as [N [_ [_ [_ Cl]]]].
  rewrite Dg in Cl. fold F in Cl.
  destruct Cl as [[_ ->]|[[_ [m' [e' [-> [_ [_ [E3 _]]]]]]]|[_ [-> [O _]]]]].
  - exact I.
  - lia.
  - lia.
Qed.

(** The digits of a mantissa from a bound on the value. *)
Lemma digits_of_small p e k :
  (inject_Z (Zpos p) * pow2 e <= pow2 k)%Q ->
  Zpos (digits2_pos p) + e <= k + 1.
Proof.
  intros H. pose proof (digits2_pos_bounds p) as [L _].
  set (d := Zpos (digits2_pos p)) in *.
  assert (Hd : 0 <= d - 1) by (unfold d; lia).
  pose proof (inject_Z_ge_pow2 (Zpos p) (d - 1) e Hd L) as K.
  destruct (Z_le_gt_dec (d + e) (k + 1)) as [Le|Gt]; [exact Le|].
  exfalso.
  assert (M : (pow2 (1 + k) <= pow2 (d - 1 + e))%Q) by (apply pow2_le; lia).
  rewrite pow2_add, pow2_1 in M. pose proof (pow2_pos k). lra.
Qed.

(** *** Sum and quotient of two numbers that are zero or positive *)

Lemma good_nonneg x : good x -> (0 <= B2Q x)%Q.
Proof.
  destruct x as [s|s| |[] m e]; simpl; try tauto; try lra.
  intros _. pose proof (pow2_pos e).
  assert (K : (inject_Z 1 <= inject_Z (Zpos m))%Q) by (rewrite <- Zle_Qle; lia).
  change (inject_Z 1) with 1%Q in K. nra.
Qed.

Lemma ulp_half_bounds : (0 < ulp_half /\ ulp_half < 1)%Q.
Proof.
  split; [apply pow2_pos | apply pow2_lt_1; reflexivity].
Qed.

Lemma shl_align_snd mx ex e' : e' <= ex -> snd (shl_align mx ex e') = e'.
Proof.
  intros H. destruct (shl_align_spec mx ex e') as [A B].
  destruct (Z_lt_le_dec e' ex) as [L|L].
  - now destruct (A L).
  - rewrite (B L). simpl. lia.
Qed.

(** The sum of two such numbers is one of them, within a relative error
    [u] of the sum of their values, unless it overflows. *)
Lemma add_good a b :
  good a -> good b ->
  let r := SFadd B64.prec B64.emax a b in
  let v := (B2Q a + B2Q b)%Q in
  (good r /\ ((1 - ulp_half) * v <= B2Q r /\ B2Q r <= (1 + ulp_half) * v)%Q)
  \/ (r = S754_infinity false /\ (pow2 B64.emax <= (1 + ulp_half) * v)%Q).
Proof.
  intros Ga Gb r v. pose proof ulp_half_bounds as [U0 U1].
  pose proof (good_nonneg a Ga) as Na. pose proof (good_nonneg b Gb) as Nb.
  destruct a as [sa|sa| |sa ma ea]; try contradiction;
    destruct b as [sb|sb| |sb mb eb]; try contradiction.
  - left. unfold r, v. destruct sa, sb; simpl; split; try exact I; lra.
  - left. unfold r, v. cbn [SFadd]. split; [exact Gb|].
    cbn [B2Q] in *. nra.
  - left. unfold r, v. cbn [SFadd]. split; [exact Ga|].
    cbn [B2Q] in *. nra.
  - destruct sa; [contradiction|]. destruct sb; [contradiction|].
    simpl in Ga, Gb. unfold r. cbn [SFadd cond_Zopp].
    set (ez := Z.min ea eb).
    pose proof (shl_align_value ma ea ez) as Va.
    pose proof (shl_align_value mb eb ez) as Vb.
    rewrite (shl_align_snd ma ea ez) in Va by (unfold ez; lia).
    rewrite (shl_align_snd mb eb ez) in Vb by (unfold ez; lia).
    set (ma' := fst (shl_align ma ea ez)) in *.
    set (mb' := fst (shl_align mb eb ez)) in *.
    change (Zpos ma' + Zpos mb') with (Zpos (ma' + mb')).
    cbn [binary_normalize].
    assert (Vs : (inject_Z (Zpos (ma' + mb')) * pow2 ez == v)%Q).
    { unfold v. cbn [B2Q cond_Zopp]. rewrite <- Va, <- Vb.
      rewrite Pos2Z.inj_add, inject_Z_plus. ring. }
    destruct (binary_round_pos (ma' + mb') ez ltac:(unfold ez; lia))
      as [[m' [e' [R [E1 B]]]]|[R B]].
    + left. rewrite R in *. split; [exact E1|].
      rewrite Vs in B. exact B.
    + right. rewrite Vs in B. now split.
Qed.

(** The location of a quotient [q + k / nb] from its remainder. *)
Lemma new_location_correct nb k q :
  0 < nb -> 0 <= k < nb ->
  loc_inv q (new_location nb k) (inject_Z q + inject_Z k / inject_Z nb).
Proof.
  intros Hnb [K0 K1].
  assert (NQ : (0 < inject_Z nb)%Q).
  { change 0%Q with (inject_Z 0). now rewrite <- Zlt_Qlt. }
  set (f := (inject_Z k / inject_Z nb)%Q).
  assert (Hf : (f * inject_Z nb == inject_Z k)%Q).
  { unfold f. field. lra. }
  assert (Cmp : forall c, (2 * k ?= nb) = c ->
            match c with
            | Lt => (2 * f < 1)%Q
            | Eq => (2 * f == 1)%Q
            | Gt => (1 < 2 * f)%Q
            end).
  { intros c Hc. destruct c.
    - apply Z.compare_eq in Hc.
      assert (E : (2 * inject_Z k == inject_Z nb)%Q).
      { rewrite <- Hc, inject_Z_mult. reflexivity. }
      nra.
    - rewrite Z.compare_lt_iff in Hc. rewrite Zlt_Qlt, inject_Z_mult in Hc.
      change (inject_Z 2) with 2%Q in Hc. nra.
    - rewrite Z.compare_gt_iff in Hc. rewrite Zlt_Qlt, inject_Z_mult in Hc.
      change (inject_Z 2) with 2%Q in Hc. nra. }
  assert (Fpos : k <> 0 -> (0 < f)%Q).
  { intros N. assert (K : (inject_Z 0 < inject_Z k)%Q) by (rewrite <- Zlt_Qlt; lia).
    change (inject_Z 0) with 0%Q in K. nra. }
  assert (Flt : (f < 1)%Q).
  { rewrite Zlt_Qlt in K1. nra. }
  unfold new_location. destruct (Z.even nb) eqn:Ev.
  - unfold new_location_even. destruct (Z.eqb_spec k 0) as [->|N].
    + simpl. unfold f. change (inject_Z 0) with 0%Q. field. lra.
    + specialize (Fpos N). pose proof (Cmp (2 * k ?= nb) eq_refl) as C.
      destruct (2 * k ?= nb); simpl; lra.
  - unfold new_location_odd. destruct (Z.eqb_spec k 0) as [->|N].
    + simpl. unfold f. change (inject_Z 0) with 0%Q. field. lra.
    + specialize (Fpos N).
      assert (Odd : 2 * k <> nb).
      { intros E. rewrite <- E, Z.even_mul in Ev. discriminate Ev. }
      destruct (2 * k + 1 ?= nb) eqn:C1.
      * apply Z.compare_eq in C1.
        pose proof (Cmp Lt ltac:(apply Z.compare_lt_iff; lia)) as C.
        simpl in *. lra.
      * rewrite Z.compare_lt_iff in C1.
        pose proof (Cmp Lt ltac:(apply Z.compare_lt_iff; lia)) as C.
        simpl in *. lra.
      * rewrite Z.compare_gt_iff in C1.
        pose proof (Cmp Gt ltac:(apply Z.compare_gt_iff; lia)) as C.
        simpl in *. lra.
Qed.

Lemma pow2_nonzero e : ~ (pow2 e == 0)%Q.
Proof. pose proof (pow2_pos e). lra. Qed.

Lemma inject_pos_nonzero p : ~ (inject_Z (Zpos p) == 0)%Q.
Proof.
  assert (K : (inject_Z 0 < inject_Z (Zpos p))%Q) by (rewrite <- Zlt_Qlt; lia).
  change (inject_Z 0) with 0%Q in K. lra.
Qed.

(** The quotient and remainder of [SFdiv_core_binary] locate the exact
    quotient, at an exponent that leaves the rounding a full mantissa. *)
Lemma div_core_correct mx ex my ey :
  exists q e' l y,
    SFdiv_core_binary B64.prec B64.emax (Zpos mx) ex (Zpos my) ey = (q, e', l)
    /\ 0 <= q /\ loc_inv q l y
    /\ (y * pow2 e'
        == (inject_Z (Zpos mx) * pow2 ex) / (inject_Z (Zpos my) * pow2 ey))%Q
    /\ e' <= fexp (Zdigits2 q + e')
    /\ (q = 0 -> fexp (Zdigits2 q + e') = emin).
Proof.
  unfold SFdiv_core_binary.
  set (d1 := Zdigits2 (Zpos mx)). set (d2 := Zdigits2 (Zpos my)).
  change (SpecFloat.fexp B64.prec B64.emax (d1 + ex - (d2 + ey)))
    with (fexp (d1 + ex - (d2 + ey))).
  set (E0 := fexp (d1 + ex - (d2 + ey))).
  set (e' := Z.min E0 (ex - ey)).
  set (s := ex - ey - e').
  assert (Hs : 0 <= s) by (unfold s, e'; lia).
  set (m' := match s with
             | 0 => Zpos mx
             | Zpos _ => Z.shiftl (Zpos mx) s
             | Zneg _ => 0
             end).
  assert (Hm' : m' = Zpos mx * 2 ^ s).
  { unfold m'. destruct s as [|p|p] eqn:Es; try lia.
    now rewrite Z.shiftl_mul_pow2 by lia. }
  pose proof (Z_div_mod m' (Zpos my) ltac:(lia)) as DM.
  destruct (Z.div_eucl m' (Zpos my)) as [q r]. destruct DM as [Eq [R0 R1]].
  assert (P2s : 0 < 2 ^ s) by (apply Z.pow_pos_nonneg; lia).
  assert (Hq : 0 <= q) by nia.
  exists q, e', (new_location (Zpos my) r),
    (inject_Z q + inject_Z r / inject_Z (Zpos my))%Q.
  split; [reflexivity|]. split; [exact Hq|]. split.
  { apply new_location_correct; lia. }
  pose proof (inject_pos_nonzero my) as Nmy.
  split.
  { assert (Y : (inject_Z q + inject_Z r / inject_Z (Zpos my)
                 == inject_Z (Zpos mx) * pow2 s / inject_Z (Zpos my))%Q).
    { rewrite <- (inject_Z_pow2 s Hs), <- inject_Z_mult, <- Hm', Eq.
      rewrite inject_Z_plus, inject_Z_mult. field. exact Nmy. }
    rewrite Y.
    assert (P : (pow2 ex == pow2 s * pow2 e' * pow2 ey)%Q).
    { rewrite <- !pow2_add. replace (s + e' + ey) with ex by (unfold s; lia).
      reflexivity. }
    rewrite P. field. split; [apply pow2_nonzero | exact Nmy]. }
  assert (Big : emin < e' -> 2 ^ (B64.prec - 1) <= q).
  { intros G.
    assert (F : E0 = d1 + ex - (d2 + ey) - B64.prec).
    { unfold E0. destruct (fexp_cases (d1 + ex - (d2 + ey))) as [[K _]|[K _]];
        [exact K|]. unfold e', E0 in G. lia. }
    assert (S1 : B64.prec - d1 + d2 <= s) by (unfold s, e'; lia).
    pose proof (Zdigits2_bounds (Zpos mx) ltac:(lia)) as [L1 _]. fold d1 in L1.
    pose proof (Zdigits2_bounds (Zpos my) ltac:(lia)) as [_ U2]. fold d2 in U2.
    pose proof (Zdigits2_pos (Zpos mx) ltac:(lia)) as D1. fold d1 in D1.
    pose proof (Zdigits2_pos (Zpos my) ltac:(lia)) as D2. fold d2 in D2.
    assert (A1 : 2 ^ (d1 - 1) * 2 ^ s <= m').
    { rewrite Hm'. apply Z.mul_le_mono_nonneg_r; lia. }
    rewrite <- Z.pow_add_r in A1 by lia.
    assert (A2 : 2 ^ (B64.prec - 1 + d2) <= 2 ^ (d1 - 1 + s))
      by (apply Z.pow_le_mono_r; unfold B64.prec in *; lia).
    rewrite Z.pow_add_r in A2 by (unfold B64.prec; lia).
    assert (P53 : 0 < 2 ^ (B64.prec - 1)) by (apply Z.pow_pos_nonneg; unfold B64.prec; lia).
    nia. }
  split.
  - destruct (Z_le_gt_dec e' emin) as [Le|Gt].
    + pose proof (fexp_ge_emin (Zdigits2 q + e')). lia.
    + specialize (Big ltac:(lia)).
      assert (Qp : 0 < q).
      { assert (0 < 2 ^ (B64.prec - 1)) by (apply Z.pow_pos_nonneg; unfold B64.prec; lia).
        lia. }
      pose proof (Zdigits2_bounds q Qp) as [_ U].
      assert (B64.prec - 1 < Zdigits2 q).
      { apply (Z.pow_lt_mono_r_iff 2); [lia | |lia].
        pose proof (Zdigits2_pos q Qp). lia. }
      destruct (fexp_cases (Zdigits2 q + e')) as [[K K']|[K K']]; lia.
  - intros Q0. subst q. simpl Zdigits2.
    destruct (Z_le_gt_dec e' emin) as [Le|Gt].
    + destruct (fexp_cases (0 + e')) as [[K K']|[K _]]; [|exact K].
      unfold B64.prec in *. lia.
    + specialize (Big ltac:(lia)).
      assert (0 < 2 ^ (B64.prec - 1)) by (apply Z.pow_pos_nonneg; unfold B64.prec; lia).
      lia.
Qed.

Lemma eta_pos : (0 < eta)%Q.
Proof. apply pow2_pos. Qed.

(** The quotient of such a number by a positive one is one of them, within
    a relative error [u] and an absolute error [eta] of the quotient of
    their values, unless it overflows. *)
Lemma div_good a mb eb :
  good a ->
  let b := S754_finite false mb eb in
  let r := SFdiv B64.prec B64.emax a b in
  let v := (B2Q a / B2Q b)%Q in
  (good r
   /\ ((1 - ulp_half) * v - eta <= B2Q r
       /\ B2Q r <= (1 + ulp_half) * v + eta)%Q)
  \/ (r = S754_infinity false /\ (pow2 B64.emax <= (1 + ulp_half) * v + eta)%Q).
Proof.
  intros Ga b r v. pose proof ulp_half_bounds as [U0 U1].
  pose proof eta_pos as Eta.
  destruct a as [sa|sa| |sa ma ea]; try contradiction.
  - left. unfold r, v, b. cbn [SFdiv B2Q]. split; [exact I|].
    assert (E : (0 / (inject_Z (cond_Zopp false (Zpos mb)) * pow2 eb) == 0)%Q)
      by reflexivity.
    rewrite E. lra.
  - destruct sa; [contradiction|]. unfold r, b. cbn [SFdiv xorb].
    destruct (div_core_correct ma ea mb eb)
      as [q [e' [l [y [Core [Hq [Hy [Val [Can Q0]]]]]]]]].
    rewrite Core.
    assert (Ev : (y * pow2 e' == v)%Q) by (rewrite Val; reflexivity).
    destruct (round_value false q e' l y Hq Hy Can)
      as [V [V0 [[B1 B2] [_ Cl]]]].
    rewrite Ev in B1, B2.
    assert (Vnn : (0 <= v)%Q).
    { rewrite <- Ev. pose proof (pow2_pos e').
      pose proof (loc_inv_bounds _ _ _ Hy) as [L _].
      assert (K : (inject_Z 0 <= inject_Z q)%Q) by (rewrite <- Zle_Qle; lia).
      change (inject_Z 0) with 0%Q in K. nra. }
    assert (Err : (pow2 (fexp (Zdigits2 q + e') - 1) <= ulp_half * v + eta)%Q).
    { destruct (Z.eq_dec q 0) as [Z0|NZ].
      - rewrite (Q0 Z0). fold eta. nra.
      - destruct (fexp_cases (Zdigits2 q + e')) as [[K _]|[K _]].
        + pose proof (normal_error q e' y ltac:(lia)
                        (proj1 (loc_inv_bounds _ _ _ Hy)) K) as NE.
          rewrite Ev in NE. lra.
        + rewrite K. fold eta. nra. }
    destruct Cl as [[R V00]|[[m' [e'' [R [E1 [E2 [Vm Vp]]]]]]|[R Vo]]].
    + left. rewrite R. split; [exact I|]. cbn [B2Q]. rewrite V00 in *.
      split; lra.
    + left. rewrite R. split; [exact E1|]. cbn [B2Q cond_Zopp]. rewrite Vm.
      split; lra.
    + right. split; [exact R|]. lra.
Qed.

(** *** Running sums *)

Lemma qpow_pos a n : (0 < a)%Q -> (0 < qpow a n)%Q.
Proof. intros Ha. induction n; simpl; [lra | nra]. Qed.

Lemma qpow_ge_1 a n : (1 <= a)%Q -> (1 <= qpow a n)%Q.
Proof. intros Ha. induction n; simpl; [lra | nra]. Qed.

Lemma qpow_le_1 a n : (0 <= a)%Q -> (a <= 1)%Q -> (0 <= qpow a n /\ qpow a n <= 1)%Q.
Proof. intros H0 H1. induction n; simpl; [lra | nra]. Qed.

Lemma qsum_nonneg xs : all_good xs -> (0 <= qsum xs)%Q.
Proof.
  induction xs as [|[x|] xs IH]; intros G; simpl.
  - lra.
  - pose proof (good_nonneg x (G x (or_introl eq_refl))).
    assert (0 <= qsum xs)%Q by (apply IH; intros z Hz; apply G; now right).
    lra.
  - apply IH. intros z Hz. apply G. now right.
Qed.

(** A running sum that has overflown stays at infinity. *)
Lemma fold_infinity xs :
  all_good xs -> fold_left sum_step xs (S754_infinity false) = S754_infinity false.
Proof.
  induction xs as [|[x|] xs IH]; intros G; simpl.
  - reflexivity.
  - pose proof (G x (or_introl eq_refl)) as Gx.
    destruct x as [s|s| |[] m e]; try contradiction; simpl;
      apply IH; intros z Hz; apply G; now right.
  - apply IH. intros z Hz. apply G. now right.
Qed.

Lemma scale_down (c p t : Q) :
  (0 <= c)%Q -> (c <= 1)%Q -> (0 <= p)%Q -> (0 <= t)%Q ->
  (c * p * t <= p * t)%Q.
Proof.
  intros. assert (0 <= p * t)%Q by nra.
  assert (E : (c * p * t == c * (p * t))%Q) by ring. rewrite E. nra.
Qed.

Lemma scale_up (c p t : Q) :
  (1 <= c)%Q -> (0 <= p)%Q -> (0 <= t)%Q -> (p * t <= c * p * t)%Q.
Proof.
  intros. assert (0 <= p * t)%Q by nra.
  assert (E : (c * p * t == c * (p * t))%Q) by ring. rewrite E. nra.
Qed.

(** A running sum of [n] cells is within the factors [(1 - u)^n] and
    [(1 + u)^n] of the sum of the values, unless it overflows. *)
Lemma fold_sum_bounds xs :
  forall acc,
    good acc -> all_good xs ->
    let n := List.length xs in
    let R := fold_left sum_step xs acc in
    let t := (B2Q acc + qsum xs)%Q in
    (good R
     /\ (qpow (1 - ulp_half) n * t <= B2Q R
         /\ B2Q R <= qpow (1 + ulp_half) n * t)%Q)
    \/ (R = S754_infinity false /\ (pow2 B64.emax <= qpow (1 + ulp_half) n * t)%Q).
Proof.
  pose proof ulp_half_bounds as [U0 U1].
  induction xs as [|[x|] xs IH]; intros acc Ga G; cbn zeta.
  - left. simpl. split; [exact Ga|]. split; lra.
  - assert (G' : all_good xs) by (intros z Hz; apply G; now right).
    pose proof (G x (or_introl eq_refl)) as Gx.
    pose proof (qsum_nonneg xs G') as S0.
    pose proof (good_nonneg acc Ga) as A0. pose proof (good_nonneg x Gx) as X0.
    pose proof (qpow_le_1 (1 - ulp_half) (List.length xs) ltac:(lra) ltac:(lra))
      as [P0 P1].
    pose proof (qpow_ge_1 (1 + ulp_half) (List.length xs) ltac:(lra)) as Q1.
    cbn [fold_left sum_step List.length qsum qpow].
    change (fadd acc x) with (SFadd B64.prec B64.emax acc x).
    destruct (add_good acc x Ga Gx) as [[Gr [B1 B2]]|[Ri Bi]].
    + destruct (IH _ Gr G') as [[GR [C1 C2]]|[RI CI]].
      * left. split; [exact GR|].
        set (P := qpow (1 - ulp_half) (List.length xs)) in *.
        set (P' := qpow (1 + ulp_half) (List.length xs)) in *.
        set (v' := B2Q (SFadd B64.prec B64.emax acc x)) in *.
        set (s := qsum xs) in *. set (a := B2Q acc) in *. set (b := B2Q x) in *.
        split.
        -- apply Qle_trans with (P * (v' + s))%Q; [|exact C1].
           assert ((1 - ulp_half) * (a + (b + s)) <= v' + s)%Q by nra.
           nra.
        -- apply Qle_trans with (P' * (v' + s))%Q; [exact C2|].
           assert (v' + s <= (1 + ulp_half) * (a + (b + s)))%Q by nra.
           nra.
      * right. split; [exact RI|].
        set (P' := qpow (1 + ulp_half) (List.length xs)) in *.
        set (v' := B2Q (SFadd B64.prec B64.emax acc x)) in *.
        set (s := qsum xs) in *. set (a := B2Q acc) in *. set (b := B2Q x) in *.
        apply Qle_trans with (P' * (v' + s))%Q; [exact CI|].
        assert (v' + s <= (1 + ulp_half) * (a + (b + s)))%Q by nra.
        nra.
    + right. rewrite Ri. split; [now apply fold_infinity|].
      set (P' := qpow (1 + ulp_half) (List.length xs)) in *.
      set (s := qsum xs) in *. set (a := B2Q acc) in *. set (b := B2Q x) in *.
      assert ((1 + ulp_half) * (a + b) <= (1 + ulp_half) * (a + (b + s)))%Q by nra.
      assert (K1 : (0 <= (P' - 1) * (a + (b + s)))%Q) by nra.
      assert (K2 : (0 <= (1 + ulp_half) * ((P' - 1) * (a + (b + s))))%Q) by nra.
      assert (K3 : ((1 + ulp_half) * P' * (a + (b + s))
                    == (1 + ulp_half) * (a + (b + s))
                       + (1 + ulp_half) * ((P' - 1) * (a + (b + s))))%Q) by ring.
      rewrite K3. lra.
  - assert (G' : all_good xs) by (intros z Hz; apply G; now right).
    pose proof (qsum_nonneg xs G') as S0.
    pose proof (good_nonneg acc Ga) as A0.
    pose proof (qpow_le_1 (1 - ulp_half) (List.length xs) ltac:(lra) ltac:(lra))
      as [P0 P1].
    pose proof (qpow_ge_1 (1 + ulp_half) (List.length xs) ltac:(lra)) as Q1.
    cbn [fold_left sum_step List.length qsum qpow].
    destruct (IH _ Ga G') as [[GR [C1 C2]]|[RI CI]].
    + left. split; [exact GR|].
      set (P := qpow (1 - ulp_half) (List.length xs)) in *.
      set (P' := qpow (1 + ulp_half) (List.length xs)) in *.
      set (s := qsum xs) in *. set (a := B2Q acc) in *.
      pose proof (scale_down (1 - ulp_half) P (a + s)
                    ltac:(lra) ltac:(lra) ltac:(lra) ltac:(lra)).
      pose proof (scale_up (1 + ulp_half) P' (a + s)
                    ltac:(lra) ltac:(lra) ltac:(lra)).
      split; lra.
    + right. split; [exact RI|].
      set (P' := qpow (1 + ulp_half) (List.length xs)) in *.
      set (s := qsum xs) in *. set (a := B2Q acc) in *.
      pose proof (scale_up (1 + ulp_half) P' (a + s)
                    ltac:(lra) ltac:(lra) ltac:(lra)).
      lra.
Qed.

(** *** The shares of a positive total *)

Lemma pow2_emax_big : (8 <= pow2 B64.emax)%Q.
Proof.
  assert (E : (pow2 3 == 8)%Q) by reflexivity. rewrite <- E.
  apply pow2_le. unfold B64.emax. lia.
Qed.

Lemma eta_small : (eta < 1)%Q.
Proof. apply pow2_lt_1. reflexivity. Qed.

(** The values of the shares add up to the quotient of the sum of the
    values by the value of the total, up to [u] and to [eta] per row. *)
Lemma shares_bounds mS eS xs :
  let S := S754_finite false mS eS in
  all_good xs -> (qsum xs <= 2 * B2Q S)%Q ->
  all_good (map (share S) xs)
  /\ ((1 - ulp_half) * (qsum xs / B2Q S)
      - inject_Z (Z.of_nat (List.length xs)) * eta
      <= qsum (map (share S) xs)
      /\ qsum (map (share S) xs)
         <= (1 + ulp_half) * (qsum xs / B2Q S)
            + inject_Z (Z.of_nat (List.length xs)) * eta)%Q.
Proof.
  intros S. pose proof ulp_half_bounds as [U0 U1].
  pose proof eta_pos as Eta. pose proof eta_small as Eta1.
  pose proof pow2_emax_big as Big.
  assert (Sp : (0 < B2Q S)%Q).
  { unfold S. cbn [B2Q cond_Zopp]. pose proof (pow2_pos eS).
    assert (K : (inject_Z 1 <= inject_Z (Zpos mS))%Q) by (rewrite <- Zle_Qle; lia).
    change (inject_Z 1) with 1%Q in K. nra. }
  set (vS := B2Q S) in *.
  assert (Ip : (0 < / vS)%Q) by now apply Qinv_lt_0_compat.
  assert (Iv : (vS * / vS == 1)%Q) by (apply Qmult_inv_r; lra).
  unfold Qdiv.
  induction xs as [|[x|] xs IH]; intros G H.
  - split; [intros z []|]. cbn [map qsum List.length Z.of_nat].
    change (inject_Z 0) with 0%Q. split; nra.
  - assert (G' : all_good xs) by (intros z Hz; apply G; now right).
    pose proof (G x (or_introl eq_refl)) as Gx.
    pose proof (qsum_nonneg xs G') as S0.
    pose proof (good_nonneg x Gx) as X0.
    cbn [qsum] in H.
    destruct (IH G' ltac:(lra)) as [GY [L Up]].
    cbn [map share lift2 qsum List.length].
    change (fdiv x S) with (SFdiv B64.prec B64.emax x S).
    rewrite Nat2Z.inj_succ, <- Z.add_1_r, inject_Z_plus.
    change (inject_Z 1) with 1%Q.
    set (n := inject_Z (Z.of_nat (List.length xs))) in *.
    set (i := (/ vS)%Q) in *.
    assert (Vx : (B2Q x * i <= 2)%Q).
    { assert (B2Q x * i <= (2 * vS) * i)%Q by nra.
      assert (E : ((2 * vS) * i == 2 * (vS * i))%Q) by ring.
      rewrite E, Iv in H0. lra. }
    assert (Vx0 : (0 <= B2Q x * i)%Q) by nra.
    pose proof (div_good x mS eS Gx) as D. cbv zeta in D.
    change (S754_finite false mS eS) with S in D.
    change (B2Q x / B2Q S)%Q with (B2Q x * i)%Q in D.
    set (t := (B2Q x * i)%Q) in *.
    assert (Ut : (0 <= ulp_half * t /\ ulp_half * t <= 2)%Q) by nra.
    destruct D as [[Gr [B1 B2]]|[Ri Bi]].
    + split.
      * intros z [Ez|Hz]; [injection Ez as <-; exact Gr | now apply GY].
      * set (r := B2Q (SFdiv B64.prec B64.emax x S)) in *.
        set (sy := qsum (map (share S) xs)) in *.
        set (sx := qsum xs) in *.
        assert (E : ((B2Q x + sx) * i == t + sx * i)%Q) by (unfold t; ring).
        rewrite E. split; nra.
    + exfalso. nra.
  - assert (G' : all_good xs) by (intros z Hz; apply G; now right).
    cbn [qsum] in H. destruct (IH G' H) as [GY [L Up]].
    cbn [map share lift2 qsum List.length].
    rewrite Nat2Z.inj_succ, <- Z.add_1_r, inject_Z_plus.
    change (inject_Z 1) with 1%Q. split.
    + intros z [Ez|Hz]; [discriminate Ez | now apply GY].
    + split; lra.
Qed.

(** Bounds on [(1 - u)^k] and [(1 + u)^k] that are linear in [k]. *)
Lemma qpow_bernoulli u k :
  (0 <= u)%Q -> (u <= 1)%Q ->
  (1 - inject_Z (Z.of_nat k) * u <= qpow (1 - u) k)%Q.
Proof.
  intros U0 U1. induction k as [|k IH].
  - simpl. change (inject_Z 0) with 0%Q. lra.
  - cbn [qpow]. rewrite Nat2Z.inj_succ, <- Z.add_1_r, inject_Z_plus.
    change (inject_Z 1) with 1%Q.
    pose proof (qpow_le_1 (1 - u) k ltac:(lra) ltac:(lra)) as [P0 P1].
    set (P := qpow (1 - u) k) in *. set (n := inject_Z (Z.of_nat k)) in *.
    assert (N0 : (0 <= n)%Q).
    { unfold n. change 0%Q with (inject_Z 0). rewrite <- Zle_Qle. lia. }
    nra.
Qed.

Lemma qpow_up u k :
  (0 <= u)%Q -> (2 * inject_Z (Z.of_nat k) * u <= 1)%Q ->
  (qpow (1 + u) k <= 1 + 2 * inject_Z (Z.of_nat k) * u)%Q.
Proof.
  intros U0. induction k as [|k IH].
  - simpl. change (inject_Z 0) with 0%Q. lra.
  - cbn [qpow]. rewrite Nat2Z.inj_succ, <- Z.add_1_r, inject_Z_plus.
    change (inject_Z 1) with 1%Q.
    set (n := inject_Z (Z.of_nat k)) in *.
    assert (N0 : (0 <= n)%Q).
    { unfold n. change 0%Q with (inject_Z 0). rewrite <- Zle_Qle. lia. }
    intros H. specialize (IH ltac:(nra)).
    pose proof (qpow_ge_1 (1 + u) k ltac:(lra)) as P1.
    set (P := qpow (1 + u) k) in *.
    assert (2 * n * u * u <= u)%Q by nra.
    nra.
Qed.

(** *** The bound *)

Lemma ulp_half_value : (ulp_half == 1 # 9007199254740992)%Q.
Proof. reflexivity. Qed.

Lemma eta_bound : (eta <= 1 # 1267650600228229401496703205376)%Q.
Proof.
  unfold eta. apply Qle_trans with (pow2 (-100)).
  - apply pow2_le. unfold emin, SpecFloat.emin, B64.emax, B64.prec. lia.
  - assert (E : (pow2 (-100) == 1 # 1267650600228229401496703205376)%Q)
      by reflexivity.
    rewrite E. apply Qle_refl.
Qed.

(** On at most 2^24 cells that are null, zero or positive, with a finite
    sum [S] that is not zero, the binary64 sum [T] of the shares is within
    [2^-26] of 1. *)
Lemma shares_sum_close xs :
  all_good xs ->
  let S := fold_left sum_step xs (S754_zero false) in
  (exists s m e, S = S754_finite s m e) ->
  Z.of_nat (List.length xs) <= max_rows ->
  let T := fold_left sum_step (map (share S) xs) (S754_zero false) in
  good T /\ (1 - (1 # 67108864) <= B2Q T /\ B2Q T <= 1 + (1 # 67108864))%Q.
Proof.
  intros G S [s [m [e ES]]] Len T.
  pose proof ulp_half_bounds as [U0 U1]. pose proof ulp_half_value as Uv.
  pose proof eta_pos as Eta. pose proof eta_bound as EtaB.
  pose proof pow2_emax_big as Big.
  set (n := List.length xs) in *.
  set (N := inject_Z (Z.of_nat n)).
  assert (N0 : (0 <= N)%Q).
  { unfold N. change 0%Q with (inject_Z 0). rewrite <- Zle_Qle. lia. }
  assert (N1 : (N <= 16777216)%Q).
  { unfold N. change 16777216%Q with (inject_Z max_rows).
    rewrite <- Zle_Qle. exact Len. }
  pose proof (qpow_bernoulli ulp_half n ltac:(lra) ltac:(lra)) as Pl.
  pose proof (qpow_up ulp_half n ltac:(lra)) as Pu. fold N in Pl, Pu.
  assert (Nu : (N * ulp_half <= 1 # 536870912)%Q) by (rewrite Uv; lra).
  specialize (Pu ltac:(lra)).
  pose proof (qpow_le_1 (1 - ulp_half) n ltac:(lra) ltac:(lra)) as [P0 P1].
  pose proof (qpow_ge_1 (1 + ulp_half) n ltac:(lra)) as Q1.
  set (P := qpow (1 - ulp_half) n) in *.
  set (P' := qpow (1 + ulp_half) n) in *.
  pose proof (qsum_nonneg xs G) as X0.
  destruct (fold_sum_bounds xs (S754_zero false) I G) as [[GS [B1 B2]]|[RI _]];
    fold S n P P' in GS, B1, B2 || fold S in RI;
    [|rewrite ES in RI; discriminate RI].
  cbn [B2Q] in B1, B2.
  rewrite ES in GS. destruct s; [contradiction|]. simpl in GS.
  set (X := qsum xs) in *.
  assert (Sp : (0 < B2Q S)%Q).
  { rewrite ES. cbn [B2Q cond_Zopp]. pose proof (pow2_pos e).
    assert (K : (inject_Z 1 <= inject_Z (Zpos m))%Q) by (rewrite <- Zle_Qle; lia).
    change (inject_Z 1) with 1%Q in K. nra. }
  set (vS := B2Q S) in *.
  assert (X2 : (X <= 2 * vS)%Q) by nra.
  pose proof (shares_bounds m e xs G) as SB. cbv zeta in SB.
  rewrite <- ES in SB. fold X vS n N in SB.
  destruct (SB X2) as [GY [Y1 Y2]]. clear SB.
  set (ys := map (share S) xs) in *.
  pose proof (qsum_nonneg ys GY) as Y0.
  set (Y := qsum ys) in *.
  assert (Ip : (0 < / vS)%Q) by now apply Qinv_lt_0_compat.
  assert (Iv : (vS * / vS == 1)%Q) by (apply Qmult_inv_r; lra).
  unfold Qdiv in Y1, Y2. set (rho := (X * / vS)%Q) in *.
  assert (R0 : (0 <= rho)%Q) by (unfold rho; nra).
  assert (R1 : (rho * P <= 1)%Q).
  { assert (K : ((0 + X) * P * / vS <= vS * / vS)%Q) by nra.
    assert (E : ((0 + X) * P * / vS == rho * P)%Q) by (unfold rho; ring).
    rewrite E, Iv in K. exact K. }
  assert (R2 : (1 <= rho * P')%Q).
  { assert (K : (vS * / vS <= P' * (0 + X) * / vS)%Q) by nra.
    assert (E : (P' * (0 + X) * / vS == rho * P')%Q) by (unfold rho; ring).
    rewrite E, Iv in K. exact K. }
  assert (R3 : (rho * (1 - (1 # 536870912)) <= 1)%Q) by nra.
  assert (R4 : (1 <= rho * (1 + (1 # 268435456)))%Q) by nra.
  assert (NE : (0 <= N * eta /\ N * eta <= 1 # 1099511627776)%Q) by nra.
  set (ne := (N * eta)%Q) in *.
  assert (LenY : List.length ys = n) by (unfold ys; apply length_map).
  pose proof (fold_sum_bounds ys (S754_zero false) I GY) as FB.
  cbv zeta in FB. rewrite LenY in FB. cbn [B2Q] in FB.
  fold P P' Y T in FB.
  destruct FB as [[GT [C1 C2]]|[RI CI]].
  - split; [exact GT|].
    assert (D1 : ((1 - (1 # 536870912)) * Y <= B2Q T)%Q) by nra.
    assert (D2 : (B2Q T <= (1 + (1 # 268435456)) * Y)%Q) by nra.
    rewrite Uv in *. split; lra.
  - exfalso.
    assert (D2 : (pow2 B64.emax <= (1 + (1 # 268435456)) * Y)%Q) by nra.
    rewrite Uv in *. lra.
Qed.

(** *** The test in binary64

    A number within [2^-26] of 1 passes [close_to_one]: its difference
    with 1 is rounded at an exponent below the one of the tolerance. *)

Lemma close_to_one_near_one (x : B64.t) :
  good x ->
  (1 - (1 # 67108864) <= B2Q x /\ B2Q x <= 1 + (1 # 67108864))%Q ->
  close_to_one x = true.
Proof.
  intros G [L U].
  destruct x as [s|s| |[] m e]; cbn [good] in G; try contradiction.
  assert (Tol : tolerance = S754_finite false 4722366482869645 (-72))
    by (vm_compute; reflexivity).
  assert (One : B64.of_Z 1 = S754_finite false 4503599627370496 (-52))
    by (vm_compute; reflexivity).
  unfold close_to_one. rewrite Tol, One.
  unfold B64.sub, B64.abs, B64.leb. cbn [SFsub cond_Zopp].
  set (ez := Z.min e (-52)).
  assert (Hez : emin <= ez).
  { unfold ez. rewrite emin_val in *. lia. }
  pose proof (shl_align_value m e ez) as Va.
  pose proof (shl_align_value 4503599627370496 (-52) ez) as Vb.
  rewrite (shl_align_snd m e ez) in Va by (unfold ez; lia).
  rewrite (shl_align_snd 4503599627370496 (-52) ez) in Vb by (unfold ez; lia).
  set (a := fst (shl_align m e ez)) in *.
  set (b := fst (shl_align 4503599627370496 (-52) ez)) in *.
  assert (V1 : (inject_Z (Zpos 4503599627370496) * pow2 (-52) == 1)%Q)
    by reflexivity.
  rewrite V1 in Vb. cbn [B2Q cond_Zopp] in L, U. rewrite <- Va in L, U.
  assert (P26 : (pow2 (-26) == 1 # 67108864)%Q) by reflexivity.
  assert (Small : forall s' p,
            (inject_Z (Zpos p) * pow2 ez <= pow2 (-26))%Q ->
            SFleb (SFabs (binary_round B64.prec B64.emax s' p ez))
              (S754_finite false 4722366482869645 (-72)) = true).
  { intros s' p Hp. apply digits_of_small in Hp.
    assert (HF : fexp (Zpos (digits2_pos p) + ez) <= -78).
    { destruct (fexp_cases (Zpos (digits2_pos p) + ez)) as [[F _]|[F _]];
        rewrite F; [unfold B64.prec | rewrite emin_val]; lia. }
    pose proof (binary_round_small s' p ez (-78) Hez
                  ltac:(unfold B64.emax, B64.prec; lia) HF) as K.
    destruct (binary_round B64.prec B64.emax s' p ez) as [z|z| |z m' e'];
      try contradiction.
    - reflexivity.
    - unfold SFleb, SFabs, SFcompare.
      now rewrite (proj2 (Z.compare_lt_iff e' (-72)) ltac:(lia)). }
  destruct (Zpos a - Zpos b) as [|p|p] eqn:D; cbn [binary_normalize].
  - reflexivity.
  - apply Small. rewrite <- D, P26.
    unfold Z.sub. rewrite inject_Z_plus, inject_Z_opp.
    setoid_replace ((inject_Z (Zpos a) + - inject_Z (Zpos b)) * pow2 ez)%Q
      with (inject_Z (Zpos a) * pow2 ez - inject_Z (Zpos b) * pow2 ez)%Q
      by ring.
    rewrite Vb. lra.
  - apply Small. rewrite P26.
    assert (E : Zpos p = Zpos b - Zpos a) by lia. rewrite E.
    unfold Z.sub. rewrite inject_Z_plus, inject_Z_opp.
    setoid_replace ((inject_Z (Zpos b) + - inject_Z (Zpos a)) * pow2 ez)%Q
      with (inject_Z (Zpos b) * pow2 ez - inject_Z (Zpos a) * pow2 ez)%Q
      by ring.
    rewrite Vb. lra.
Qed.

(** *** From the frame to the sum of the shares *)

Lemma shr_fexp_exponent m e l :
  emin <= snd (shr_fexp B64.prec B64.emax m e l).
Proof.
  unfold shr_fexp, shr.
  change (SpecFloat.fexp B64.prec B64.emax (Zdigits2 m + e))
    with (fexp (Zdigits2 m + e)).
  pose proof (fexp_ge_emin (Zdigits2 m + e)) as K.
  destruct (fexp (Zdigits2 m + e) - e) as [|p|p] eqn:E; cbn [snd]; lia.
Qed.

(** A finite result of a rounding has the sign it was asked for and an
    exponent of the format. *)
Lemma binary_round_aux_exponent s mx ex lx s' m e :
  binary_round_aux B64.prec B64.emax s mx ex lx = S754_finite s' m e ->
  s' = s /\ emin <= e.
Proof.
  unfold binary_round_aux.
  destruct (shr_fexp B64.prec B64.emax mx ex lx) as [mrs' e'].
  pose proof (shr_fexp_exponent
                (round_nearest_even (shr_m mrs') (loc_of_shr_record mrs')) e'
                loc_Exact) as K.
  destruct (shr_fexp B64.prec B64.emax
              (round_nearest_even (shr_m mrs') (loc_of_shr_record mrs')) e'
              loc_Exact) as [mrs'' e''].
  cbn [snd] in K.
  destruct (shr_m mrs'') as [|p|p]; try discriminate.
  destruct (e'' <=? B64.emax - B64.prec); [|discriminate].
  intros E. injection E as <- _ <-. split; [reflexivity | exact K].
Qed.

Lemma mul_good (a b : B64.t) :
  is_nonneg (B64.mul a b) = true -> good (B64.mul a b).
Proof.
  unfold B64.mul.
  destruct (SFmul B64.prec B64.emax a b) as [s|s| |s m e] eqn:E;
    cbn [is_nonneg good]; try discriminate; [tauto|].
  destruct s; [discriminate|]. intros _.
  destruct a as [sa|sa| |sa ma ea], b as [sb|sb| |sb mb eb];
    cbn [SFmul] in E; try discriminate.
  apply binary_round_aux_exponent in E. tauto.
Qed.

(** The gross sales of the rows of [derive] that are zero or positive are
    numbers of the format. *)
Lemma gross_sales_good (cs : list (Clean B64.t)) (group : list (Derived B64.t)) :
  (forall d, In d group -> In d (map derive cs)) ->
  forallb nonneg_cell (map d_gross_sales group) = true ->
  all_good (map d_gross_sales group).
Proof.
  intros Sub Hn x Hx.
  pose proof (proj1 (forallb_forall _ _) Hn (Some x) Hx) as Nx.
  cbn [nonneg_cell] in Nx.
  apply in_map_iff in Hx. destruct Hx as [d [Ed Hd]].
  apply Sub, in_map_iff in Hd. destruct Hd as [c [<- _]].
  unfold d_gross_sales, derive in Ed. cbn [fin financials gross_sales] in Ed.
  destruct (order_item_product_price (core c)) as [p|]; [|discriminate].
  destruct (to_f64 (order_item_quantity (core c))) as [q|]; [|discriminate].
  cbn [lift2] in Ed. injection Ed as <-.
  apply mul_good. exact Nx.
Qed.

(** The sum of the shares of a group is the sum of the gross sales of the
    group, each divided by the sum of the group. *)
Lemma share_sum_over (by_ : Derived B64.t -> option string)
  (share_of : WindowMetrics B64.t -> option B64.t)
  (df : list (Derived B64.t)) (k : option string) :
  (forall d,
     share_of (window_metrics df d)
     = lift2 fdiv (d_gross_sales d) (Some (sum_gross_sales_over by_ df d))) ->
  fsum (map (fun r => share_of (win r))
          (partition (fun r => by_ (derived r)) k (with_window_metrics df)))
  = fsum (map (share (fsum (map d_gross_sales (partition by_ k df))))
            (map d_gross_sales (partition by_ k df))).
Proof.
  intros Hshare.
  unfold with_window_metrics.
  rewrite (partition_map (fun r : Fact B64.t => by_ (derived r))).
  cbn [derived]. rewrite !map_map. cbn [win].
  f_equal. apply map_ext_in.
  intros d Hd. apply partition_In in Hd. destruct Hd as [_ Hk].
  rewrite Hshare, sum_over_partition, Hk. reflexivity.
Qed.

(** The bound for one grouping column. *)
Lemma shares_of_group (by_ : Derived B64.t -> option string)
  (cs : list (Clean B64.t)) (k : option string) :
  let group := partition by_ k (map derive cs) in
  let total := fsum (map d_gross_sales group) in
  forallb nonneg_cell (map d_gross_sales group) = true ->
  is_finite total = true -> B64.is_zero total = false ->
  Z.of_nat (List.length group) <= max_rows ->
  within_a_millionth_of_one
    (fsum (map (share total) (map d_gross_sales group)))
  /\ close_to_one (fsum (map (share total) (map d_gross_sales group))) = true.
Proof.
  intros group total Hn Hf Hz Len.
  assert (G : all_good (map d_gross_sales group)).
  { apply (gross_sales_good cs); [|exact Hn].
    intros d Hd. apply partition_In in Hd. tauto. }
  pose proof (shares_sum_close (map d_gross_sales group) G) as C.
  cbv zeta in C.
  change (fold_left sum_step (map d_gross_sales group) (S754_zero false))
    with total in C.
  destruct C as [GT B].
  - destruct total as [s|s| |s m e]; try discriminate. now exists s, m, e.
  - rewrite length_map. exact Len.
  - unfold fsum. change (of_int 0) with (S754_zero false).
    split; [split|].
    + destruct (fold_left sum_step
                  (map (share total) (map d_gross_sales group))
                  (S754_zero false)) as [s|s| |[] m e];
        cbn [good] in GT; try contradiction; reflexivity.
    + destruct B as [B1 B2]. split; lra.
    + now apply close_to_one_near_one.
Qed.




(** Nor does a sum that is finite and not zero suffice: with gross sales
    2^53, 1, -2^53 and 3 the running sum loses the 1, the sum of the group
    is 3 and the shares add up to a number that is not within 1e-6
    of 1. *)
Example shares_of_cancelling_group :
  let facts := fact_set Fixture.cancelling_lines in
  let group := partition f_category_name (Some "Sporting Goods") facts in
  map (fun r => d_gross_sales (derived r)) group
  = [Some (B64.of_Z 9007199254740992); Some (B64.of_Z 1);
     Some (B64.of_Z (-9007199254740992)); Some (B64.of_Z 3)]
  /\ fsum (map (fun r => d_gross_sales (derived r)) group) = B64.of_Z 3
  /\ close_to_one (category_share_sum facts (Some "Sporting Goods")) = false
  /\ ~ within_a_millionth_of_one
         (category_share_sum facts (Some "Sporting Goods")).
Proof.
  cbv zeta. split; [vm_compute; reflexivity|].
  split; [vm_compute; reflexivity|].
  split; [vm_compute; reflexivity|].
  intros [_ [_ U]]. vm_compute in U. apply U. reflexivity.
Qed.

(** A binary64 frame on which the shares do add up to 1. *)
Example shares_of_two_equal_lines :
  close_to_one
    (category_share_sum
       (fact_set [Fixture.standard_line; Fixture.second_line])
       (Some "Sporting Goods")) = true.
Proof. vm_compute. reflexivity. Qed.

(** The value of small integers and of the sum of the shares of the three
    sample lines. *)
Example values_of_numbers :
  (B2Q (B64.of_Z 3) == 3)%Q
  /\ (B2Q (B64.of_Z (-3)) == - (3))%Q
  /\ (B2Q Fixture.half == 1 # 2)%Q
  /\ (B2Q (category_share_sum (fact_set Fixture.mixed_lines)
             (Some "Sporting Goods")) == 1)%Q.
Proof. repeat split; vm_compute; reflexivity. Qed.

(** ** Deduplication (step 2) *)

Section UniqueFacts.
Context {A : Type} `{EqDec A}.

Lemma unique_from_In (seen df : list A) (x : A) :
  In x (unique_from seen df) <-> In x df /\ ~ In x seen.
Proof.
  revert seen. induction df as [|r rest IH]; intros seen; simpl.
  - tauto.
  - destruct (existsb (eqb_of r) seen) eqn:E.
    + apply existsb_eqb_of in E. rewrite IH. split.
      * intros [Hx Hs]. split; [now right | exact Hs].
      * intros [[->|Hx] Hs]; [contradiction | now split].
    + apply existsb_eqb_of_false in E. simpl. rewrite IH. simpl. split.
      * intros [->|[Hx Hs]].
        -- split; [now left | exact E].
        -- split; [now right | tauto].
      * intros [[->|Hx] Hs]; [now left|].
        destruct (eq_dec r x) as [->|N]; [now left | right].
        split; [exact Hx | tauto].
Qed.

Lemma unique_from_NoDup (seen df : list A) : NoDup (unique_from seen df).
Proof.
  revert seen. induction df as [|r rest IH]; intros seen; simpl.
  - constructor.
  - destruct (existsb (eqb_of r) seen); [apply IH|].
    constructor; [|apply IH].
    rewrite unique_from_In. simpl. tauto.
Qed.

Lemma unique_from_first_occurrences (seen before df : list A) :
  (forall x, In x seen <-> In x before) ->
  unique_from seen df = first_occurrences_from before df.
Proof.
  revert seen before. induction df as [|r rest IH]; intros seen before S; simpl.
  - reflexivity.
  - assert (E : existsb (eqb_of r) seen = existsb (eqb_of r) before).
    { destruct (existsb (eqb_of r) before) eqn:B.
      - apply existsb_eqb_of. apply S. now apply existsb_eqb_of.
      - apply existsb_eqb_of_false. rewrite S.
        now apply existsb_eqb_of_false. }
    rewrite E. destruct (existsb (eqb_of r) before) eqn:B.
    + apply IH. intros x. simpl. rewrite S.
      apply existsb_eqb_of in B. split; [tauto|].
      intros [->|Hx]; assumption.
    + f_equal. apply IH. intros x. simpl. now rewrite S.
Qed.

(** C6: [unique(maintain_order=True)] keeps exactly the rows that have no
    identical row before them in the frame, in the order of the frame: the
    result has no two identical rows and the same rows as the frame, and a
    frame [a; b; a; c] of distinct rows [a], [b], [c] becomes [a; b; c]. *)
Theorem unique_keeps_first_occurrences (df : list A) :
  unique_maintain_order df = first_occurrences df
  /\ NoDup (unique_maintain_order df)
  /\ (forall x, In x (unique_maintain_order df) <-> In x df)
  /\ (forall a b c,
        df = [a; b; a; c] -> a <> b -> a <> c -> b <> c ->
        unique_maintain_order df = [a; b; c]).
Proof.
  unfold unique_maintain_order, first_occurrences. repeat split.
  - apply unique_from_first_occurrences. tauto.
  - apply unique_from_NoDup.
  - intros Hx. now apply unique_from_In in Hx.
  - intros Hx. apply unique_from_In. simpl. tauto.
  - intros a b c -> Hab Hac Hbc. simpl.
    rewrite (proj2 (eqb_of_false b a)) by congruence.
    rewrite (proj2 (eqb_of_false a b)) by congruence.
    rewrite eqb_of_refl. simpl.
    rewrite (proj2 (eqb_of_false c b)) by congruence.
    rewrite (proj2 (eqb_of_false c a)) by congruence. reflexivity.
Qed.

End UniqueFacts.

Lemma unique_keeps_first_occurrences_witness :
  unique_maintain_order
    [Fixture.standard_line; Fixture.second_line; Fixture.standard_line;
     Fixture.loss_line]
  = [Fixture.standard_line; Fixture.second_line; Fixture.loss_line].
Proof.
  refine (proj2 (proj2 (proj2 (unique_keeps_first_occurrences _)))
            Fixture.standard_line Fixture.second_line Fixture.loss_line
            eq_refl _ _ _);
  intros E; vm_compute in E; discriminate E.
Defined.

Section DeduplicateFacts.
Context {F : Type} `{Arith F}.

Lemma deduplicate_check (df : list (RawRow F)) (p : RawRow F * option Z) :
  In p (deduplicate df) -> snd p = valid_date_check (fst p).
Proof.
  unfold deduplicate, unique_maintain_order, validate.
  intros Hp. apply unique_from_In in Hp. destruct Hp as [Hp _].
  apply filter_In in Hp. destruct Hp as [Hp _].
  apply in_map_iff in Hp. destruct Hp as [r [<- _]]. reflexivity.
Qed.

Lemma NoDup_map_fst_determined {X Y : Type} (g : X -> Y) (l : list (X * Y)) :
  (forall p, In p l -> snd p = g (fst p)) ->
  NoDup l -> NoDup (map fst l).
Proof.
  intros Hg Hl. induction Hl as [|p l Hp Hl IH]; simpl.
  - constructor.
  - constructor.
    + intros Hin. apply in_map_iff in Hin. destruct Hin as [q [E Hq]].
      apply Hp. replace p with q; [exact Hq|].
      destruct p as [x y], q as [x' y']. simpl in E. subst x'.
      f_equal.
      pose proof (Hg (x, y') (or_intror Hq)) as E1.
      pose proof (Hg (x, y) (or_introl eq_refl)) as E2.
      simpl in E1, E2. congruence.
    + apply IH. intros q Hq. apply Hg. now right.
Qed.

(** C7, as the code has it: once the frame is deduplicated no two of its
    rows agree on every source field.  (The columns dropped afterwards can
    make rows of the output coincide.) *)
Theorem deduplicated_rows_distinct (df : list (RawRow F)) :
  NoDup (map fst (deduplicate df))
  /\ (forall r, In r (map fst (deduplicate df)) ->
      In r df /\ valid_date_check r <> None).
Proof.
  split.
  - apply (NoDup_map_fst_determined valid_date_check).
    + apply deduplicate_check.
    + apply unique_from_NoDup.
  - intros r Hr. apply in_map_iff in Hr. destruct Hr as [p [<- Hp]].
    unfold deduplicate, unique_maintain_order, validate in Hp.
    apply unique_from_In in Hp. destruct Hp as [Hp _].
    apply filter_In in Hp. destruct Hp as [Hp Hv].
    apply in_map_iff in Hp. destruct Hp as [r [<- Hr]]. simpl in *.
    split; [exact Hr|]. destruct (valid_date_check r); discriminate.
Qed.

End DeduplicateFacts.

Lemma deduplicated_rows_distinct_witness :
  In Fixture.standard_line [Fixture.standard_line; Fixture.standard_line]
  /\ valid_date_check Fixture.standard_line <> None.
Proof.
  apply (proj2 (deduplicated_rows_distinct
                  [Fixture.standard_line; Fixture.standard_line])).
  vm_compute. left. reflexivity.
Defined.

(** C7 fails as stated: two lines that differ in [shipping_mode] only both
    pass the deduplication and give the same row of the output. *)
Lemma output_rows_coincide :
  Fixture.standard_line <> Fixture.second_line
  /\ ~ NoDup
       (transform Fixture.dims [Fixture.standard_line; Fixture.second_line]).
Proof.
  split.
  - intros E. vm_compute in E. discriminate E.
  - vm_compute. intros N. inversion N as [|x l Hx Hl]. apply Hx.
    left. reflexivity.
Qed.

(** ** Enrichment (step 6) *)

Lemma keys_match_eq (k1 k2 : Key) : keys_match k1 k2 = true -> k1 = k2.
Proof. unfold keys_match. apply eqb_of_true. Qed.

Lemma keys_match_without_nulls_eq (k1 k2 : Key) :
  keys_match_without_nulls k1 k2 = true -> k1 = k2.
Proof.
  revert k2. induction k1 as [|[a|] k1 IH]; intros [|[b|] k2]; simpl;
    try discriminate; try reflexivity.
  intros E. apply andb_prop in E. destruct E as [Eab E].
  apply String.eqb_eq in Eab. subst b. f_equal. now apply IH.
Qed.

Lemma matches_In (k : Key) (d : Dim) (m : Key * Payload) :
  In m (matches k d) -> In m d /\ fst m = k.
Proof.
  unfold matches. rewrite filter_In. intros [Hm E].
  split; [exact Hm|]. symmetry. now apply keys_match_eq.
Qed.

(** In a unique-keyed table a key has at most one match. *)
Lemma matches_unique (k : Key) (d : Dim) :
  unique_keyed d -> matches k d = [] \/ exists m, matches k d = [m].
Proof.
  unfold unique_keyed. induction d as [|[k0 p0] rest IH]; simpl; intros N.
  - now left.
  - inversion N as [|x l Hk0 Hrest]; subst.
    destruct (keys_match k k0) eqn:E.
    + right. exists (k0, p0). f_equal.
      destruct (matches k rest) as [|m ms] eqn:M; [reflexivity|].
      exfalso. apply Hk0.
      assert (Hm : In m (matches k rest)) by (rewrite M; now left).
      apply matches_In in Hm. destruct Hm as [Hm Ek].
      apply keys_match_eq in E. subst k0. rewrite <- Ek.
      now apply in_map.
    + now apply IH.
Qed.

Lemma matches_without_nulls_unique (k : Key) (d : Dim) :
  unique_keyed d ->
  matches_without_nulls k d = []
  \/ exists m, matches_without_nulls k d = [m].
Proof.
  unfold unique_keyed, matches_without_nulls.
  induction d as [|[k0 p0] rest IH]; simpl; intros N.
  - now left.
  - inversion N as [|x l Hk0 Hrest]; subst.
    destruct (keys_match_without_nulls k k0) eqn:E.
    + right. exists (k0, p0). f_equal.
      apply keys_match_without_nulls_eq in E. subst k0.
      destruct (filter _ rest) as [|m ms] eqn:M; [reflexivity|].
      exfalso. apply Hk0.
      assert (Hm : In m (filter
                           (fun d => keys_match_without_nulls k (fst d)) rest))
        by (rewrite M; now left).
      apply filter_In in Hm. destruct Hm as [Hm Ek].
      apply keys_match_without_nulls_eq in Ek. rewrite Ek.
      now apply in_map.
    + now apply IH.
Qed.

Lemma left_join_unique {L : Type} (on : L -> Key) (left : list L) (right : Dim) :
  unique_keyed right ->
  left_join on left right = map (fun l => (l, first_match (on l) right)) left.
Proof.
  intros U. unfold left_join, first_match.
  induction left as [|l left IH].
  - reflexivity.
  - cbn [flat_map]. rewrite IH. cbn [map].
    destruct (matches_unique (on l) right U) as [E|[m E]]; rewrite E;
      reflexivity.
Qed.

Section EnrichFacts.
Context {F : Type} `{Arith F}.

Lemma enrich_unique (dims : Dims) (df : list (Fact F)) :
  unique_keyed (dim_geo dims) -> unique_keyed (dim_cust dims) ->
  unique_keyed (dim_prod dims) ->
  enrich dims df = map (enrich_row dims) df.
Proof.
  intros Ug Uc Up. unfold enrich.
  rewrite (left_join_unique geo_on df _ Ug), map_map.
  rewrite (left_join_unique customer_on _ _ Uc), !map_map.
  rewrite (left_join_unique product_on _ _ Up), !map_map.
  reflexivity.
Qed.

(** C3: against unique-keyed dimension tables the three left joins give one
    row per fact row, in the same order, with the derived columns unchanged;
    a side without a match is null, and so is its surrogate key. *)
Theorem enrichment_preserves_rows (dims : Dims) (df : list (Fact F)) :
  unique_keyed (dim_geo dims) -> unique_keyed (dim_cust dims) ->
  unique_keyed (dim_prod dims) ->
  List.length (enrich dims df) = List.length df
  /\ (forall i f,
        nth_error df i = Some f ->
        exists r,
          nth_error (enrich dims df) i = Some r
          /\ body r = body_of f
          /\ (matches (geo_on f) (dim_geo dims) = [] -> geo_id r = None)
          /\ (matches
                [customer_state (customer_keys (f_clean f));
                 customer_country (customer_keys (f_clean f))]
                (dim_cust dims) = [] ->
              customer_geo_id r = None)
          /\ (matches
                [product_name (product_keys (f_clean f));
                 category_name (product_keys (f_clean f));
                 department_name (product_keys (f_clean f))]
                (dim_prod dims) = [] ->
              product_key r = None)).
Proof.
  intros Ug Uc Up. rewrite (enrich_unique dims df Ug Uc Up). split.
  - apply length_map.
  - intros i f Hf. exists (enrich_row dims f). split.
    + rewrite nth_error_map, Hf. reflexivity.
    + unfold enrich_row, geo_id, customer_geo_id, product_key, first_match.
      cbn [body geo customer_geo product].
      repeat split; intros ->; reflexivity.
Qed.

End EnrichFacts.

Lemma enrichment_preserves_rows_witness :
  List.length
    (enrich Fixture.dims
       (fact_set [Fixture.standard_line; Fixture.loss_line]))
  = 2%nat.
Proof.
  refine (eq_trans
    (proj1 (enrichment_preserves_rows Fixture.dims
              (fact_set [Fixture.standard_line; Fixture.loss_line])
              _ _ _)) _).
  - repeat constructor; simpl; tauto.
  - repeat constructor; simpl; tauto.
  - repeat constructor; simpl; tauto.
  - vm_compute. reflexivity.
Defined.

(** A null key cell of a fact row matches a null key cell of a dimension
    row: the row receives the surrogate key filed under the null state,
    and a null surrogate key only where no row of the table has its key. *)
Example null_key_cells_match :
  map (fun r => (geo_id r, customer_geo_id r))
    (enrich Fixture.null_key_dims (fact_set [Fixture.stateless_line]))
  = [(Some 99, None)].
Proof. vm_compute. reflexivity. Qed.

(** With a key that occurs twice in a dimension table a fact row is
    repeated: the hypothesis of unique keys is needed. *)
Example duplicate_key_repeats_rows :
  let twice := {| dim_geo := (dim_geo Fixture.dims ++ dim_geo Fixture.dims)%list;
                  dim_cust := []; dim_prod := [] |} in
  List.length (enrich twice (fact_set [Fixture.standard_line])) = 2%nat.
Proof. vm_compute. reflexivity. Qed.

(** ** Trade route (step 4) *)

Lemma replace_first_no_occurrence (re : Regex.t) (value s : string) :
  Regex.occurs re s = false -> Regex.replace_first re value s = s.
Proof.
  induction s as [|c s IH]; simpl.
  - destruct (Regex.match_prefix re ""); [discriminate | reflexivity].
  - destruct (Regex.match_prefix re (String c s)); [discriminate|].
    intros Hs. f_equal. now apply IH.
Qed.

Lemma string_append_assoc (a b c : string) : (a ++ b) ++ c = a ++ b ++ c.
Proof.
  induction a as [|x a IH]; simpl; [reflexivity | now rewrite IH].
Qed.

Lemma occurs_false (re : Regex.t) (p r : string) :
  Regex.occurs re (p ++ r) = false -> Regex.match_prefix re r = None.
Proof.
  induction p as [|c p IH]; simpl.
  - destruct r; simpl; destruct (Regex.match_prefix re _);
      try discriminate; reflexivity.
  - destruct (Regex.match_prefix re (String c (p ++ r))); [discriminate|].
    exact IH.
Qed.

(** The leftmost match of a pattern that occurs. *)
Lemma first_match_exists (re : Regex.t) (s : string) :
  Regex.occurs re s = true ->
  exists p r q,
    s = p ++ r /\ Regex.match_prefix re r = Some q
    /\ (forall p1 p2,
          p = p1 ++ p2 -> p2 <> "" -> Regex.match_prefix re (p2 ++ r) = None).
Proof.
  induction s as [|c s IH]; cbn [Regex.occurs].
  - destruct (Regex.match_prefix re "") as [q|] eqn:M; [|discriminate].
    intros _. exists "", "", q. repeat split; try assumption.
    intros p1 p2 Hp N. destruct p1; [simpl in Hp; now subst | discriminate].
  - destruct (Regex.match_prefix re (String c s)) as [q|] eqn:M.
    + intros _. exists "", (String c s), q. repeat split; try assumption.
      intros p1 p2 Hp N. destruct p1; [simpl in Hp; now subst | discriminate].
    + intros O. destruct (IH O) as [p [r [q [E [Mq First]]]]].
      exists (String c p), r, q. repeat split.
      * simpl. now rewrite E.
      * exact Mq.
      * intros p1 p2 Hp N. destruct p1 as [|c1 p1]; simpl in Hp.
        -- subst p2. simpl. rewrite <- E. exact M.
        -- injection Hp as _ Hp. exact (First p1 p2 Hp N).
Qed.

Lemma replace_first_at_first_match (re : Regex.t) (value p r q : string) :
  Regex.match_prefix re r = Some q ->
  (forall p1 p2,
     p = p1 ++ p2 -> p2 <> "" -> Regex.match_prefix re (p2 ++ r) = None) ->
  Regex.replace_first re value (p ++ r) = p ++ value ++ q.
Proof.
  intros M. induction p as [|c p IH]; intros First.
  - simpl. destruct r; cbn [Regex.replace_first]; now rewrite M.
  - cbn [String.append Regex.replace_first].
    pose proof (First "" (String c p) eq_refl ltac:(discriminate)) as K.
    cbn [String.append] in K. rewrite K.
    f_equal. apply IH. intros p1 p2 Hp N.
    apply (First (String c p1) p2); [simpl; now rewrite Hp | exact N].
Qed.

(** The pattern of the pipeline matches at the head of a text exactly when
    the text begins with a stretch of the shape. *)
Lemma match_prefix_shape (s q : string) :
  Regex.match_prefix (Regex.compile "EE. UU.") s = Some q
  <-> exists m, shape m /\ s = m ++ q.
Proof.
  change (Regex.compile "EE. UU.") with
    [Regex.Lit "E"; Regex.Lit "E"; Regex.AnyChar; Regex.Lit " ";
     Regex.Lit "U"; Regex.Lit "U"; Regex.AnyChar].
  split.
  - destruct s as [|c1 [|c2 [|c3 [|c4 [|c5 [|c6 [|c7 s]]]]]]];
      cbn [Regex.match_prefix Regex.atom_matches]; try discriminate;
      repeat match goal with
        | |- context [Ascii.eqb ?a ?b] =>
            destruct (Ascii.eqb_spec a b); cbn [negb]; try discriminate
        end.
    intros E. injection E as <-. subst.
    exists (String "E" (String "E" (String c3 (String " "
              (String "U" (String "U" (String c7 ""))))))).
    split; [|reflexivity]. exists c3, c7. now repeat split.
  - intros [m [[x [y [Hx [Hy ->]]]] ->]]. unfold line_feed in Hx, Hy.
    cbn [String.append Regex.match_prefix Regex.atom_matches].
    rewrite !Ascii.eqb_refl.
    rewrite (proj2 (Ascii.eqb_neq x _) Hx).
    rewrite (proj2 (Ascii.eqb_neq y _) Hy). reflexivity.
Qed.

(** The normalisation of the code replaces the leftmost stretch of the
    shape, and nothing else. *)
Lemma normalize_first_replaced (s n : string) :
  first_replaced shape s n <-> n = normalize s.
Proof.
  unfold normalize. set (re := Regex.compile "EE. UU."). split.
  - intros [[None ->]|[p [m [q [-> [Sm [First ->]]]]]]].
    + symmetry. apply replace_first_no_occurrence.
      destruct (Regex.occurs re s) eqn:O; [|reflexivity].
      exfalso. apply None.
      destruct (first_match_exists re s O) as [p [r [q [E [M _]]]]].
      apply match_prefix_shape in M. destruct M as [m [Sm ->]].
      now exists p, m, q.
    + symmetry. apply replace_first_at_first_match.
      * apply match_prefix_shape. now exists m.
      * intros p1 p2 Hp N.
        destruct (Regex.match_prefix re (p2 ++ m ++ q)) as [q'|] eqn:M;
          [|reflexivity].
        exfalso. apply match_prefix_shape in M. destruct M as [m' [Sm' E]].
        exact (First p1 p2 m' q' Hp N E Sm').
  - intros ->. destruct (Regex.occurs re s) eqn:O.
    + right. destruct (first_match_exists re s O) as [p [r [q [E [M First]]]]].
      pose proof M as M'.
      apply match_prefix_shape in M'. destruct M' as [m [Sm ->]].
      exists p, m, q. repeat split; try assumption.
      * intros p1 p2 m' q' Hp N E' Sm'.
        assert (K : Regex.match_prefix re (p2 ++ m ++ q) = Some q')
          by (apply match_prefix_shape; now exists m').
        rewrite (First p1 p2 Hp N) in K. discriminate K.
      * rewrite E. now apply replace_first_at_first_match.
    + left. split.
      * intros [p [m [q [E Sm]]]]. rewrite E in O.
        apply occurs_false in O.
        assert (K : Regex.match_prefix re (m ++ q) = Some q)
          by (apply match_prefix_shape; now exists m).
        rewrite O in K. discriminate K.
      * now apply replace_first_no_occurrence.
Qed.

Lemma shape_literal (m : string) : literal m -> shape m.
Proof.
  intros ->. exists "."%char, "."%char.
  repeat split; intros E; discriminate E.
Qed.

(** On a value whose stretches of the shape all read ["EE. UU."], replacing
    the leftmost stretch of the shape is replacing the leftmost occurrence
    of that text. *)
Lemma first_replaced_literal (s n : string) :
  (forall p m q, s = p ++ m ++ q -> shape m -> literal m) ->
  first_replaced shape s n <-> first_replaced literal s n.
Proof.
  intros L. split.
  - intros [[None ->]|[p [m [q [E [Sm [First ->]]]]]]].
    + left. split; [|reflexivity].
      intros [p [m [q [E Lm]]]]. apply None. exists p, m, q.
      split; [exact E | now apply shape_literal].
    + right. exists p, m, q. repeat split; try assumption.
      * exact (L p m q E Sm).
      * intros p1 p2 m' q' Hp N E' Lm'.
        exact (First p1 p2 m' q' Hp N E' (shape_literal m' Lm')).
  - intros [[None ->]|[p [m [q [E [Lm [First ->]]]]]]].
    + left. split; [|reflexivity].
      intros [p [m [q [E Sm]]]]. apply None. exists p, m, q.
      split; [exact E | exact (L p m q E Sm)].
    + right. exists p, m, q. repeat split; try assumption.
      * now apply shape_literal.
      * intros p1 p2 m' q' Hp N E' Sm'.
        apply (First p1 p2 m' q' Hp N E').
        apply (L p1 m' q'); [|exact Sm'].
        rewrite E, Hp, string_append_assoc. now rewrite E'.
Qed.

Section TradeRoute.
Context {F : Type} `{Arith F}.

Lemma trade_route_value (c : Clean F) (country state destination : string) :
  customer_country (customer_keys c) = Some country ->
  customer_state (customer_keys c) = Some state ->
  order_country (geo_keys c) = Some destination ->
  trade_route (seg (derive c))
  = Some (normalize country ++ "_" ++ state ++ " -> " ++ destination).
Proof.
  intros Ec Es Ed. unfold derive, segments. cbn [seg trade_route].
  unfold trade_route_of, str_replace. rewrite Ec, Es, Ed.
  cbn [option_map sconcat lift2]. fold (normalize country).
  now rewrite !string_append_assoc.
Qed.


End TradeRoute.



(** The dots of the pattern are not escaped and stand for any character: a
    value in which other characters take their place is rewritten too, and
    only the leftmost stretch is. *)
Example wildcard_is_rewritten :
  let c := kept Fixture.wildcard_line in
  customer_country (customer_keys c) = Some "EEx UUy"
  /\ trade_route (seg (derive c)) = Some "USA_PR -> Indonesia"
  /\ normalize "EEx UUy EE. UU." = "USA EE. UU.".
Proof.
  vm_compute. repeat split.
Qed.

(** ** The batch coordinator (step 8) *)

Lemma remove_file_In (name n : string) (dir : list string) :
  In n (remove_file name dir) <-> In n dir /\ n <> name.
Proof.
  unfold remove_file. rewrite filter_In, negb_true_iff, String.eqb_neq.
  reflexivity.
Qed.

Lemma write_file_names {A : Type} (name n : string) (content : A)
  (dir : list (string * A)) :
  In n (map fst (write_file name content dir))
  <-> n = name \/ In n (map fst dir).
Proof.
  unfold write_file. simpl. split.
  - intros [E|Hn]; [left; now symmetry|].
    apply in_map_iff in Hn. destruct Hn as [e [<- He]].
    apply filter_In in He. right. apply in_map. tauto.
  - intros [->|Hn]; [now left|].
    destruct (String.eqb_spec n name) as [->|N]; [now left | right].
    apply in_map_iff in Hn. destruct Hn as [e [<- He]].
    apply in_map. apply filter_In. split; [exact He|].
    apply negb_true_iff. now apply String.eqb_neq.
Qed.

Section BatchFacts.
Context {F : Type} `{Arith F}.

Lemma process_file_effect (w : World F) (lake : Lake F) (f : string) :
  snd (process_file w lake f) = outcome_of w f
  /\ bronze (fst (process_file w lake f))
     = (if archived_ok w f then remove_file f (bronze lake) else bronze lake)
  /\ archive (fst (process_file w lake f))
     = (if archived_ok w f
        then archive_name f (now w f) :: archive lake
        else archive lake)
  /\ (forall n,
        In n (map fst (silver (fst (process_file w lake f))))
        <-> (written_ok w f = true /\ n = output_name f)
            \/ In n (map fst (silver lake))).
Proof.
  unfold process_file, library_failure, outcome_of, aborts, archived_ok,
    written_ok.
  destruct (read_csv w f) as [df|], (read_dims w f) as [dims|],
    (write_parquet w f), (move w f), (panics w f);
    cbn [fst snd bronze archive silver andb negb is_not_null];
    (split; [reflexivity|]); (split; [reflexivity|]);
    (split; [reflexivity|]);
    intros n; rewrite ?write_file_names;
    intuition (try discriminate; try congruence).
Qed.

Lemma process_each_effect (w : World F) (files : list string) (lake : Lake F) :
  snd (process_each w lake files) = map (fun f => (f, outcome_of w f)) files
  /\ (forall n,
        In n (bronze (fst (process_each w lake files)))
        <-> In n (bronze lake) /\ ~ (In n files /\ archived_ok w n = true))
  /\ (forall a,
        In a (archive (fst (process_each w lake files)))
        <-> In a (archive lake)
            \/ exists f,
                 In f files /\ archived_ok w f = true
                 /\ a = archive_name f (now w f))
  /\ (forall n,
        In n (map fst (silver (fst (process_each w lake files))))
        <-> In n (map fst (silver lake))
            \/ exists f,
                 In f files /\ written_ok w f = true /\ n = output_name f).
Proof.
  revert lake. induction files as [|f rest IH]; intros lake.
  - simpl. repeat split; try tauto.
    + intros [K|[f [[] _]]]. exact K.
    + intros [K|[f [[] _]]]. exact K.
  - cbn [process_each].
    destruct (process_file_effect w lake f) as [Eo [Eb [Ea Es]]].
    destruct (process_file w lake f) as [lake1 o]. cbn [fst snd] in *.
    destruct (IH lake1) as [Il [Ib [Ia Is]]].
    destruct (process_each w lake1 rest) as [lake2 log]. cbn [fst snd] in *.
    split; [|split; [|split]].
    + simpl. now rewrite Eo, Il.
    + intros n. rewrite Ib, Eb. simpl.
      destruct (archived_ok w f) eqn:Af.
      * rewrite remove_file_In. split.
        -- intros [[Hn N] K]. split; [exact Hn|].
           intros [[->|Hr] An]; [now apply N | apply K; now split].
        -- intros [Hn K]. split; [split; [exact Hn|]|].
           ++ intros ->. apply K. split; [now left | exact Af].
           ++ intros [Hr An]. apply K. split; [now right | exact An].
      * split.
        -- intros [Hn K]. split; [exact Hn|].
           intros [[->|Hr] An]; [congruence | apply K; now split].
        -- intros [Hn K]. split; [exact Hn|].
           intros [Hr An]. apply K. split; [now right | exact An].
    + intros a. rewrite Ia, Ea. simpl.
      destruct (archived_ok w f) eqn:Af; simpl; split.
      * intros [[<-|K]|[g [Hg [Ag ->]]]].
        -- right. exists f. repeat split; [now left | exact Af].
        -- now left.
        -- right. exists g. repeat split; [now right | exact Ag].
      * intros [K|[g [[<-|Hg] [Ag ->]]]].
        -- left. now right.
        -- left. now left.
        -- right. exists g. now repeat split.
      * intros [K|[g [Hg [Ag ->]]]]; [now left|].
        right. exists g. repeat split; [now right | exact Ag].
      * intros [K|[g [[<-|Hg] [Ag ->]]]]; [now left | congruence |].
        right. exists g. now repeat split.
    + intros n. rewrite Is, Es. simpl. split.
      * intros [[[Wf ->]|K]|[g [Hg [Wg ->]]]].
        -- right. exists f. repeat split; [now left | exact Wf].
        -- now left.
        -- right. exists g. repeat split; [now right | exact Wg].
      * intros [K|[g [[<-|Hg] [Wg ->]]]].
        -- left. now right.
        -- left. left. now split.
        -- right. exists g. now repeat split.
Qed.

Lemma aborts_not_archived (w : World F) (f : string) :
  aborts w f = true -> archived_ok w f = false /\ written_ok w f = false.
Proof.
  unfold aborts, archived_ok. destruct (written_ok w f); [discriminate|].
  now split.
Qed.

Lemma archived_not_aborts (w : World F) (f : string) :
  archived_ok w f = true -> aborts w f = false.
Proof.
  unfold aborts, archived_ok. now destruct (written_ok w f).
Qed.

(** The loop of the script is the loop over the files it reaches. *)
Lemma process_files_reached (w : World F) (files : list string)
  (lake : Lake F) :
  process_files w lake files = process_each w lake (reached w files).
Proof.
  revert lake. induction files as [|f rest IH]; intros lake; [reflexivity|].
  cbn [process_files reached].
  pose proof (proj1 (process_file_effect w lake f)) as Eo.
  unfold outcome_of in Eo.
  destruct (aborts w f) eqn:Ab.
  - destruct (aborts_not_archived w f Ab) as [Af _]. rewrite Af in Eo.
    cbn [process_each].
    destruct (process_file w lake f) as [lake1 o]. cbn [snd] in Eo.
    subst o. reflexivity.
  - cbn [process_each].
    destruct (process_file w lake f) as [lake1 o]. cbn [snd] in Eo.
    rewrite IH. destruct (archived_ok w f); subst o; reflexivity.
Qed.

Lemma reached_all (w : World F) (files : list string) :
  (forall f, In f files -> aborts w f = false) -> reached w files = files.
Proof.
  induction files as [|f rest IH]; intros K; [reflexivity|].
  cbn [reached]. rewrite (K f (or_introl eq_refl)). f_equal.
  apply IH. intros g Hg. apply K. now right.
Qed.

Lemma reached_cut (w : World F) (before after : list string) (f : string) :
  (forall g, In g before -> aborts w g = false) -> aborts w f = true ->
  reached w (before ++ f :: after) = (before ++ [f])%list.
Proof.
  induction before as [|g before IH]; intros K Ab; cbn [reached app].
  - now rewrite Ab.
  - rewrite (K g (or_introl eq_refl)). f_equal.
    apply IH; [|exact Ab]. intros h Hh. apply K. now right.
Qed.

Lemma reached_prefix (w : World F) (files : list string) :
  exists rest, files = (reached w files ++ rest)%list.
Proof.
  induction files as [|f files [rest IH]].
  - now exists [].
  - cbn [reached]. destruct (aborts w f).
    + now exists files.
    + exists rest. cbn [app]. now rewrite <- IH.
Qed.

Lemma reached_In (w : World F) (files : list string) (f : string) :
  In f (reached w files) -> In f files.
Proof.
  destruct (reached_prefix w files) as [rest E]. intros Hf.
  rewrite E. apply in_or_app. now left.
Qed.

(** C5, as the code has it.  The coordinator goes through the files found
    in Bronze one after the other, as long as no failure goes past the
    handler.  A file it reaches is moved to the archive exactly when it was
    read, transformed and written and the move itself succeeded: it has then
    left Bronze and its artifact is in Silver.  In every other case, and
    when the loop does not reach it, a file stays in Bronze.  Nothing enters
    the archive but the files so moved.  When no failure is a panic of the
    library every file is reached; the first file whose failure is one ends
    the run, and the files after it are not looked at. *)
Theorem archive_only_after_write (w : World F) (lake : Lake F) :
  let lake' := fst (run_batch w lake) in
  let seen := reached w (bronze lake) in
  snd (run_batch w lake) = map (fun f => (f, outcome_of w f)) seen
  /\ (forall f,
        In f (bronze lake) ->
        (In f seen -> archived_ok w f = true ->
         ~ In f (bronze lake')
         /\ In (archive_name f (now w f)) (archive lake')
         /\ has_artifact lake' f)
        /\ (archived_ok w f = false -> In f (bronze lake'))
        /\ (~ In f seen -> In f (bronze lake'))
        /\ (In f seen -> written_ok w f = true -> has_artifact lake' f))
  /\ (forall a,
        In a (archive lake') ->
        In a (archive lake)
        \/ exists f,
             In f seen /\ written_ok w f = true
             /\ move w f = true /\ a = archive_name f (now w f))
  /\ ((forall f, In f (bronze lake) -> aborts w f = false) ->
      seen = bronze lake)
  /\ (forall before f after,
        bronze lake = (before ++ f :: after)%list ->
        (forall g, In g before -> aborts w g = false) ->
        aborts w f = true ->
        seen = (before ++ [f])%list
        /\ snd (run_batch w lake)
           = (map (fun g => (g, outcome_of w g)) before
              ++ [(f, Aborted)])%list).
Proof.
  cbv zeta. unfold run_batch, has_artifact.
  rewrite process_files_reached.
  destruct (process_each_effect w (reached w (bronze lake)) lake)
    as [El [Eb [Ea Es]]].
  split; [exact El|]. split; [|split; [|split]].
  - intros f Hf. split; [|split; [|split]].
    + intros Sf Af. split; [|split].
      * rewrite Eb. intros [_ K]. apply K. now split.
      * apply Ea. right. exists f. now repeat split.
      * apply Es. right. exists f. repeat split; [exact Sf|].
        unfold archived_ok in Af. now apply andb_prop in Af.
    + intros Af. apply Eb. split; [exact Hf|]. intros [_ K]. congruence.
    + intros Nf. apply Eb. split; [exact Hf|]. intros [K _]. now apply Nf.
    + intros Sf Wf. apply Es. right. exists f. now repeat split.
  - intros a Ha. apply Ea in Ha. destruct Ha as [K|[f [Hf [Af ->]]]].
    + now left.
    + right. exists f. unfold archived_ok in Af.
      apply andb_prop in Af. destruct Af as [Wf Mf]. now repeat split.
  - apply reached_all.
  - intros before f after E K Ab.
    assert (R : reached w (bronze lake) = (before ++ [f])%list)
      by (rewrite E; now apply reached_cut).
    split; [exact R|]. rewrite El, R, map_app. cbn [map].
    unfold outcome_of. rewrite Ab.
    now rewrite (proj1 (aborts_not_archived w f Ab)).
Qed.

End BatchFacts.

Lemma archive_only_after_write_witness :
  let lake' :=
    fst (run_batch Fixture.world (Fixture.lake ["a.csv"; "b.csv"; "c.csv"])) in
  In "b.csv" (bronze lake') /\ ~ In "c.csv" (bronze lake')
  /\ has_artifact lake' "c.csv".
Proof.
  pose proof (proj1 (proj2
    (archive_only_after_write Fixture.world
       (Fixture.lake ["a.csv"; "b.csv"; "c.csv"])))) as P.
  cbv zeta in *. split; [|split].
  - apply (proj1 (proj2 (P "b.csv" ltac:(simpl; tauto)))). reflexivity.
  - apply (proj1 (P "c.csv" ltac:(simpl; tauto)));
      [vm_compute; tauto | reflexivity].
  - apply (proj1 (P "c.csv" ltac:(simpl; tauto)));
      [vm_compute; tauto | reflexivity].
Defined.

(** The run of the sample batch: the unreadable file is skipped and stays in
    Bronze, the files after it are still processed. *)
Example one_failure_does_not_stop_the_batch :
  let run := run_batch Fixture.world (Fixture.lake ["a.csv"; "b.csv"; "c.csv"]) in
  snd run = [("a.csv", Archived); ("b.csv", Skipped); ("c.csv", Archived)]
  /\ bronze (fst run) = ["b.csv"]
  /\ archive (fst run)
     = ["c_20170105_120000.csv"; "a_20170105_120000.csv"]
  /\ map fst (silver (fst run)) = ["Fact_c.parquet"; "Fact_a.parquet"].
Proof. vm_compute. repeat split. Qed.

(** C5 fails as stated, in two ways.  When the move to the archive fails
    after the artifact has been written, the handler skips the file: the
    artifact is in Silver and the file is still in Bronze, not in the
    archive.  And when the failure on a file is a panic of the library, the
    handler does not catch it: the run ends at that file, and the file
    after it, which could have been processed, is left in Bronze without an
    artifact. *)
Lemma written_but_not_archived :
  let run := run_batch Fixture.stuck_world (Fixture.lake ["orders.csv"]) in
  let cut :=
    run_batch Fixture.panic_world (Fixture.lake ["a.csv"; "b.csv"; "c.csv"]) in
  (written_ok Fixture.stuck_world "orders.csv" = true
   /\ has_artifact (fst run) "orders.csv"
   /\ In "orders.csv" (bronze (fst run))
   /\ archive (fst run) = []
   /\ snd run = [("orders.csv", Skipped)])
  /\ (snd cut = [("a.csv", Archived); ("b.csv", Aborted)]
      /\ bronze (fst cut) = ["b.csv"; "c.csv"]
      /\ map fst (silver (fst cut)) = ["Fact_a.parquet"]
      /\ archived_ok Fixture.panic_world "c.csv" = true).
Proof.
  vm_compute. repeat split; left; reflexivity.
Qed.

(** ** The equations under the IEEE comparison *)

Lemma SFeqb_refl (x : B64.t) : B64.nan x = false -> SFeqb x x = true.
Proof.
  unfold SFeqb. destruct x as [s|s| |s m e]; simpl; try discriminate;
    intros _; try (now destruct s).
  destruct s; rewrite Z.compare_refl, Pos.compare_cont_refl; reflexivity.
Qed.

(** In binary64 the comparison [==] of a stored [net_revenue] or
    [total_cost] with the difference it is defined by is true whenever the
    stored value is not NaN. *)
Lemma financial_equations_ieee (dims : Dims) (df : list (RawRow B64.t))
  (r : Silver B64.t) :
  In r (transform dims df) ->
  let f := b_fin (body r) in
  (forall x, net_revenue f = Some x -> B64.nan x = false ->
     lift2 SFeqb (net_revenue f)
       (lift2 fsub (gross_sales f) (discount_amount f)) = Some true)
  /\ (forall x, total_cost f = Some x -> B64.nan x = false ->
       lift2 SFeqb (total_cost f)
         (lift2 fsub (net_revenue f) (order_profit_amount f)) = Some true).
Proof.
  intros Hr. apply transform_financials in Hr. destruct Hr as [c Hc].
  cbv zeta. rewrite Hc. unfold financials.
  cbn [net_revenue total_cost gross_sales discount_amount
       order_profit_amount].
  split; intros x Hx Nx; rewrite Hx; simpl; now rewrite SFeqb_refl.
Qed.

(** ** The test cases of the specification on the model *)

Example date_filter_boundary :
  Calendar.to_date (Some 2017) (Some 13) (Some 1) = None
  /\ Calendar.to_date (Some 2017) (Some 1) (Some 32) = None
  /\ Calendar.to_date (Some 2023) (Some 2) (Some 29) = None
  /\ Calendar.to_date (Some 2024) (Some 2) (Some 29) = Some 19782
  /\ Calendar.to_date (Some 2024) None (Some 29) = None.
Proof. vm_compute. repeat split. Qed.

(** Years before year 0 are read back as dates; years above 9999 are not,
    nor are those below the first year of the date library. *)
Example date_filter_years :
  Calendar.to_date (Some (-1)) (Some 3) (Some 5) = Some (-719830)
  /\ Calendar.to_date (Some (-9999)) (Some 12) (Some 31) <> None
  /\ Calendar.to_date (Some 0) (Some 2) (Some 29) <> None
  /\ Calendar.to_date (Some 9999) (Some 12) (Some 31) <> None
  /\ Calendar.to_date (Some 10000) (Some 1) (Some 1) = None
  /\ Calendar.to_date (Some (-262145)) (Some 1) (Some 1) = None.
Proof. vm_compute. repeat split; discriminate. Qed.

Example price_segment_boundaries :
  let cents (n : Z) : option B64.t :=
    Some (B64.div (B64.of_Z n) (B64.of_Z 100)) in
  price_segment_of (cents 5999) = "Budget"
  /\ price_segment_of (cents 6000) = "Mainstream"
  /\ price_segment_of (cents 25000) = "Mainstream"
  /\ price_segment_of (cents 25001) = "Premium"
  /\ price_segment_of (Some S754_nan) = "Premium".
Proof. vm_compute. repeat split. Qed.

Example shipping_mode_boundaries :
  shipping_mode_clean_of (Some 0) = "Same Day"
  /\ shipping_mode_clean_of (Some 2) = "First Class"
  /\ shipping_mode_clean_of (Some 3) = "Second Class"
  /\ shipping_mode_clean_of (Some 4) = "Standard Class"
  /\ delivery_class_of (Some (-1)) = "Early"
  /\ delivery_class_of (Some 0) = "On Time"
  /\ delivery_class_of (Some 2) = "Late".
Proof. vm_compute. repeat split. Qed.

Example invalid_dates_are_dropped :
  let bad :=
    {| kept :=
         {| core :=
              {| order_year := Some 2017;
                 order_month := Some 2;
                 order_day := Some 30;
                 order_item_product_price := Some (B64.of_Z 10);
                 order_item_quantity := Some 1;
                 order_item_discount_rate := Some Fixture.half;
                 order_item_profit_ratio := Some Fixture.half;
                 days_for_shipping_real := Some 3;
                 days_for_shipment_scheduled := Some 4;
                 type_ := None;
                 order_status := None;
                 customer_segment := None |};
            geo_keys := geo_keys (kept Fixture.standard_line);
            customer_keys := customer_keys (kept Fixture.standard_line);
            product_keys := product_keys (kept Fixture.standard_line) |};
       order_dayofweek := None;
       shipping_mode := None |} in
  cleanup [bad; Fixture.standard_line; bad; Fixture.standard_line]
  = [kept Fixture.standard_line].
Proof. vm_compute. reflexivity. Qed.

(** * Further properties of the scripts *)

(** ** Validation and deduplication *)

Lemma to_date_Some (y m d : option Z) (n : Z) :
  Calendar.to_date y m d = Some n ->
  exists y' m' d',
    y = Some y' /\ m = Some m' /\ d = Some d'
    /\ Calendar.valid y' m' d' = true
    /\ n = Calendar.days_from_civil y' m' d'.
Proof.
  unfold Calendar.to_date.
  destruct y as [y'|], m as [m'|], d as [d'|]; try discriminate.
  destruct (Calendar.valid y' m' d') eqn:V; [|discriminate].
  intros E. injection E as <-. exists y', m', d'. now repeat split.
Qed.

Lemma valid_bounds (y m d : Z) :
  Calendar.valid y m d = true ->
  Calendar.min_year <= y <= 9999 /\ 1 <= m <= 12
  /\ 1 <= d <= Calendar.days_in_month y m.
Proof.
  unfold Calendar.valid. rewrite !andb_true_iff, !Z.leb_le. lia.
Qed.

Lemma days_in_month_bounds (y m : Z) : 28 <= Calendar.days_in_month y m <= 31.
Proof.
  unfold Calendar.days_in_month.
  destruct (m =? 2); [destruct (Calendar.is_leap y); lia|].
  destruct ((m =? 4) || (m =? 6) || (m =? 9) || (m =? 11)); lia.
Qed.

Section CleanupFacts.
Context {F : Type} `{Arith F}.

Lemma deduplicate_In (df : list (RawRow F)) (p : RawRow F * option Z) :
  In p (deduplicate df)
  <-> In (fst p) df /\ snd p = valid_date_check (fst p) /\ snd p <> None.
Proof.
  unfold deduplicate, unique_maintain_order, validate.
  rewrite unique_from_In, filter_In, in_map_iff. split.
  - intros [[[r [<- Hr]] Hv] _]. simpl in *.
    repeat split; [exact Hr|]. destruct (valid_date_check r); discriminate.
  - intros [Hr [E N]]. split; [split|intros []].
    + exists (fst p). split; [|exact Hr]. destruct p as [r c]. simpl in *.
      now subst c.
    + destruct (snd p); [reflexivity | contradiction].
Qed.

Lemma cleanup_In (df : list (RawRow F)) (c : Clean F) :
  In c (cleanup df)
  <-> exists r, In r df /\ kept r = c /\ valid_date_check r <> None.
Proof.
  unfold cleanup, drop_helpers. rewrite in_map_iff. split.
  - intros [p [<- Hp]]. apply deduplicate_In in Hp.
    destruct Hp as [Hr [E N]]. exists (fst p). repeat split; [exact Hr|].
    now rewrite <- E.
  - intros [r [Hr [<- N]]]. exists (r, valid_date_check r). split.
    + reflexivity.
    + apply deduplicate_In. simpl. now repeat split.
Qed.

Lemma fact_set_In_cleanup (df : list (RawRow F)) (f : Fact F) :
  In f (fact_set df) ->
  exists c, In c (cleanup df) /\ derived f = derive c
            /\ win f = window_metrics (map derive (cleanup df)) (derive c).
Proof.
  unfold fact_set. intros Hf. apply with_window_metrics_In in Hf.
  destruct Hf as [Hd Hw]. apply in_map_iff in Hd.
  destruct Hd as [c [E Hc]]. exists c. repeat split.
  - exact Hc.
  - now symmetry.
  - now rewrite E.
Qed.

Lemma transform_In_cleanup (dims : Dims) (df : list (RawRow F))
  (r : Silver F) :
  In r (transform dims df) ->
  exists c, In c (cleanup df) /\ b_core (body r) = core c
            /\ b_seg (body r) = seg (derive c)
            /\ b_ops (body r) = ops (derive c).
Proof.
  intros Hr. apply transform_In in Hr. destruct Hr as [f [Hf E]].
  apply fact_set_In_cleanup in Hf. destruct Hf as [c [Hc [Ed _]]].
  exists c. split; [exact Hc|]. rewrite E. unfold body_of, f_clean.
  cbn [b_core b_seg b_ops]. rewrite Ed. now repeat split.
Qed.

(** X1.  Every row of the output carries a complete date that exists in the
    calendar: rows with a null date part, a month outside 1..12 or a day
    that the month does not have are filtered out before anything else, and
    so are the years above 9999.  Years before year 0 pass the filter. *)
Theorem output_dates_valid (dims : Dims) (df : list (RawRow F))
  (r : Silver F) :
  In r (transform dims df) ->
  exists y m d,
    order_year (b_core (body r)) = Some y
    /\ order_month (b_core (body r)) = Some m
    /\ order_day (b_core (body r)) = Some d
    /\ Calendar.min_year <= y <= 9999
    /\ 1 <= m <= 12
    /\ 1 <= d <= Calendar.days_in_month y m
    /\ Calendar.days_in_month y m <= 31.
Proof.
  intros Hr. apply transform_In_cleanup in Hr.
  destruct Hr as [c [Hc [Ec _]]]. apply cleanup_In in Hc.
  destruct Hc as [raw [_ [<- N]]]. unfold valid_date_check in N.
  destruct (Calendar.to_date _ _ _) as [n|] eqn:D; [|contradiction].
  apply to_date_Some in D. destruct D as [y [m [d [Ey [Em [Ed [V _]]]]]]].
  apply valid_bounds in V. exists y, m, d. rewrite Ec.
  pose proof (days_in_month_bounds y m). repeat split; try tauto; lia.
Qed.

(** X2.  In every row of the output [day_name_str] is one of the seven
    English day names, and [order_day_type] is ["Weekend"] exactly on
    Saturday and Sunday, ["Weekday"] otherwise. *)
Theorem output_day_names (dims : Dims) (df : list (RawRow F))
  (r : Silver F) :
  In r (transform dims df) ->
  exists name,
    day_name_str (b_seg (body r)) = Some name
    /\ In name day_names
    /\ (order_day_type (b_seg (body r)) = "Weekend"
        <-> name = "Saturday" \/ name = "Sunday")
    /\ (order_day_type (b_seg (body r)) = "Weekday"
        <-> name <> "Saturday" /\ name <> "Sunday").
Proof.
  intros Hr. apply transform_In_cleanup in Hr.
  destruct Hr as [c [Hc [_ [Es _]]]]. apply cleanup_In in Hc.
  destruct Hc as [raw [_ [<- N]]]. unfold valid_date_check in N.
  destruct (Calendar.to_date _ _ _) as [n|] eqn:D; [|contradiction].
  rewrite Es. unfold derive, segments.
  cbn [seg day_name_str order_day_type].
  unfold order_day_type_of, day_name_str_of. rewrite D. cbn [option_map].
  exists (Calendar.day_name n). split; [reflexivity|].
  unfold Calendar.day_name.
  pose proof (Z.mod_pos_bound (n + 4) 7 ltac:(lia)) as B.
  set (i := (n + 4) mod 7) in *.
  assert (Hi : i = 0 \/ i = 1 \/ i = 2 \/ i = 3 \/ i = 4 \/ i = 5 \/ i = 6)
    by lia.
  clearbody i.
  destruct Hi as [->|[->|[->|[->|[->|[->| ->]]]]]]; vm_compute;
    (split; [tauto|]); split; split;
    try (intros [K|K]; discriminate K);
    try (intros [K1 K2]; congruence);
    try (intros K; discriminate K);
    try (intros _; split; intros K; discriminate K);
    try (intros _; tauto).
Qed.

End CleanupFacts.

Lemma output_dates_valid_witness :
  exists r,
    In r (transform Fixture.dims [Fixture.standard_line])
    /\ exists y m d,
         order_year (b_core (body r)) = Some y
         /\ order_month (b_core (body r)) = Some m
         /\ order_day (b_core (body r)) = Some d
         /\ Calendar.min_year <= y <= 9999
         /\ 1 <= m <= 12
         /\ 1 <= d <= Calendar.days_in_month y m
         /\ Calendar.days_in_month y m <= 31.
Proof.
  assert (E : exists r, In r (transform Fixture.dims [Fixture.standard_line])).
  { eexists. vm_compute. left. reflexivity. }
  destruct E as [r Hr]. exists r. split.
  - exact Hr.
  - exact (output_dates_valid Fixture.dims _ r Hr).
Defined.

Lemma output_day_names_witness :
  exists r,
    In r (transform Fixture.dims [Fixture.standard_line])
    /\ exists name,
         day_name_str (b_seg (body r)) = Some name /\ In name day_names.
Proof.
  assert (E : exists r, In r (transform Fixture.dims [Fixture.standard_line])).
  { eexists. vm_compute. left. reflexivity. }
  destruct E as [r Hr]. exists r. split.
  - exact Hr.
  - destruct (output_day_names Fixture.dims _ r Hr) as [name [E1 [E2 _]]].
    exists name. now split.
Defined.

Section UniqueMore.
Context {A : Type} `{EqDec A}.

Lemma unique_from_length (seen df : list A) :
  (List.length (unique_from seen df) <= List.length df)%nat.
Proof.
  revert seen. induction df as [|r rest IH]; intros seen; simpl.
  - lia.
  - destruct (existsb (eqb_of r) seen); simpl.
    + specialize (IH seen). lia.
    + specialize (IH (r :: seen)). lia.
Qed.

Lemma unique_from_same_length (seen df : list A) :
  List.length (unique_from seen df) = List.length df ->
  unique_from seen df = df.
Proof.
  revert seen. induction df as [|r rest IH]; intros seen; simpl.
  - reflexivity.
  - destruct (existsb (eqb_of r) seen); simpl.
    + pose proof (unique_from_length seen rest). lia.
    + intros E. f_equal. apply IH. lia.
Qed.

Lemma unique_from_NoDup_id (seen df : list A) :
  NoDup df -> (forall x, In x df -> ~ In x seen) ->
  unique_from seen df = df.
Proof.
  revert seen. induction df as [|r rest IH]; intros seen N D; simpl.
  - reflexivity.
  - inversion N as [|x l Hr Hrest]; subst.
    rewrite (proj2 (existsb_eqb_of_false r seen)) by (apply D; now left).
    f_equal. apply IH; [exact Hrest|].
    intros x Hx [<-|Hs]; [contradiction|].
    apply (D x); [now right | exact Hs].
Qed.

(** X3.  Deduplication never adds a row, returns the frame as it is exactly
    when the frame has no two identical rows (so the count of dropped rows
    the scripts report is zero exactly then), and deduplicating twice
    changes nothing more. *)
Theorem unique_idempotent (df : list A) :
  (List.length (unique_maintain_order df) <= List.length df)%nat
  /\ (List.length (unique_maintain_order df) = List.length df <-> NoDup df)
  /\ (unique_maintain_order df = df <-> NoDup df)
  /\ unique_maintain_order (unique_maintain_order df)
     = unique_maintain_order df.
Proof.
  unfold unique_maintain_order.
  assert (Id : forall l : list A, NoDup l -> unique_from [] l = l).
  { intros l N. apply unique_from_NoDup_id; [exact N | intros x _ []]. }
  split; [apply unique_from_length|]. split; [|split].
  - split.
    + intros E. apply unique_from_same_length in E. rewrite <- E.
      apply unique_from_NoDup.
    + intros N. now rewrite Id.
  - split.
    + intros E. rewrite <- E. apply unique_from_NoDup.
    + apply Id.
  - apply Id. apply unique_from_NoDup.
Qed.

End UniqueMore.

(** ** Enrichment and the final sort *)

Lemma left_join_keeps {L : Type} (on : L -> Key) (left : list L) (right : Dim)
  (l : L) :
  In l left -> exists p, In p (left_join on left right) /\ fst p = l.
Proof.
  unfold left_join. intros Hl.
  destruct (matches (on l) right) as [|m ms] eqn:M.
  - exists (l, None). split; [|reflexivity].
    apply in_flat_map. exists l. split; [exact Hl|]. rewrite M. now left.
  - exists (l, Some (snd m)). split; [|reflexivity].
    apply in_flat_map. exists l. split; [exact Hl|]. rewrite M. now left.
Qed.

Lemma left_join_length {L : Type} (on : L -> Key) (left : list L) (right : Dim) :
  (List.length left <= List.length (left_join on left right))%nat.
Proof.
  unfold left_join. induction left as [|l left IH].
  - simpl. lia.
  - cbn [flat_map]. rewrite length_app.
    set (n := List.length (flat_map _ left)) in *.
    destruct (matches (on l) right) as [|m ms]; cbn [List.length map]; lia.
Qed.

Section EnrichMore.
Context {F : Type} `{Arith F}.

(** X4.  Whatever the dimension tables hold, the three left joins lose no
    fact row: the enriched frame has at least as many rows as the fact set,
    and every fact row is found in it with its derived columns. *)
Theorem enrichment_never_drops (dims : Dims) (df : list (Fact F)) :
  (List.length df <= List.length (enrich dims df))%nat
  /\ (forall f, In f df ->
      exists r, In r (enrich dims df) /\ body r = body_of f)
  /\ (forall r, In r (enrich dims df) ->
      exists f, In f df /\ body r = body_of f).
Proof.
  split; [|split].
  - unfold enrich.
    rewrite !length_map.
    eapply Nat.le_trans; [|apply left_join_length].
    rewrite length_map.
    eapply Nat.le_trans; [|apply left_join_length].
    rewrite length_map. apply left_join_length.
  - intros f Hf. unfold enrich.
    destruct (left_join_keeps geo_on df (dim_geo dims) f Hf) as [p1 [H1 E1]].
    apply (in_map drop_geo_keys) in H1.
    destruct (left_join_keeps customer_on _ (dim_cust dims) _ H1)
      as [p2 [H2 E2]].
    apply (in_map drop_customer_keys) in H2.
    destruct (left_join_keeps product_on _ (dim_prod dims) _ H2)
      as [p3 [H3 E3]].
    apply (in_map drop_product_keys) in H3.
    exists (drop_product_keys p3). split; [exact H3|].
    simpl. rewrite E3. simpl. rewrite E2. simpl. rewrite E1. reflexivity.
  - intros r Hr. exact (enrich_In dims df r Hr).
Qed.

(** X5.  With unique-keyed dimension tables the output has exactly one row
    per row that passed validation and deduplication, and never more rows
    than the source: the final row count the single-file script prints is
    at most the original one. *)
Theorem output_row_count (dims : Dims) (df : list (RawRow F)) :
  unique_keyed (dim_geo dims) -> unique_keyed (dim_cust dims) ->
  unique_keyed (dim_prod dims) ->
  List.length (transform dims df) = List.length (deduplicate df)
  /\ (List.length (deduplicate df) <= List.length (validate df))%nat
  /\ (List.length (validate df) <= List.length df)%nat.
Proof.
  intros Ug Uc Up. split; [|split].
  - unfold transform, finalize.
    rewrite (Permutation_length (sort_perm _ _)).
    rewrite (enrich_unique dims _ Ug Uc Up), length_map.
    unfold fact_set, with_window_metrics, cleanup.
    now rewrite !length_map.
  - apply unique_from_length.
  - unfold validate.
    eapply Nat.le_trans; [apply filter_length_le|].
    now rewrite length_map.
Qed.

End EnrichMore.

Lemma output_row_count_witness :
  List.length
    (transform Fixture.dims
       [Fixture.standard_line; Fixture.standard_line; Fixture.loss_line])
  = 2%nat.
Proof.
  refine (eq_trans
    (proj1 (output_row_count Fixture.dims
              [Fixture.standard_line; Fixture.standard_line;
               Fixture.loss_line] _ _ _)) _).
  - repeat constructor; simpl; tauto.
  - repeat constructor; simpl; tauto.
  - repeat constructor; simpl; tauto.
  - vm_compute. reflexivity.
Defined.

Section SortSorted.
Context {R : Type}.
Variable leb : R -> R -> bool.
Hypothesis leb_total : forall a b, leb a b = false -> leb b a = true.

Lemma insert_sorted_HdRel (a r : R) (df : list R) :
  leb a r = true ->
  HdRel (fun x y => leb x y = true) a df ->
  HdRel (fun x y => leb x y = true) a (insert_sorted leb r df).
Proof.
  intros Har Hd. destruct df as [|x rest]; simpl.
  - now constructor.
  - destruct (leb r x); constructor; [exact Har|].
    now inversion Hd.
Qed.

Lemma insert_sorted_Sorted (r : R) (df : list R) :
  Sorted (fun x y => leb x y = true) df ->
  Sorted (fun x y => leb x y = true) (insert_sorted leb r df).
Proof.
  induction 1 as [|x rest Hs IH Hd]; simpl.
  - repeat constructor.
  - destruct (leb r x) eqn:E.
    + constructor; [now constructor | now constructor].
    + constructor; [exact IH|].
      apply insert_sorted_HdRel; [now apply leb_total | exact Hd].
Qed.

Lemma sort_Sorted (df : list R) :
  Sorted (fun x y => leb x y = true) (sort leb df).
Proof.
  induction df as [|r rest IH]; simpl.
  - constructor.
  - now apply insert_sorted_Sorted.
Qed.

End SortSorted.

Lemma cell_compare_opp (a b : option Z) :
  cell_compare b a = CompOpp (cell_compare a b).
Proof.
  destruct a, b; simpl; try reflexivity. apply Z.compare_antisym.
Qed.

Lemma cell_compare_Eq (a b : option Z) : cell_compare a b = Eq -> a = b.
Proof.
  destruct a, b; simpl; try discriminate; try reflexivity.
  intros E. apply Z.compare_eq in E. now subst.
Qed.

Lemma cell_compare_Lt_trans (a b c : option Z) :
  cell_compare a b = Lt -> cell_compare b c = Lt -> cell_compare a c = Lt.
Proof.
  destruct a, b, c; simpl; try discriminate; try reflexivity.
  rewrite !Z.compare_lt_iff. lia.
Qed.

Lemma lex_leb_total (a b : list (option Z)) :
  lex_leb a b = false -> lex_leb b a = true.
Proof.
  revert b. induction a as [|x a IH]; intros [|y b]; simpl; try discriminate.
  rewrite (cell_compare_opp x y).
  destruct (cell_compare x y); simpl; try discriminate; try reflexivity.
  apply IH.
Qed.

Lemma lex_leb_trans (a b c : list (option Z)) :
  List.length a = List.length b -> List.length b = List.length c ->
  lex_leb a b = true -> lex_leb b c = true -> lex_leb a c = true.
Proof.
  revert b c. induction a as [|x a IH]; intros [|y b] [|z c]; simpl;
    try discriminate; try reflexivity.
  intros L1 L2.
  destruct (cell_compare x y) eqn:Exy; try discriminate;
    destruct (cell_compare y z) eqn:Eyz; try discriminate.
  - apply cell_compare_Eq in Exy. subst y. rewrite Eyz.
    apply IH; lia.
  - apply cell_compare_Eq in Exy. subst y. now rewrite Eyz.
  - apply cell_compare_Eq in Eyz. subst z. now rewrite Exy.
  - now rewrite (cell_compare_Lt_trans x y z Exy Eyz).
Qed.

(** X6.  The rows of the output are the rows of the enriched frame, each as
    many times, in ascending order of (order_year, order_month, order_day,
    order_item_quantity) with nulls first: every row is below, in this
    order, all the rows that come after it. *)
Theorem output_sorted {F : Type} `{Arith F} (df : list (Silver F)) :
  Permutation (finalize df) df
  /\ StronglySorted (fun a b => sort_leb a b = true) (finalize df).
Proof.
  split.
  - apply sort_perm.
  - apply Sorted_StronglySorted.
    + intros a b c Hab Hbc. unfold sort_leb in *.
      apply (lex_leb_trans _ (sort_key b)); [reflexivity | reflexivity | |];
        assumption.
    + apply (sort_Sorted (fun a b => lex_leb (sort_key a) (sort_key b))).
      intros a b. apply lex_leb_total.
Qed.

(** ** Row-wise features *)

Lemma wrap64_range (z : Z) : - 2 ^ 63 <= wrap64 z < 2 ^ 63.
Proof.
  unfold wrap64.
  pose proof (Z.mod_pos_bound (z + 2 ^ 63) (2 ^ 64) ltac:(lia)). lia.
Qed.

Lemma wrap64_small (z : Z) : - 2 ^ 63 <= z < 2 ^ 63 -> wrap64 z = z.
Proof.
  intros B. unfold wrap64. rewrite Z.mod_small; lia.
Qed.

Section FeatureFacts.
Context {F : Type} `{Arith F}.

(** X7.  When both day counts are present and their difference fits in 64
    bits, [shipping_delta] is that difference and [delivery_class] compares
    the two counts: ["Early"] when the real days are fewer than the
    scheduled ones, ["On Time"] when they are equal, ["Late"] when they are
    more.  In every case a non-null [shipping_delta] is a 64-bit integer. *)
Theorem delivery_class_compares (c : Clean F) (real scheduled : Z) :
  days_for_shipping_real (core c) = Some real ->
  days_for_shipment_scheduled (core c) = Some scheduled ->
  (exists delta,
     shipping_delta (ops (derive c)) = Some delta
     /\ - 2 ^ 63 <= delta < 2 ^ 63)
  /\ (- 2 ^ 63 <= real - scheduled < 2 ^ 63 ->
      shipping_delta (ops (derive c)) = Some (real - scheduled)
      /\ (delivery_class (seg (derive c)) = "Early" <-> real < scheduled)
      /\ (delivery_class (seg (derive c)) = "On Time" <-> real = scheduled)
      /\ (delivery_class (seg (derive c)) = "Late" <-> scheduled < real)).
Proof.
  intros Er Es. unfold derive, segments, operational.
  cbn [ops seg shipping_delta delivery_class]. rewrite Er, Es.
  cbn [lift2]. split.
  - eexists. split; [reflexivity | apply wrap64_range].
  - intros B. rewrite (wrap64_small _ B). split; [reflexivity|].
    unfold delivery_class_of, when_then. cbn [lift2].
    destruct (real - scheduled <? 0) eqn:L.
    + apply Z.ltb_lt in L. (repeat apply conj); intros K;
        first [reflexivity | discriminate K | lia | (exfalso; lia)].
    + apply Z.ltb_ge in L. destruct (real - scheduled =? 0) eqn:E.
      * apply Z.eqb_eq in E. (repeat apply conj); intros K;
          first [reflexivity | discriminate K | lia | (exfalso; lia)].
      * apply Z.eqb_neq in E. (repeat apply conj); intros K;
          first [reflexivity | discriminate K | lia | (exfalso; lia)].
Qed.

(** X8.  The chain of [shipping_mode_clean] takes its first true branch:
    0 scheduled days give ["Same Day"], any other count up to 2, a negative
    one included, ["First Class"], exactly 3 ["Second Class"], and every
    count above 3 ["Standard Class"]. *)
Theorem shipping_mode_clean_cases (c : Clean F) (n : Z) :
  days_for_shipment_scheduled (core c) = Some n ->
  (shipping_mode_clean (seg (derive c)) = "Same Day" <-> n = 0)
  /\ (shipping_mode_clean (seg (derive c)) = "First Class"
      <-> n <= 2 /\ n <> 0)
  /\ (shipping_mode_clean (seg (derive c)) = "Second Class" <-> n = 3)
  /\ (shipping_mode_clean (seg (derive c)) = "Standard Class" <-> 3 < n).
Proof.
  intros E. unfold derive, segments. cbn [seg shipping_mode_clean].
  rewrite E. unfold shipping_mode_clean_of, when_then. cbn [lift2].
  destruct (n =? 0) eqn:E0.
  - apply Z.eqb_eq in E0. (repeat apply conj); intros K;
      first [reflexivity | discriminate K | lia | (exfalso; lia)].
  - apply Z.eqb_neq in E0. destruct (n <=? 2) eqn:E2.
    + apply Z.leb_le in E2. (repeat apply conj); intros K;
        first [reflexivity | discriminate K | lia | (exfalso; lia)].
    + apply Z.leb_gt in E2. destruct (n =? 3) eqn:E3.
      * apply Z.eqb_eq in E3. (repeat apply conj); intros K;
          first [reflexivity | discriminate K | lia | (exfalso; lia)].
      * apply Z.eqb_neq in E3. (repeat apply conj); intros K;
          first [reflexivity | discriminate K | lia | (exfalso; lia)].
Qed.

(** X9.  [trade_route] is null exactly when one of [customer_country],
    [customer_state] and [order_country] is null: the concatenation never
    fills a missing part in. *)
Theorem trade_route_null (c : Clean F) :
  trade_route (seg (derive c)) = None
  <-> customer_country (customer_keys c) = None
      \/ customer_state (customer_keys c) = None
      \/ order_country (geo_keys c) = None.
Proof.
  unfold derive, segments. cbn [seg trade_route]. unfold trade_route_of.
  destruct (customer_country (customer_keys c)),
    (customer_state (customer_keys c)), (order_country (geo_keys c));
    simpl; split; intros K; try discriminate K; try reflexivity;
    try tauto;
    destruct K as [K|[K|K]]; discriminate K.
Qed.

End FeatureFacts.

Lemma delivery_class_compares_witness :
  delivery_class (seg (derive (kept Fixture.standard_line))) = "Early".
Proof.
  refine (proj2 (proj1 (proj2 (proj2
    (delivery_class_compares (kept Fixture.standard_line) 3 4
       eq_refl eq_refl) _))) _).
  - lia.
  - reflexivity.
Defined.

Lemma shipping_mode_clean_cases_witness :
  shipping_mode_clean (seg (derive (kept Fixture.standard_line)))
  = "Standard Class".
Proof.
  refine (proj2 (proj2 (proj2 (proj2
    (shipping_mode_clean_cases (kept Fixture.standard_line) 4 eq_refl)))) _).
  reflexivity.
Defined.

(** ** [str.replace] on the country *)

Lemma match_prefix_split (re : Regex.t) (s rest : string) :
  Regex.match_prefix re s = Some rest ->
  exists m, s = m ++ rest /\ String.length m = List.length re.
Proof.
  revert s. induction re as [|a re IH]; intros s; simpl.
  - intros E. injection E as <-. now exists "".
  - destruct s as [|c s]; [discriminate|].
    destruct (Regex.atom_matches a c); [|discriminate].
    intros E. apply IH in E. destruct E as [m [-> L]].
    exists (String c m). simpl. now rewrite L.
Qed.

Lemma replace_first_one_place (re : Regex.t) (value s : string) :
  Regex.replace_first re value s = s
  \/ exists p m q,
       s = p ++ m ++ q
       /\ String.length m = List.length re
       /\ Regex.match_prefix re (m ++ q) = Some q
       /\ (forall p1 p2,
             p = p1 ++ p2 -> p2 <> "" ->
             Regex.match_prefix re (p2 ++ m ++ q) = None)
       /\ Regex.replace_first re value s = p ++ value ++ q.
Proof.
  induction s as [|c s IH].
  - simpl. destruct (Regex.match_prefix re "") as [rest|] eqn:M;
      [|now left].
    right. destruct (match_prefix_split re "" rest M) as [m [E L]].
    exists "", m, rest. simpl. rewrite <- E. repeat split; try assumption.
    intros p1 p2 Hp N. destruct p1; [simpl in Hp; now subst | discriminate].
  - cbn [Regex.replace_first].
    destruct (Regex.match_prefix re (String c s)) as [rest|] eqn:M.
    + right. destruct (match_prefix_split re _ rest M) as [m [E L]].
      exists "", m, rest. simpl. rewrite <- E. repeat split; try assumption.
      intros p1 p2 Hp N. destruct p1; [simpl in Hp; now subst | discriminate].
    + destruct IH as [IH|[p [m [q [E [L [Mq [First R]]]]]]]].
      * left. now rewrite IH.
      * right. exists (String c p), m, q. simpl. rewrite R.
        repeat split; try assumption.
        -- now rewrite E.
        -- intros p1 p2 Hp N. destruct p1 as [|c1 p1]; simpl in Hp.
           ++ subst p2. simpl. rewrite <- E. exact M.
           ++ injection Hp as _ Hp. exact (First p1 p2 Hp N).
Qed.

(** X10.  The normalisation of [customer_country] changes at most one place
    of the value: either the value is returned as it is, or exactly one
    stretch of seven characters, the leftmost one the pattern matches, is
    replaced by ["USA"] and everything before and after it is kept. *)
Theorem normalize_one_place (s : string) :
  normalize s = s
  \/ exists p m q,
       s = p ++ m ++ q
       /\ String.length m = 7%nat
       /\ Regex.match_prefix (Regex.compile "EE. UU.") (m ++ q) = Some q
       /\ (forall p1 p2,
             p = p1 ++ p2 -> p2 <> "" ->
             Regex.match_prefix (Regex.compile "EE. UU.") (p2 ++ m ++ q)
             = None)
       /\ normalize s = p ++ "USA" ++ q.
Proof.
  unfold normalize.
  destruct (replace_first_one_place (Regex.compile "EE. UU.") "USA" s)
    as [E|[p [m [q K]]]]; [now left|].
  right. exists p, m, q. exact K.
Qed.

(** ** Window metrics *)

Section WindowMore.
Context {F : Type} `{Arith F}.

(** X11.  Every row of the fact set counts itself: [state_order_count] is
    at least 1 and at most the number of rows, and two rows with the same
    [order_state] (null included) receive the same count and the same
    [state_density_class]. *)
Theorem state_count_broadcast (df : list (Derived F)) (r : Fact F) :
  In r (with_window_metrics df) ->
  1 <= state_order_count (win r) <= Z.of_nat (List.length df)
  /\ (forall r',
        In r' (with_window_metrics df) ->
        f_order_state r' = f_order_state r ->
        state_order_count (win r') = state_order_count (win r)
        /\ state_density_class (win r') = state_density_class (win r)).
Proof.
  intros Hr. apply with_window_metrics_In in Hr. destruct Hr as [Hd Hw].
  split.
  - rewrite Hw. unfold window_metrics. cbn [state_order_count].
    rewrite count_over_partition. split.
    + assert (Hp : In (derived r)
                     (partition d_order_state (d_order_state (derived r)) df))
        by (apply partition_In; now split).
      destruct (partition d_order_state _ df); [destruct Hp|].
      cbn [List.length]. lia.
    + unfold partition. pose proof (filter_length_le
        (fun d => eqb_of (d_order_state d) (d_order_state (derived r))) df).
      lia.
  - intros r' Hr' E. apply with_window_metrics_In in Hr'.
    destruct Hr' as [_ Hw']. rewrite Hw, Hw'. unfold window_metrics.
    cbn [state_order_count state_density_class].
    rewrite !count_over_partition.
    unfold f_order_state in E. rewrite E. now split.
Qed.

End WindowMore.

Lemma state_count_broadcast_witness :
  exists r,
    In r (fact_set [Fixture.standard_line; Fixture.second_line])
    /\ 1 <= state_order_count (win r) <= 2.
Proof.
  pose (df := map derive
                (cleanup [Fixture.standard_line; Fixture.second_line])).
  assert (E : exists r, In r (with_window_metrics df)).
  { eexists. vm_compute. left. reflexivity. }
  destruct E as [r Hr]. exists r. split; [exact Hr|].
  exact (proj1 (state_count_broadcast df r Hr)).
Defined.

(** ** The batch coordinator, run after run *)

Lemma filter_filter {A : Type} (f g : A -> bool) (l : list A) :
  filter f (filter g l) = filter (fun x => g x && f x) l.
Proof.
  induction l as [|x l IH]; simpl.
  - reflexivity.
  - destruct (g x); simpl; [destruct (f x)|]; now rewrite IH.
Qed.

Lemma filter_all {A : Type} (f : A -> bool) (l : list A) :
  (forall x, In x l -> f x = true) -> filter f l = l.
Proof.
  induction l as [|x l IH]; simpl; intros K.
  - reflexivity.
  - rewrite (K x (or_introl eq_refl)). f_equal. apply IH.
    intros y Hy. apply K. now right.
Qed.

Lemma filter_none {A : Type} (f : A -> bool) (l : list A) :
  (forall x, In x l -> f x = false) -> filter f l = [].
Proof.
  induction l as [|x l IH]; simpl; intros K.
  - reflexivity.
  - rewrite (K x (or_introl eq_refl)). apply IH.
    intros y Hy. apply K. now right.
Qed.

Lemma present_In (name : string) (dir : list string) :
  present name dir = true <-> In name dir.
Proof.
  unfold present. rewrite existsb_exists. split.
  - intros [x [Hx E]]. apply String.eqb_eq in E. now subst.
  - intros Hn. exists name. split; [exact Hn | apply String.eqb_refl].
Qed.

Section BatchMore.
Context {F : Type} `{Arith F}.

Lemma process_each_bronze (w : World F) (files : list string) (lake : Lake F) :
  bronze (fst (process_each w lake files))
  = filter (fun n => negb (present n files && archived_ok w n)) (bronze lake).
Proof.
  revert lake. induction files as [|f rest IH]; intros lake.
  - simpl. symmetry. apply filter_all. reflexivity.
  - cbn [process_each].
    destruct (process_file_effect w lake f) as [_ [Eb _]].
    destruct (process_file w lake f) as [lake1 o]. cbn [fst snd] in *.
    specialize (IH lake1).
    destruct (process_each w lake1 rest) as [lake2 log]. cbn [fst snd] in *.
    rewrite IH, Eb. destruct (archived_ok w f) eqn:Af.
    + unfold remove_file. rewrite filter_filter. apply filter_ext.
      intros n. unfold present. cbn [existsb].
      destruct (String.eqb_spec n f) as [->|N]; simpl.
      * now rewrite Af.
      * reflexivity.
    + apply filter_ext. intros n. unfold present. cbn [existsb].
      destruct (String.eqb_spec n f) as [->|N]; simpl.
      * rewrite Af. now rewrite !andb_false_r.
      * reflexivity.
Qed.

Lemma process_each_unwritten (w : World F) (files : list string)
  (lake : Lake F) :
  (forall f, In f files -> written_ok w f = false) ->
  fst (process_each w lake files) = lake.
Proof.
  revert lake. induction files as [|f rest IH]; intros lake K.
  - reflexivity.
  - cbn [process_each].
    assert (E : fst (process_file w lake f) = lake).
    { pose proof (K f (or_introl eq_refl)) as Wf.
      unfold written_ok in Wf. unfold process_file, library_failure.
      destruct (read_csv w f); [|reflexivity].
      destruct (read_dims w f); [|reflexivity].
      destruct (write_parquet w f); [discriminate | reflexivity]. }
    destruct (process_file w lake f) as [lake1 o]. cbn [fst] in E. subst lake1.
    specialize (IH lake (fun g Hg => K g (or_intror Hg))).
    destruct (process_each w lake rest) as [lake2 log]. exact IH.
Qed.

(** X13.  After a run of the batch, Bronze holds the files that the loop
    did not reach and those it reached and did not archive, in their order.
    When no failure is a panic of the library these are exactly the files
    that were not archived, and a second run in the same conditions looks
    at those files only; when every file was archived it finds Bronze empty
    and does nothing. *)
Theorem batch_is_idempotent (w : World F) (lake : Lake F) :
  let lake1 := fst (run_batch w lake) in
  let seen := reached w (bronze lake) in
  bronze lake1
  = filter (fun n => negb (present n seen && archived_ok w n)) (bronze lake)
  /\ ((forall f, In f (bronze lake) -> aborts w f = false) ->
      bronze lake1 = filter (fun n => negb (archived_ok w n)) (bronze lake)
      /\ map fst (snd (run_batch w lake1))
         = filter (fun n => negb (archived_ok w n)) (bronze lake))
  /\ ((forall f, In f (bronze lake) -> archived_ok w f = true) ->
      bronze lake1 = [] /\ run_batch w lake1 = (lake1, [])).
Proof.
  cbv zeta.
  assert (E : bronze (fst (run_batch w lake))
              = filter (fun n => negb (present n (reached w (bronze lake))
                                       && archived_ok w n)) (bronze lake)).
  { unfold run_batch. rewrite process_files_reached.
    apply process_each_bronze. }
  assert (E' : (forall f, In f (bronze lake) -> aborts w f = false) ->
               bronze (fst (run_batch w lake))
               = filter (fun n => negb (archived_ok w n)) (bronze lake)).
  { intros K. rewrite E, (reached_all w _ K).
    apply filter_ext_in. intros n Hn.
    now rewrite (proj2 (present_In n (bronze lake)) Hn). }
  split; [exact E|]. split.
  - intros K. split; [now apply E'|].
    unfold run_batch at 1. rewrite process_files_reached.
    rewrite (proj1 (process_each_effect w _ _)), map_map. cbn [fst].
    rewrite map_id. rewrite reached_all; [now apply E'|].
    intros f Hf. apply K. rewrite (E' K) in Hf.
    now apply filter_In in Hf.
  - intros K.
    assert (E0 : bronze (fst (run_batch w lake)) = []).
    { rewrite E'.
      - apply filter_none. intros n Hn. now rewrite (K n Hn).
      - intros f Hf. apply archived_not_aborts. now apply K. }
    split; [exact E0|]. unfold run_batch at 1. now rewrite E0.
Qed.

(** X14.  A run in which no file gets as far as a successful write leaves
    the lake exactly as it was: no artifact is created or replaced, no file
    leaves Bronze, nothing enters the archive.  Every file the loop reaches
    is reported as skipped, but for the one that ends the run. *)
Theorem batch_without_write_changes_nothing (w : World F) (lake : Lake F) :
  (forall f, In f (bronze lake) -> written_ok w f = false) ->
  fst (run_batch w lake) = lake
  /\ snd (run_batch w lake)
     = map (fun f => (f, if panics w f then Aborted else Skipped))
         (reached w (bronze lake)).
Proof.
  intros K. unfold run_batch. rewrite process_files_reached. split.
  - apply process_each_unwritten. intros f Hf. apply K.
    now apply reached_In in Hf.
  - rewrite (proj1 (process_each_effect w _ _)).
    apply map_ext_in. intros f Hf. apply reached_In in Hf.
    unfold outcome_of, archived_ok, aborts. now rewrite (K f Hf).
Qed.

End BatchMore.

Lemma batch_without_write_changes_nothing_witness :
  fst (run_batch Fixture.unreadable_world (Fixture.lake ["a.csv"; "b.csv"]))
  = Fixture.lake ["a.csv"; "b.csv"]
  /\ snd (run_batch Fixture.unreadable_world
            (Fixture.lake ["a.csv"; "b.csv"; "c.csv"]))
     = [("a.csv", Skipped); ("b.csv", Aborted)].
Proof.
  split.
  - apply (batch_without_write_changes_nothing Fixture.unreadable_world
             (Fixture.lake ["a.csv"; "b.csv"])).
    intros f _. reflexivity.
  - refine (eq_trans
      (proj2 (batch_without_write_changes_nothing Fixture.unreadable_world
                (Fixture.lake ["a.csv"; "b.csv"; "c.csv"]) _)) _).
    + intros f _. reflexivity.
    + reflexivity.
Defined.

(** ** Names of artifacts and archive copies *)

Lemma list_ascii_of_string_app (a b : string) :
  list_ascii_of_string (a ++ b)
  = (list_ascii_of_string a ++ list_ascii_of_string b)%list.
Proof.
  induction a as [|c a IH]; simpl; [reflexivity | now rewrite IH].
Qed.

Lemma string_of_list_ascii_app (a b : list ascii) :
  string_of_list_ascii (a ++ b)%list
  = string_of_list_ascii a ++ string_of_list_ascii b.
Proof.
  induction a as [|c a IH]; simpl; [reflexivity | now rewrite IH].
Qed.

Lemma string_append_inv_tail (a b x : string) : a ++ x = b ++ x -> a = b.
Proof.
  intros E. apply (f_equal list_ascii_of_string) in E.
  rewrite !list_ascii_of_string_app in E. apply app_inv_tail in E.
  apply (f_equal string_of_list_ascii) in E.
  now rewrite !string_of_list_ascii_of_string in E.
Qed.

Lemma string_append_inv_head (x a b : string) : x ++ a = x ++ b -> a = b.
Proof.
  induction x as [|c x IH]; simpl; intros E; [exact E|].
  injection E as E. now apply IH.
Qed.

Lemma split_last_dot_app (l1 l2 root ext : list ascii) :
  Path.split_last_dot l2 = Some (root, ext) ->
  Path.split_last_dot (l1 ++ l2)%list = Some ((l1 ++ root)%list, ext).
Proof.
  intros E. induction l1 as [|c l1 IH]; simpl.
  - exact E.
  - now rewrite IH.
Qed.

Lemma all_dots_plain (stem : string) :
  plain_stem stem -> Path.all_dots (list_ascii_of_string stem) = false.
Proof.
  destruct stem as [|c stem]; simpl; [intros []|].
  intros N. apply andb_false_iff. left. now apply Ascii.eqb_neq.
Qed.

Lemma splitext_csv (stem : string) :
  plain_stem stem -> Path.splitext (csv_name stem) = (stem, ".csv").
Proof.
  intros P. unfold Path.splitext, csv_name.
  rewrite list_ascii_of_string_app.
  rewrite (split_last_dot_app _ (list_ascii_of_string ".csv") []
             (list_ascii_of_string ".csv") eq_refl).
  rewrite app_nil_r, (all_dots_plain stem P).
  now rewrite string_of_list_ascii_of_string.
Qed.

(** X15.  For a Bronze file [stem.csv] whose stem is not empty and does not
    begin with a dot, the artifact is [Fact_stem.parquet] and the archive
    copy is [stem_timestamp.csv], under the batch script and under the
    single-file script alike; two such files with different stems never
    write the same artifact. *)
Theorem names_of_csv_files (stem : string) :
  plain_stem stem ->
  output_name (csv_name stem) = "Fact_" ++ stem ++ ".parquet"
  /\ (forall timestamp,
        archive_name (csv_name stem) timestamp
        = stem ++ "_" ++ timestamp ++ ".csv"
        /\ single_archive_name (csv_name stem) timestamp
           = archive_name (csv_name stem) timestamp)
  /\ (forall other,
        plain_stem other ->
        output_name (csv_name stem) = output_name (csv_name other) ->
        stem = other).
Proof.
  intros P. unfold output_name, archive_name, single_archive_name.
  rewrite (splitext_csv stem P). cbn [fst snd].
  split; [reflexivity|]. split.
  - intros timestamp. split; reflexivity.
  - intros other Q. rewrite (splitext_csv other Q). cbn [fst].
    intros E. apply string_append_inv_head in E.
    now apply string_append_inv_tail in E.
Qed.

Lemma names_of_csv_files_witness :
  output_name "orders_2017.csv" = "Fact_orders_2017.parquet".
Proof.
  apply (proj1 (names_of_csv_files "orders_2017" ltac:(discriminate))).
Defined.

(** ** What the artifacts hold *)

Lemma write_file_keeps {A : Type} (name n : string) (content c : A)
  (dir : list (string * A)) :
  In (n, c) dir -> n <> name -> In (n, c) (write_file name content dir).
Proof.
  intros Hn N. unfold write_file. right. apply filter_In. split; [exact Hn|].
  simpl. apply negb_true_iff. now apply String.eqb_neq.
Qed.

Section ArtifactFacts.
Context {F : Type} `{Arith F}.

Lemma process_file_silver (w : World F) (lake : Lake F) (f : string) :
  (forall n c,
     In (n, c) (silver lake) -> n <> output_name f ->
     In (n, c) (silver (fst (process_file w lake f))))
  /\ (written_ok w f = true ->
      exists df dims,
        read_csv w f = Some df /\ read_dims w f = Some dims
        /\ In (output_name f, transform dims df)
             (silver (fst (process_file w lake f)))).
Proof.
  unfold process_file, library_failure, written_ok, transform.
  destruct (read_csv w f) as [df|], (read_dims w f) as [dims|],
    (write_parquet w f), (move w f);
    cbn [fst snd silver andb is_not_null]; split;
    try (intros n c Hn N; first [exact Hn | now apply write_file_keeps]);
    try (intros K; discriminate K);
    intros _; exists df, dims; repeat split; now left.
Qed.

Lemma process_each_keeps (w : World F) (files : list string) (lake : Lake F)
  (n : string) (c : list (Silver F)) :
  (forall f, In f files -> n <> output_name f) ->
  In (n, c) (silver lake) ->
  In (n, c) (silver (fst (process_each w lake files))).
Proof.
  revert lake. induction files as [|f rest IH]; intros lake K Hn.
  - exact Hn.
  - cbn [process_each].
    pose proof (proj1 (process_file_silver w lake f) n c Hn
                  (K f (or_introl eq_refl))) as H1.
    destruct (process_file w lake f) as [lake1 o]. cbn [fst] in H1.
    specialize (IH lake1 (fun g Hg => K g (or_intror Hg)) H1).
    destruct (process_each w lake1 rest) as [lake2 log]. exact IH.
Qed.

Lemma process_each_holds (w : World F) (files : list string) (lake : Lake F) :
  NoDup (map output_name files) ->
  forall f,
    In f files -> written_ok w f = true ->
    exists df dims,
      read_csv w f = Some df /\ read_dims w f = Some dims
      /\ In (output_name f, transform dims df)
           (silver (fst (process_each w lake files))).
Proof.
  revert lake.
  induction files as [|g rest IH]; intros lake N f Hf Wf; [destruct Hf|].
  cbn [map] in N. inversion N as [|x l Hg Hrest]; subst.
  cbn [process_each].
  pose proof (process_file_silver w lake g) as [_ Hw].
  destruct (process_file w lake g) as [lake1 o]. cbn [fst] in Hw.
  destruct Hf as [->|Hf].
  - destruct (Hw Wf) as [df [dims [Er [Ed Hin]]]].
    exists df, dims. repeat split; try assumption.
    pose proof (process_each_keeps w rest lake1 _ _
      (fun h Hh E => Hg (eq_ind_r (fun v => In v (map output_name rest))
                           (in_map output_name rest h Hh) E)) Hin) as K.
    destruct (process_each w lake1 rest) as [lake2 log]. exact K.
  - specialize (IH lake1 Hrest f Hf Wf).
    destruct (process_each w lake1 rest) as [lake2 log]. exact IH.
Qed.

(** X16.  When the files of a batch have pairwise different artifact names,
    the artifact of every file that the loop reached and wrote holds, at the
    end of the run, the transformed frame of that very file: no later file
    of the batch has replaced it. *)
Theorem artifacts_hold_their_file (w : World F) (lake : Lake F) :
  NoDup (map output_name (bronze lake)) ->
  forall f,
    In f (reached w (bronze lake)) -> written_ok w f = true ->
    exists df dims,
      read_csv w f = Some df /\ read_dims w f = Some dims
      /\ In (output_name f, transform dims df)
           (silver (fst (run_batch w lake))).
Proof.
  intros N f Hf Wf. unfold run_batch. rewrite process_files_reached.
  apply process_each_holds; try assumption.
  destruct (reached_prefix w (bronze lake)) as [rest E].
  rewrite E, map_app in N. now apply NoDup_app_remove_r in N.
Qed.

End ArtifactFacts.

Lemma artifacts_hold_their_file_witness :
  exists df dims,
    read_csv Fixture.world "c.csv" = Some df
    /\ read_dims Fixture.world "c.csv" = Some dims
    /\ In (output_name "c.csv", transform dims df)
         (silver
            (fst (run_batch Fixture.world
                    (Fixture.lake ["a.csv"; "b.csv"; "c.csv"])))).
Proof.
  apply (artifacts_hold_their_file Fixture.world
           (Fixture.lake ["a.csv"; "b.csv"; "c.csv"])).
  - vm_compute. repeat constructor; simpl; intuition discriminate.
  - vm_compute. tauto.
  - reflexivity.
Defined.

(** ** The single-file script *)

Section SingleFacts.
Context {F : Type} `{Arith F}.

Lemma run_single_file_effect (w : World F) (makedirs_ok : bool)
  (source target : string) (lake : Lake F) :
  let r := run_single_file w makedirs_ok source target lake in
  let ok := single_ok_test w makedirs_ok source lake in
  snd r = (if ok then Archived else Skipped)
  /\ bronze (fst r)
     = (if ok then remove_file source (bronze lake) else bronze lake)
  /\ archive (fst r)
     = (if ok
        then single_archive_name source (now w source) :: archive lake
        else archive lake)
  /\ (ok = true -> In target (map fst (silver (fst r)))).
Proof.
  cbv zeta. unfold run_single_file, single_ok_test, written_ok.
  destruct (present source (bronze lake)),
    (read_csv w source) as [df|], (read_dims w source) as [dims|],
    (write_parquet w source), makedirs_ok, (move w source);
    cbn [fst snd bronze archive silver andb is_not_null];
    repeat split; try (intros K; discriminate K).
  intros _. apply write_file_names. now left.
Qed.

(** X17.  The single-file run moves its source to the archive only after
    the target artifact is written and the archive folder is there; a run
    that does not archive leaves Bronze and the archive as they were; and
    once the source is archived a second run finds no source and changes
    nothing. *)
Theorem single_file_archives_once (w : World F) (makedirs_ok : bool)
  (source target : string) (lake : Lake F) :
  let lake1 := fst (run_single_file w makedirs_ok source target lake) in
  let o := snd (run_single_file w makedirs_ok source target lake) in
  (o = Archived ->
   In source (bronze lake)
   /\ written_ok w source = true /\ makedirs_ok = true
   /\ move w source = true
   /\ ~ In source (bronze lake1)
   /\ In target (map fst (silver lake1))
   /\ archive lake1
      = single_archive_name source (now w source) :: archive lake
   /\ run_single_file w makedirs_ok source target lake1 = (lake1, Skipped))
  /\ (o = Skipped ->
      bronze lake1 = bronze lake /\ archive lake1 = archive lake)
  /\ (In source (bronze lake) -> written_ok w source = true ->
      makedirs_ok = true -> move w source = true -> o = Archived).
Proof.
  cbv zeta.
  destruct (run_single_file_effect w makedirs_ok source target lake)
    as [Eo [Eb [Ea Es]]]. cbv zeta in *.
  set (r := run_single_file w makedirs_ok source target lake) in *.
  destruct (single_ok_test w makedirs_ok source lake) eqn:Ok.
  - unfold single_ok_test in Ok. rewrite !andb_true_iff in Ok.
    destruct Ok as [[[P W] M] V]. apply present_In in P.
    split; [|split].
    + intros _. repeat split; try assumption.
      * rewrite Eb. intros K. apply remove_file_In in K. now destruct K.
      * now apply Es.
      * unfold run_single_file.
        assert (N : present source (bronze (fst r)) = false).
        { destruct (present source (bronze (fst r))) eqn:Q; [|reflexivity].
          apply present_In in Q. rewrite Eb in Q.
          apply remove_file_In in Q. now destruct Q. }
        now rewrite N.
    + intros K. rewrite Eo in K. discriminate K.
    + intros _ _ _ _. exact Eo.
  - split; [|split].
    + intros K. rewrite Eo in K. discriminate K.
    + intros _. now split.
    + intros P W M V. exfalso. unfold single_ok_test in Ok.
      apply present_In in P. rewrite P, W, M, V in Ok. discriminate Ok.
Qed.

End SingleFacts.

Lemma single_file_archives_once_witness :
  snd (single_file_pipeline Sample.all_fine true
         (Fixture.lake [SOURCE_FILE_NAME]))
  = Archived.
Proof.
  unfold single_file_pipeline.
  apply (proj2 (proj2 (single_file_archives_once Sample.all_fine true
           SOURCE_FILE_NAME TARGET_FILE_NAME
           (Fixture.lake [SOURCE_FILE_NAME])))).
  - simpl. tauto.
  - reflexivity.
  - reflexivity.
  - reflexivity.
Defined.

(** ** The fact loader *)

Section LoaderFacts.
Context {F : Type}.

Lemma load_file_effect (w : LoadWorld) (wh : Warehouse F)
  (file : string * list (Silver F)) :
  fact_sales (fst (load_file w wh file))
  = (fact_sales wh ++ appended_rows w file)%list
  /\ pending (fst (load_file w wh file))
     = (if load_archived w (fst file)
        then remove_entry (fst file) (pending wh) else pending wh)
  /\ archive_silver (fst (load_file w wh file))
     = (if load_archived w (fst file)
        then loaded_name (fst file) (lw_now w (fst file)) :: archive_silver wh
        else archive_silver wh)
  /\ snd (load_file w wh file)
     = (if load_archived w (fst file) then Archived else Skipped).
Proof.
  unfold load_file, appended_rows, load_archived.
  destruct (lw_read_parquet w (fst file)), (lw_to_sql w (fst file)),
    (lw_makedirs w (fst file)), (lw_move w (fst file));
    cbn [fst snd fact_sales pending archive_silver andb];
    rewrite ?app_nil_r; repeat split.
Qed.

Lemma load_files_effect (w : LoadWorld) (files : list (string * list (Silver F)))
  (wh : Warehouse F) :
  fact_sales (fst (load_files w wh files))
  = (fact_sales wh ++ flat_map (appended_rows w) files)%list
  /\ pending (fst (load_files w wh files))
     = filter (fun e => negb (named_in files (fst e)
                              && load_archived w (fst e)))
         (pending wh)
  /\ (forall a,
        In a (archive_silver (fst (load_files w wh files)))
        <-> In a (archive_silver wh)
            \/ exists file,
                 In file files /\ load_archived w (fst file) = true
                 /\ a = loaded_name (fst file) (lw_now w (fst file)))
  /\ snd (load_files w wh files)
     = map (fun file =>
              (fst file,
               if load_archived w (fst file) then Archived else Skipped))
         files.
Proof.
  revert wh. induction files as [|file rest IH]; intros wh.
  - simpl. rewrite app_nil_r. repeat split; try tauto.
    + symmetry. now apply filter_all.
    + intros [K|[f [[] _]]]. exact K.
  - cbn [load_files].
    destruct (load_file_effect w wh file) as [Ef [Ep [Ea Eo]]].
    destruct (load_file w wh file) as [wh1 o]. cbn [fst snd] in *.
    destruct (IH wh1) as [If [Ip [Ia Io]]].
    destruct (load_files w wh1 rest) as [wh2 log]. cbn [fst snd] in *.
    split; [|split; [|split]].
    + rewrite If, Ef. cbn [flat_map]. now rewrite app_assoc.
    + rewrite Ip, Ep. unfold named_in. cbn [existsb].
      destruct (load_archived w (fst file)) eqn:A.
      * unfold remove_entry. rewrite filter_filter. apply filter_ext.
        intros e. destruct (String.eqb_spec (fst e) (fst file)) as [E|N].
        -- rewrite E, A. reflexivity.
        -- reflexivity.
      * apply filter_ext. intros e.
        destruct (String.eqb_spec (fst e) (fst file)) as [E|N].
        -- rewrite E, A. simpl. now rewrite !andb_false_r.
        -- reflexivity.
    + intros a. rewrite Ia, Ea. simpl.
      destruct (load_archived w (fst file)) eqn:A; simpl; split.
      * intros [[<-|K]|[g [Hg [Ag ->]]]].
        -- right. exists file. repeat split; [now left | exact A].
        -- now left.
        -- right. exists g. repeat split; [now right | exact Ag].
      * intros [K|[g [[<-|Hg] [Ag ->]]]].
        -- left. now right.
        -- left. now left.
        -- right. exists g. now repeat split.
      * intros [K|[g [Hg [Ag ->]]]]; [now left|].
        right. exists g. repeat split; [now right | exact Ag].
      * intros [K|[g [[<-|Hg] [Ag ->]]]]; [now left | congruence |].
        right. exists g. now repeat split.
    + simpl. now rewrite Eo, Io.
Qed.

(** X18.  The fact loader only appends: the rows already in [Fact_Sales]
    stay in front, followed by the projected rows of every file that was
    read and appended, in the order of the files.  Without a connection
    nothing at all happens, and a file enters the archive only after its
    rows were appended. *)
Theorem loader_appends_only (w : LoadWorld) (wh : Warehouse F) :
  fact_sales (fst (load_facts w wh))
  = (fact_sales wh
     ++ (if lw_connect w then flat_map (appended_rows w) (pending wh)
         else []))%list
  /\ (lw_connect w = false -> load_facts w wh = (wh, []))
  /\ (forall a,
        In a (archive_silver (fst (load_facts w wh))) ->
        In a (archive_silver wh)
        \/ exists file,
             In file (pending wh) /\ lw_connect w = true
             /\ appended_rows w file = map select_strict (snd file)
             /\ a = loaded_name (fst file) (lw_now w (fst file))).
Proof.
  unfold load_facts. destruct (lw_connect w) eqn:C.
  - destruct (load_files_effect w (pending wh) wh) as [Ef [_ [Ea _]]].
    split; [exact Ef|]. split; [intros K; discriminate K|].
    intros a Ha. apply Ea in Ha. destruct Ha as [K|[file [Hf [A ->]]]].
    + now left.
    + right. exists file. repeat split; try assumption.
      unfold appended_rows. unfold load_archived in A.
      rewrite !andb_true_iff in A. destruct A as [[[R T] _] _].
      now rewrite R, T.
  - cbn [fst]. rewrite app_nil_r. repeat split. intros a Ha. now left.
Qed.

(** X19.  A file whose rows were appended but which could not be moved
    afterwards is still pending, and the next run appends its rows once
    more: they are then twice in [Fact_Sales]. *)
Theorem unarchived_file_is_loaded_again (w : LoadWorld) (wh : Warehouse F)
  (file : string * list (Silver F)) :
  In file (pending wh) ->
  lw_connect w = true ->
  lw_read_parquet w (fst file) = true ->
  lw_to_sql w (fst file) = true ->
  load_archived w (fst file) = false ->
  let rows := map select_strict (snd file) in
  In file (pending (fst (load_facts w wh)))
  /\ exists a b c,
       fact_sales (fst (load_facts w (fst (load_facts w wh))))
       = (a ++ rows ++ b ++ rows ++ c)%list.
Proof.
  intros Hf C R T A. cbv zeta. unfold load_facts. rewrite C.
  destruct (load_files_effect w (pending wh) wh) as [Ef [Ep _]].
  set (wh1 := fst (load_files w wh (pending wh))) in *.
  assert (H1 : In file (pending wh1)).
  { rewrite Ep. apply filter_In. split; [exact Hf|]. rewrite A.
    now rewrite andb_false_r. }
  split; [exact H1|].
  destruct (load_files_effect w (pending wh1) wh1) as [Ef2 _].
  rewrite Ef2, Ef.
  assert (Rows : appended_rows w file = map select_strict (snd file)).
  { unfold appended_rows. now rewrite R, T. }
  assert (Split : forall l : list (string * list (Silver F)),
            In file l ->
            exists x y,
              flat_map (appended_rows w) l
              = (x ++ map select_strict (snd file) ++ y)%list).
  { intros l Hl. destruct (in_split _ _ Hl) as [l1 [l2 ->]].
    exists (flat_map (appended_rows w) l1), (flat_map (appended_rows w) l2).
    rewrite flat_map_app. cbn [flat_map]. now rewrite Rows. }
  destruct (Split _ Hf) as [x1 [y1 E1]].
  destruct (Split _ H1) as [x2 [y2 E2]].
  rewrite E1, E2.
  exists (fact_sales wh ++ x1)%list, (y1 ++ x2)%list, y2.
  now rewrite <- !app_assoc.
Qed.

End LoaderFacts.

Lemma unarchived_file_is_loaded_again_witness :
  In ("Fact_b.parquet", Sample.artifact)
    (pending (fst (load_facts Sample.load_world Sample.warehouse))).
Proof.
  apply (unarchived_file_is_loaded_again Sample.load_world Sample.warehouse
           ("Fact_b.parquet", Sample.artifact)).
  - simpl. tauto.
  - reflexivity.
  - reflexivity.
  - reflexivity.
  - reflexivity.
Defined.

(** X20.  The projection on the column contract keeps the financial
    equations: every row the loader appends from an artifact of the
    pipeline has [net_revenue = gross_sales - discount_amount] and
    [total_cost = net_revenue - order_profit_amount], and the projected
    frame has as many rows as the artifact. *)
Theorem strict_rows_keep_equations {F : Type} `{Arith F} (dims : Dims)
  (df : list (RawRow F)) :
  List.length (map select_strict (transform dims df))
  = List.length (transform dims df)
  /\ (forall r,
        In r (map select_strict (transform dims df)) ->
        net_revenue (st_fin r)
        = lift2 fsub (gross_sales (st_fin r)) (discount_amount (st_fin r))
        /\ total_cost (st_fin r)
           = lift2 fsub (net_revenue (st_fin r))
               (order_profit_amount (st_fin r))).
Proof.
  split; [apply length_map|].
  intros r Hr. apply in_map_iff in Hr. destruct Hr as [s [<- Hs]].
  apply transform_financials in Hs. destruct Hs as [c Hc].
  unfold select_strict. cbn [st_fin]. rewrite Hc. split; reflexivity.
Qed.

(** ** The dimension loader *)

Lemma NoDup_twice {A : Type} (l1 l2 : list A) :
  l2 <> [] -> ~ NoDup (l1 ++ l2 ++ l2).
Proof.
  intros N D. apply NoDup_app_remove_l in D.
  destruct l2 as [|x t]; [now apply N|].
  inversion D as [|y l Hx _]; subst. apply Hx.
  apply in_or_app. right. now left.
Qed.

(** X21.  The dimension loader appends and marks nothing as done: a table
    whose read or append fails is left as it was while the others are
    loaded, and running the loader twice on a dimension file that is not
    empty puts every key of it twice in the SQL table, which is then no
    longer unique-keyed. *)
Theorem dimension_loader_appends_again (w : DimWorld) (db : Dims) :
  dw_connect w = true ->
  (forall df,
     dw_read_parquet w "Dim_Geo" = Some df -> dw_to_sql w "Dim_Geo" = true ->
     dim_geo (load_dimensions w db) = (dim_geo db ++ df)%list
     /\ (df <> [] ->
         ~ unique_keyed (dim_geo (load_dimensions w (load_dimensions w db)))))
  /\ (forall df,
        dw_read_parquet w "Dim_Customer_Geo" = Some df ->
        dw_to_sql w "Dim_Customer_Geo" = true ->
        dim_cust (load_dimensions w db) = (dim_cust db ++ df)%list
        /\ (df <> [] ->
            ~ unique_keyed
                (dim_cust (load_dimensions w (load_dimensions w db)))))
  /\ (forall df,
        dw_read_parquet w "Dim_Product" = Some df ->
        dw_to_sql w "Dim_Product" = true ->
        dim_prod (load_dimensions w db) = (dim_prod db ++ df)%list
        /\ (df <> [] ->
            ~ unique_keyed
                (dim_prod (load_dimensions w (load_dimensions w db)))))
  /\ (dw_read_parquet w "Dim_Geo" = None \/ dw_to_sql w "Dim_Geo" = false ->
      dim_geo (load_dimensions w db) = dim_geo db)
  /\ (dw_read_parquet w "Dim_Customer_Geo" = None
      \/ dw_to_sql w "Dim_Customer_Geo" = false ->
      dim_cust (load_dimensions w db) = dim_cust db)
  /\ (dw_read_parquet w "Dim_Product" = None
      \/ dw_to_sql w "Dim_Product" = false ->
      dim_prod (load_dimensions w db) = dim_prod db).
Proof.
  intros C. unfold load_dimensions. rewrite C.
  cbn [dim_geo dim_cust dim_prod]. unfold load_dimension, unique_keyed.
  split; [|split; [|split; [|split; [|split]]]].
  - intros df R T. rewrite R, T. split; [reflexivity|].
    intros N. rewrite <- app_assoc, !map_app. apply NoDup_twice.
    destruct df; [now contradiction N | discriminate].
  - intros df R T. rewrite R, T. split; [reflexivity|].
    intros N. rewrite <- app_assoc, !map_app. apply NoDup_twice.
    destruct df; [now contradiction N | discriminate].
  - intros df R T. rewrite R, T. split; [reflexivity|].
    intros N. rewrite <- app_assoc, !map_app. apply NoDup_twice.
    destruct df; [now contradiction N | discriminate].
  - intros [R|T].
    + now rewrite R.
    + rewrite T. now destruct (dw_read_parquet w "Dim_Geo").
  - intros [R|T].
    + now rewrite R.
    + rewrite T. now destruct (dw_read_parquet w "Dim_Customer_Geo").
  - intros [R|T].
    + now rewrite R.
    + rewrite T. now destruct (dw_read_parquet w "Dim_Product").
Qed.

Lemma dimension_loader_appends_again_witness :
  ~ unique_keyed
      (dim_geo
         (load_dimensions Sample.dim_world
            (load_dimensions Sample.dim_world Sample.empty_db))).
Proof.
  apply (proj1 (dimension_loader_appends_again Sample.dim_world
                  Sample.empty_db eq_refl)
           (dim_geo Fixture.dims) eq_refl eq_refl).
  discriminate.
Defined.

(** ** Lookups in the dimension tables *)

Lemma keys_match_refl (k : Key) : keys_match k k = true.
Proof. unfold keys_match. apply eqb_of_refl. Qed.

Lemma first_match_found (k : Key) (p : Payload) (d : Dim) :
  unique_keyed d -> In (k, p) d -> complete_key k = true ->
  first_match k d = Some p.
Proof.
  intros U Hk C. unfold first_match.
  assert (Hm : In (k, p) (matches k d)).
  { unfold matches. apply filter_In. split; [exact Hk|].
    apply keys_match_refl. }
  destruct (matches_unique k d U) as [E|[m E]]; rewrite E in *.
  - destruct Hm.
  - destruct Hm as [->|[]]. reflexivity.
Qed.

Section LookupFacts.
Context {F : Type} `{Arith F}.

(** X22.  With unique-keyed dimension tables, a fact row whose natural key
    has no null cell and is a key of the dimension table receives the
    surrogate key and the attributes of that row of the table, for each of
    the three dimensions. *)
Theorem matched_rows_receive_their_key (dims : Dims) (df : list (Fact F))
  (f : Fact F) :
  unique_keyed (dim_geo dims) -> unique_keyed (dim_cust dims) ->
  unique_keyed (dim_prod dims) ->
  In f df ->
  exists r,
    In r (enrich dims df) /\ body r = body_of f
    /\ (forall p,
          In (geo_on f, p) (dim_geo dims) ->
          complete_key (geo_on f) = true ->
          geo r = Some p /\ geo_id r = surrogate p)
    /\ (forall p,
          In ([customer_state (customer_keys (f_clean f));
               customer_country (customer_keys (f_clean f))], p)
            (dim_cust dims) ->
          customer_state (customer_keys (f_clean f)) <> None ->
          customer_country (customer_keys (f_clean f)) <> None ->
          customer_geo r = Some p /\ customer_geo_id r = surrogate p)
    /\ (forall p,
          In ([product_name (product_keys (f_clean f));
               category_name (product_keys (f_clean f));
               department_name (product_keys (f_clean f))], p)
            (dim_prod dims) ->
          product_name (product_keys (f_clean f)) <> None ->
          category_name (product_keys (f_clean f)) <> None ->
          department_name (product_keys (f_clean f)) <> None ->
          product r = Some p /\ product_key r = surrogate p).
Proof.
  intros Ug Uc Up Hf. exists (enrich_row dims f).
  rewrite (enrich_unique dims df Ug Uc Up).
  split; [now apply in_map|]. split; [reflexivity|].
  unfold enrich_row, geo_id, customer_geo_id, product_key.
  cbn [geo customer_geo product]. split; [|split].
  - intros p Hp C. rewrite (first_match_found _ p _ Ug Hp C). now split.
  - intros p Hp N1 N2. rewrite (first_match_found _ p _ Uc Hp).
    + now split.
    + unfold complete_key. simpl.
      destruct (customer_state _), (customer_country _);
        try reflexivity; contradiction.
  - intros p Hp N1 N2 N3. rewrite (first_match_found _ p _ Up Hp).
    + now split.
    + unfold complete_key. simpl.
      destruct (product_name _), (category_name _), (department_name _);
        try reflexivity; contradiction.
Qed.

End LookupFacts.

Lemma matched_rows_receive_their_key_witness :
  exists f r,
    In f (fact_set [Fixture.standard_line])
    /\ In r (enrich Fixture.dims (fact_set [Fixture.standard_line]))
    /\ body r = body_of f /\ geo_id r = Some 17.
Proof.
  assert (E : exists f, In f (fact_set [Fixture.standard_line])).
  { eexists. vm_compute. left. reflexivity. }
  destruct E as [f Hf]. exists f.
  destruct (matched_rows_receive_their_key Fixture.dims
              (fact_set [Fixture.standard_line]) f
              ltac:(repeat constructor; simpl; tauto)
              ltac:(repeat constructor; simpl; tauto)
              ltac:(repeat constructor; simpl; tauto) Hf)
    as [r [Hr [Eb [Hg _]]]].
  exists r. repeat split; try assumption.
  assert (K : geo_on f
              = [Some "Java Occidental"; Some "Indonesia";
                 Some "Southeast Asia"; Some "Pacific Asia"]).
  { vm_compute in Hf. destruct Hf as [<-|[]]. reflexivity. }
  refine (proj2 (Hg {| surrogate := Some 17; attributes := [Some "APAC"] |}
                   _ _)).
  - rewrite K. left. reflexivity.
  - rewrite K. reflexivity.
Defined.

(** ** Edge values in binary64 *)

Lemma div_by_zero_not_finite (x s : B64.t) :
  B64.is_zero s = true -> is_finite (B64.div x s) = false.
Proof.
  destruct s; try discriminate. intros _. now destruct x.
Qed.

(** X23.  In binary64, in a group whose [gross_sales] add up to zero no
    share is a finite number: each [category_share_pct] of the group is
    null, NaN or infinite, and likewise each [market_share_pct] of a market
    whose sum is zero. *)
Theorem shares_of_zero_sum_not_finite (df : list (Derived B64.t))
  (r : Fact B64.t) :
  In r (with_window_metrics df) ->
  (B64.is_zero
     (fsum (map d_gross_sales
              (partition d_category_name (f_category_name r) df))) = true ->
   forall x, category_share_pct (win r) = Some x -> is_finite x = false)
  /\ (B64.is_zero
        (fsum (map d_gross_sales
                 (partition d_market (f_market r) df))) = true ->
      forall x, market_share_pct (win r) = Some x -> is_finite x = false).
Proof.
  intros Hr. apply with_window_metrics_In in Hr. destruct Hr as [_ Hw].
  rewrite Hw. unfold window_metrics.
  cbn [category_share_pct market_share_pct].
  rewrite !sum_over_partition. unfold f_category_name, f_market.
  split; intros Z x E; destruct (d_gross_sales (derived r)) as [g|];
    try discriminate E; simpl in E; injection E as <-;
    now apply div_by_zero_not_finite.
Qed.

Lemma shares_of_zero_sum_not_finite_witness :
  exists r,
    In r (fact_set [Fixture.free_line])
    /\ forall x, category_share_pct (win r) = Some x -> is_finite x = false.
Proof.
  pose (df := map derive (cleanup [Fixture.free_line])).
  assert (E : exists r, In r (with_window_metrics df)).
  { eexists. vm_compute. left. reflexivity. }
  destruct E as [r Hr]. exists r. split; [exact Hr|].
  apply (proj1 (shares_of_zero_sum_not_finite df r Hr)).
  vm_compute in Hr. destruct Hr as [<-|[]]. vm_compute. reflexivity.
Defined.

(** X24.  In binary64 [is_profit_bleeder] is true exactly on a profit that
    is a negative number or minus infinity: a profit of zero, of either
    sign, and a NaN profit are not flagged, and a null profit gives a null
    flag. *)
Theorem profit_bleeder_cases (c : Core B64.t) (f : Financials B64.t) :
  (is_profit_bleeder (operational c f) = Some true
   <-> (exists m e, order_profit_amount f = Some (S754_finite true m e))
       \/ order_profit_amount f = Some (S754_infinity true))
  /\ (is_profit_bleeder (operational c f) = None
      <-> order_profit_amount f = None).
Proof.
  unfold operational. cbn [is_profit_bleeder].
  destruct (order_profit_amount f) as [[s|s| |s m e]|]; simpl.
  - split; split; try discriminate.
    intros [[m [e K]]|K]; discriminate K.
  - destruct s; split; split; try discriminate; try tauto.
    intros [[m [e K]]|K]; [discriminate K | injection K as K; discriminate K].
  - split; split; try discriminate.
    intros [[m [e K]]|K]; discriminate K.
  - destruct s; split; split; try discriminate.
    + intros _. left. now exists m, e.
    + reflexivity.
    + intros [[m' [e' K]]|K]; [injection K as K; discriminate K | discriminate K].
  - split; split; try discriminate; try reflexivity.
    intros [[m [e K]]|K]; discriminate K.
Qed.
